(** * word-salat: scrambling and scoring, embedded from the Python sources

    [src/src/core.py] and [src/src/scoring.py] (the package) and
    [src/word_salat.py] (the single-file predecessor that is still shipped)
    are translated function by function.  Python strings are lists of code
    points, Python lists are lists, exceptions are the [Raise] results of a
    small error monad, the random generator object is an explicit state that
    every call hands back, and Python floats are binary64 primitive floats. *)

From Stdlib Require Import ZArith Floats Uint63 String Ascii DecimalString.
From stdpp Require Import base list gmap sorting.

Local Open Scope nat_scope.

(** ** Strings *)

(** A Python [str] is a sequence of Unicode code points. *)
Definition char : Type := N.
Abbreviation str := (list char).

(** A string literal of the source, for the ASCII ones. *)
Definition lit (s : string) : str :=
  map N_of_ascii (list_ascii_of_string s).

(** [text[lo:hi]] for [0 <= lo] and [0 <= hi]. *)
Definition slice {A} (l : list A) (lo hi : nat) : list A :=
  take (hi - lo) (drop lo l).
Arguments slice : simpl never.

(** [word[1:-1]]. *)
Definition interior {A} (l : list A) : list A :=
  slice l 1 (length l - 1).

(** ** Exceptions *)

Inductive exn : Type :=
  | IndexError
  | ValueError (msg : str).

Inductive res (A : Type) : Type :=
  | Ok (a : A)
  | Raise (e : exn).
Arguments Ok {A} a.
Arguments Raise {A} e.

#[global] Instance res_ret : MRet res := fun _ a => Ok a.
#[global] Instance res_bind : MBind res := fun _ _ f m =>
  match m with
  | Ok a => f a
  | Raise e => Raise e
  end.

(** [l[i]] as an expression: raises [IndexError] out of range. *)
Definition getitem {A} (l : list A) (i : nat) : res A :=
  match l !! i with
  | Some x => Ok x
  | None => Raise IndexError
  end.

(** [l[i] = v] as a statement: raises [IndexError] out of range. *)
Definition setitem {A} (l : list A) (i : nat) (v : A) : res (list A) :=
  if decide (i < length l) then Ok (<[i:=v]> l) else Raise IndexError.

(** ** The random generator

    [random.Random] belongs to the Python standard library.  Its state is the
    type [Rng]; [randbelow n] is [Random._randbelow(n)], which returns an
    integer and advances the state; [seed_state s] is the state of
    [random.Random(s)] for an integer seed. *)
Class RandomSource (Rng : Type) : Type := {
  randbelow : nat -> Rng -> nat * Rng;
  seed_state : Z -> Rng
}.

(** The contract of [_randbelow]: the result lies in [range(n)]. *)
Definition randbelow_in_range `{RandomSource Rng} : Prop :=
  forall (n : nat) (s : Rng), 0 < n -> fst (randbelow n s) < n.

Section Random.
Context `{RandomSource Rng}.

(** [random.Random(seed)]: with [seed=None] the generator is seeded by the
    operating system, whose contribution is the argument [entropy]. *)
Definition Random (seed : option Z) (entropy : Rng) : Rng :=
  match seed with
  | Some s => seed_state s
  | None => entropy
  end.

(** [x[i], x[j] = x[j], x[i]]: the right-hand side reads [x[j]] and
    [x[i]], then the two stores follow. *)
Definition swap_items {A} (x : list A) (i j : nat) : res (list A) :=
  xj ← getitem x j;
  xi ← getitem x i;
  x' ← setitem x i xj;
  setitem x' j xi.

(** The loop of [Random.shuffle]:
    [for i in reversed(range(1, len(x))): j = randbelow(i + 1); swap]. *)
Fixpoint shuffle_from {A} (i : nat) (x : list A) (rng : Rng)
    : res (list A * Rng) :=
  match i with
  | 0 => Ok (x, rng)
  | S i' =>
      let '(j, rng') := randbelow (S i) rng in
      x' ← swap_items x i j;
      shuffle_from i' x' rng'
  end.

Definition shuffle {A} (x : list A) (rng : Rng) : res (list A * Rng) :=
  shuffle_from (length x - 1) x rng.
End Random.

(** ** The generator of CPython

    [random.Random] is MT19937, as [_randommodule.c] of CPython has it, with
    [_randbelow_with_getrandbits] of [random.py] on top.  The state is the
    array [mt] of 624 words of 32 bits and the index of the next word.  The
    repository's test vectors are run on it at the end of this file. *)

Module MersenneTwister.

Definition uint32 (z : Z) : Z := (z mod 4294967296)%Z.

Record state : Type := { mt : list Z; index : nat }.

Definition word (mt : list Z) (i : nat) : Z := default 0%Z (mt !! i).

(** [init_genrand]: [mt[mti] = 1812433253 * (mt[mti-1] ^ (mt[mti-1] >> 30))
    + mti]. *)
Fixpoint init_genrand_from (count : nat) (mti previous : Z) : list Z :=
  match count with
  | 0 => []
  | S count' =>
      let x :=
        uint32 (1812433253 * Z.lxor previous (Z.shiftr previous 30) + mti) in
      x :: init_genrand_from count' (mti + 1)%Z x
  end.

Definition init_genrand (s : Z) : list Z :=
  uint32 s :: init_genrand_from 623 1 (uint32 s).

(** The first loop of [init_by_array]. *)
Fixpoint mix_key (k : nat) (init_key : list Z) (i j : nat) (mt : list Z)
    : nat * list Z :=
  match k with
  | 0 => (i, mt)
  | S k' =>
      let previous := word mt (i - 1) in
      let x :=
        uint32 (Z.lxor (word mt i)
                  (uint32 (Z.lxor previous (Z.shiftr previous 30) * 1664525))
                + word init_key j + Z.of_nat j) in
      let mt := <[i := x]> mt in
      let i := i + 1 in
      let j := j + 1 in
      let '(i, mt) :=
        if decide (624 ≤ i) then (1, <[0 := word mt 623]> mt) else (i, mt) in
      let j := if decide (length init_key ≤ j) then 0 else j in
      mix_key k' init_key i j mt
  end.

(** The second loop of [init_by_array]. *)
Fixpoint mix_index (k : nat) (i : nat) (mt : list Z) : list Z :=
  match k with
  | 0 => mt
  | S k' =>
      let previous := word mt (i - 1) in
      let x :=
        uint32 (Z.lxor (word mt i)
                  (uint32 (Z.lxor previous (Z.shiftr previous 30) * 1566083941))
                - Z.of_nat i) in
      let mt := <[i := x]> mt in
      let i := i + 1 in
      let '(i, mt) :=
        if decide (624 ≤ i) then (1, <[0 := word mt 623]> mt) else (i, mt) in
      mix_index k' i mt
  end.

Definition init_by_array (init_key : list Z) : state :=
  let mt := init_genrand 19650218 in
  let '(i, mt) := mix_key (max 624 (length init_key)) init_key 1 0 mt in
  let mt := mix_index 623 i mt in
  {| mt := <[0 := 2147483648%Z]> mt; index := 624 |}.

(** The 32-bit words of [n], least significant first, for [random_seed]. *)
Fixpoint key_words (count : nat) (n : Z) : list Z :=
  match count with
  | 0 => []
  | S count' => uint32 n :: key_words count' (Z.shiftr n 32)
  end.

(** [random.seed(a)] for an integer [a]: the key is [abs(a)]. *)
Definition seed (a : Z) : state :=
  let n := Z.abs a in
  let bits := if decide (n = 0%Z) then 0%Z else (Z.log2 n + 1)%Z in
  let keyused :=
    if decide (bits = 0%Z) then 1 else Z.to_nat ((bits - 1) / 32 + 1) in
  init_by_array (key_words keyused n).

(** The loops of [genrand_uint32] that regenerate the 624 words. *)
Fixpoint twist_from (count kk : nat) (mt : list Z) : list Z :=
  match count with
  | 0 => mt
  | S count' =>
      let y :=
        Z.lor (Z.land (word mt kk) 2147483648)
              (Z.land (word mt ((kk + 1) mod 624)) 2147483647) in
      let x :=
        Z.lxor (Z.lxor (word mt ((kk + 397) mod 624)) (Z.shiftr y 1))
               (if Z.odd y then 2567483615%Z else 0%Z) in
      twist_from count' (S kk) (<[kk := x]> mt)
  end.

Definition genrand_uint32 (self : state) : Z * state :=
  let self :=
    if decide (624 ≤ index self)
    then {| mt := twist_from 624 0 (mt self); index := 0 |} else self in
  let y := word (mt self) (index self) in
  let y := Z.lxor y (Z.shiftr y 11) in
  let y := Z.lxor y (Z.land (Z.shiftl y 7) 2636928640) in
  let y := Z.lxor y (Z.land (Z.shiftl y 15) 4022730752) in
  let y := Z.lxor y (Z.shiftr y 18) in
  (y, {| mt := mt self; index := S (index self) |}).

(** [getrandbits(k)] for [k > 0]: words of 32 bits, least significant
    first, the last one cut to the bits that remain. *)
Fixpoint getrandbits_words (words : nat) (k : Z) (self : state) : Z * state :=
  match words with
  | 0 => (0%Z, self)
  | S words' =>
      let '(r, self) := genrand_uint32 self in
      let r := if decide (k < 32)%Z then Z.shiftr r (32 - k) else r in
      let '(high, self) := getrandbits_words words' (k - 32) self in
      ((r + Z.shiftl high 32)%Z, self)
  end.

Definition getrandbits (k : Z) (self : state) : Z * state :=
  getrandbits_words (Z.to_nat ((k - 1) / 32 + 1)) k self.

(** The loop [while r >= n: r = getrandbits(k)] of
    [_randbelow_with_getrandbits]; each draw is rejected with probability
    below one half, and after [draws] rejections the model gives up and
    reduces the last draw. *)
Fixpoint randbelow_loop (draws : nat) (n k r : Z) (self : state)
    : Z * state :=
  match draws with
  | 0 => ((r mod n)%Z, self)
  | S draws' =>
      if decide (n ≤ r)%Z then
        let '(r, self) := getrandbits k self in
        randbelow_loop draws' n k r self
      else (r, self)
  end.

Definition _randbelow (n : nat) (self : state) : nat * state :=
  let n := Z.of_nat n in
  let k := if decide (n = 0%Z) then 0%Z else (Z.log2 n + 1)%Z in
  let '(r, self) := getrandbits k self in
  let '(r, self) := randbelow_loop 1000 n k r self in
  (Z.to_nat r, self).

#[global] Instance source : RandomSource state := {
  randbelow := _randbelow;
  seed_state := seed
}.
End MersenneTwister.

(** ** core.py *)

Definition MAX_SHUFFLE_ATTEMPTS : nat := 8.

(** The character class of [WORD_PATTERN], [[A-Za-zÀ-ÖØ-öø-ÿ]]. *)
Definition is_word_char (c : char) : bool :=
  ((65 <=? c) && (c <=? 90) ||
   (97 <=? c) && (c <=? 122) ||
   (192 <=? c) && (c <=? 214) ||
   (216 <=? c) && (c <=? 246) ||
   (248 <=? c) && (c <=? 255))%N.

(** [WORD_PATTERN.finditer(text)] as the list of the spans [(start, end)].
    The pattern is one character class under [+], so the scan is a two-state
    machine: [open] holds the start of the run being read, if any. *)
Fixpoint finditer_from (rest : str) (pos : nat) (open : option nat)
    : list (nat * nat) :=
  match rest with
  | [] =>
      match open with
      | Some start => [(start, pos)]
      | None => []
      end
  | c :: rest' =>
      if is_word_char c then
        finditer_from rest' (S pos) (Some (default pos open))
      else
        match open with
        | Some start => (start, pos) :: finditer_from rest' (S pos) None
        | None => finditer_from rest' (S pos) None
        end
  end.

Definition finditer (text : str) : list (nat * nat) :=
  finditer_from text 0 None.

(** [WORD_PATTERN.findall(text)]: the pattern has no group, so the matched
    substrings. *)
Definition findall (text : str) : list str :=
  map (fun span => slice text span.1 span.2) (finditer text).

(** [indices.remove(x)]: drops the first occurrence. *)
Fixpoint list_remove_first (x : nat) (l : list nat) : list nat :=
  match l with
  | [] => []
  | y :: l' => if decide (y = x) then l' else y :: list_remove_first x l'
  end.

Section Core.
Context `{RandomSource Rng}.

(** [[chars[i] for i in indices]]. *)
Fixpoint getitems (chars : list char) (indices : list nat)
    : res (list char) :=
  match indices with
  | [] => Ok []
  | i :: rest =>
      c ← getitem chars i;
      cs ← getitems chars rest;
      Ok (c :: cs)
  end.

(** [for idx, value in zip(indices, randomized): candidate[idx] = value]. *)
Fixpoint store_items (candidate : list char) (pairs : list (nat * char))
    : res (list char) :=
  match pairs with
  | [] => Ok candidate
  | (idx, value) :: rest =>
      candidate' ← setitem candidate idx value;
      store_items candidate' rest
  end.

(** The [for _ in range(max_attempts)] loop of [_attempt_shuffle], with
    the two statements after it as the case of no attempt left. *)
Fixpoint attempt_loop (attempts : nat) (original_chars : list char)
    (indices : list nat) (subset : list char) (rng : Rng)
    : res (list char * Rng) :=
  match attempts with
  | 0 => Ok (original_chars, rng)
  | S attempts' =>
      '(randomized, rng') ← shuffle subset rng;
      candidate ← store_items original_chars (zip indices randomized);
      if decide (candidate ≠ original_chars) then Ok (candidate, rng')
      else attempt_loop attempts' original_chars indices subset rng'
  end.

Definition _attempt_shuffle (chars : list char) (indices : list nat)
    (rng : Rng) (max_attempts : nat) : res (list char * Rng) :=
  if decide (length indices ≤ 1) then Ok (chars, rng)
  else
    let original_chars := chars in
    subset ← getitems chars indices;
    if decide (size (list_to_set subset : gset char) ≤ 1) then
      Ok (chars, rng)
    else attempt_loop max_attempts original_chars indices subset rng.

(** The mutable index set that [scramble_word] builds. *)
Definition shuffle_indices (n : nat) : list nat :=
  let indices := seq 1 (n - 1 - 1) in
  if decide (n mod 2 = 1) then
    let middle_index := n / 2 in
    if decide (middle_index ∈ indices) then
      list_remove_first middle_index indices
    else indices
  else indices.

(** [scramble_word(word, rng)].  A caller that passes no generator gets a
    fresh [random.Random()], whose state is as arbitrary as [rng] is here.
    The generator is an object that the call advances; its state after
    the call is the second component. *)
Definition scramble_word (word : str) (rng : Rng) : res (str * Rng) :=
  if decide (length word ≤ 3) then Ok (word, rng)
  else
    let chars := word in
    let indices := shuffle_indices (length word) in
    _attempt_shuffle chars indices rng MAX_SHUFFLE_ATTEMPTS.

(** The body of the [for match in WORD_PATTERN.finditer(text)] loop of
    [_scramble_segments] and the statement after it; the yielded segments
    are collected in order. *)
Fixpoint segments_from (text : str) (spans : list (nat * nat))
    (last_index : nat) (rng : Rng) : res (list str * Rng) :=
  match spans with
  | [] =>
      Ok (if decide (last_index < length text)
          then [drop last_index text] else [], rng)
  | (start, end_) :: spans' =>
      let before :=
        if decide (last_index < start)
        then [slice text last_index start] else [] in
      '(word, rng') ← scramble_word (slice text start end_) rng;
      '(rest, rng'') ← segments_from text spans' end_ rng';
      Ok (before ++ word :: rest, rng'')
  end.

Definition _scramble_segments (text : str) (rng : Rng)
    : res (list str * Rng) :=
  segments_from text (finditer text) 0 rng.

(** [scramble_text(text, seed)]: [entropy] is what the operating system
    gives to [random.Random(None)]. *)
Definition scramble_text (text : str) (seed : option Z) (entropy : Rng)
    : res str :=
  let rng := Random seed entropy in
  '(segments, _) ← _scramble_segments text rng;
  Ok (concat segments).
End Core.

(** ** difflib.SequenceMatcher

    [scoring.py] builds [SequenceMatcher(None, a, b)] and calls [ratio()].
    The class belongs to the Python standard library; below are the methods
    that this call runs, for [isjunk=None] (no junk element, so the two loops
    of [find_longest_match] that absorb junk never iterate and are left out)
    and the default [autojunk=True].  Indices are naturals: [i-k+1] is
    written [i + 1 - k], and [j2len.get(j-1, 0)] is [0] at [j = 0]. *)

Module Difflib.
Section SequenceMatcher.
Context `{Countable A}.

(** [__chain_b]: [b2j] maps an element of [b] to the increasing list of
    its positions; when [b] has 200 elements or more, the elements that
    occur more than [n // 100 + 1] times are purged as popular. *)
Definition chain_b (b : list A) : gmap A (list nat) :=
  let b2j :=
    foldl (fun (b2j : gmap A (list nat)) '(i, elt) =>
             <[elt := default [] (b2j !! elt) ++ [i]]> b2j)
          ∅ (imap pair b) in
  let n := length b in
  if decide (200 ≤ n) then
    let ntest := n / 100 + 1 in
    filter (fun entry => ¬ (ntest < length entry.2)) b2j
  else b2j.

(** [j2len.get(j-1, 0)]. *)
Definition j2len_before (j2len : gmap nat nat) (j : nat) : nat :=
  match j with
  | 0 => 0
  | S j' => default 0 (j2len !! j')
  end.

(** The loop [for j in b2j.get(a[i], nothing)] of [find_longest_match]. *)
Fixpoint flm_row (js : list nat) (i blo bhi : nat)
    (j2len newj2len : gmap nat nat) (best : nat * nat * nat)
    : gmap nat nat * (nat * nat * nat) :=
  match js with
  | [] => (newj2len, best)
  | j :: js' =>
      if decide (j < blo) then flm_row js' i blo bhi j2len newj2len best
      else if decide (bhi ≤ j) then (newj2len, best)
      else
        let k := j2len_before j2len j + 1 in
        let newj2len := <[j := k]> newj2len in
        let '(_, _, bestsize) := best in
        let best := if decide (bestsize < k)
                    then (i + 1 - k, j + 1 - k, k) else best in
        flm_row js' i blo bhi j2len newj2len best
  end.

(** The loop [for i in range(alo, ahi)]. *)
Definition flm_scan (a : list A) (b2j : gmap A (list nat))
    (alo ahi blo bhi : nat) : nat * nat * nat :=
  snd (foldl (fun '(j2len, best) i =>
                let js := default [] (a !! i ≫= fun x => b2j !! x) in
                flm_row js i blo bhi j2len ∅ best)
             (∅, (alo, blo, 0)) (seq alo (ahi - alo))).

(** [while besti > alo and bestj > blo and a[besti-1] == b[bestj-1]]. *)
Fixpoint extend_down (a b : list A) (alo blo besti bestj bestsize : nat)
    : nat * nat * nat :=
  match besti, bestj with
  | S i', S j' =>
      if decide (alo < besti ∧ blo < bestj ∧ a !! i' = b !! j')
      then extend_down a b alo blo i' j' (bestsize + 1)
      else (besti, bestj, bestsize)
  | _, _ => (besti, bestj, bestsize)
  end.

(** [while besti+bestsize < ahi and bestj+bestsize < bhi and
    a[besti+bestsize] == b[bestj+bestsize]]; [room] bounds the number of
    iterations, and [ahi - (besti + bestsize)] is enough room. *)
Fixpoint extend_up (room : nat) (a b : list A)
    (ahi bhi besti bestj bestsize : nat) : nat * nat * nat :=
  match room with
  | 0 => (besti, bestj, bestsize)
  | S room' =>
      if decide (besti + bestsize < ahi ∧ bestj + bestsize < bhi ∧
                 a !! (besti + bestsize) = b !! (bestj + bestsize))
      then extend_up room' a b ahi bhi besti bestj (bestsize + 1)
      else (besti, bestj, bestsize)
  end.

Definition find_longest_match (a b : list A) (b2j : gmap A (list nat))
    (alo ahi blo bhi : nat) : nat * nat * nat :=
  let '(besti, bestj, bestsize) := flm_scan a b2j alo ahi blo bhi in
  let '(besti, bestj, bestsize) :=
    extend_down a b alo blo besti bestj bestsize in
  extend_up (ahi - (besti + bestsize)) a b ahi bhi besti bestj bestsize.

(** The [while queue] loop of [get_matching_blocks]; the queue is a stack
    ([pop] takes the entry appended last).  Every entry pushed is shorter
    than the one popped, so [2 * len(a) + 1] rounds empty the queue. *)
Fixpoint blocks_loop (rounds : nat) (a b : list A) (b2j : gmap A (list nat))
    (queue : list (nat * nat * nat * nat))
    (matching_blocks : list (nat * nat * nat)) : list (nat * nat * nat) :=
  match rounds, queue with
  | S rounds', (alo, ahi, blo, bhi) :: queue =>
      let '(i, j, k) := find_longest_match a b b2j alo ahi blo bhi in
      if decide (k ≠ 0) then
        let matching_blocks := matching_blocks ++ [(i, j, k)] in
        let queue :=
          if decide (alo < i ∧ blo < j)
          then (alo, i, blo, j) :: queue else queue in
        let queue :=
          if decide (i + k < ahi ∧ j + k < bhi)
          then (i + k, ahi, j + k, bhi) :: queue else queue in
        blocks_loop rounds' a b b2j queue matching_blocks
      else blocks_loop rounds' a b b2j queue matching_blocks
  | _, _ => matching_blocks
  end.

(** The order of tuples of integers, for [matching_blocks.sort()]. *)
Definition triple_le (x y : nat * nat * nat) : Prop :=
  let '(i1, j1, k1) := x in
  let '(i2, j2, k2) := y in
  i1 < i2 ∨ (i1 = i2 ∧ (j1 < j2 ∨ (j1 = j2 ∧ k1 ≤ k2))).

#[global] Instance triple_le_dec x y : Decision (triple_le x y).
Proof. destruct x as [[? ?] ?], y as [[? ?] ?]. cbn. apply _. Defined.

(** The loop that collapses adjacent blocks, with the statement after it. *)
Fixpoint collapse (i1 j1 k1 : nat) (blocks : list (nat * nat * nat))
    : list (nat * nat * nat) :=
  match blocks with
  | [] => if decide (k1 ≠ 0) then [(i1, j1, k1)] else []
  | (i2, j2, k2) :: blocks' =>
      if decide (i1 + k1 = i2 ∧ j1 + k1 = j2)
      then collapse i1 j1 (k1 + k2) blocks'
      else (if decide (k1 ≠ 0) then [(i1, j1, k1)] else [])
             ++ collapse i2 j2 k2 blocks'
  end.

Definition get_matching_blocks (a b : list A) : list (nat * nat * nat) :=
  let la := length a in
  let lb := length b in
  let matching_blocks :=
    blocks_loop (2 * la + 1) a b (chain_b b) [(0, la, 0, lb)] [] in
  let matching_blocks := merge_sort triple_le matching_blocks in
  let non_adjacent := collapse 0 0 0 matching_blocks in
  non_adjacent ++ [(la, lb, 0)].

(** An [int] where a [float] is expected.  Lengths are below [2^63]. *)
Definition float_of_int (n : nat) : float :=
  PrimFloat.of_uint63 (Uint63.of_Z (Z.of_nat n)).

Definition _calculate_ratio (matches length : nat) : float :=
  if decide (length ≠ 0)
  then (2 * float_of_int matches / float_of_int length)%float
  else 1%float.

Definition ratio (a b : list A) : float :=
  let matches := sum_list ((fun t => t.2) <$> get_matching_blocks a b) in
  _calculate_ratio matches (length a + length b).
End SequenceMatcher.
End Difflib.

(** ** Built-ins of [str] that depend on the Unicode database

    [str_isspace c] tells whether [str.split()] treats [c] as whitespace,
    and [str_lower] is [str.lower]. *)
Class StrBuiltins : Type := {
  str_isspace : char -> bool;
  str_lower : str -> str
}.

(** On ASCII text [str.lower] maps [A-Z] to [a-z] and keeps the rest. *)
Definition ascii_lower (c : char) : char :=
  if ((65 <=? c) && (c <=? 90))%N then (c + 32)%N else c.

Definition str_lower_on_ascii `{StrBuiltins} : Prop :=
  forall s : str, Forall (fun c => (c < 128)%N) s ->
    str_lower s = ascii_lower <$> s.

(** ** scoring.py *)

(** [ScoringMethod = Literal["char", "word", "token_set", "hybrid"]]. *)
Definition ScoringMethod : list str :=
  [lit "char"; lit "word"; lit "token_set"; lit "hybrid"].

Record ScoreResult : Type := {
  model_name : str;
  source_label : str;
  method : str;
  score : float;
  char_score : float;
  word_score : float;
  token_set_score : float
}.

(** The files that the scorer can touch: a path to the lines of the file,
    each with its line end. *)
Abbreviation FileSystem := (gmap str (list str)).

Definition newline : str := [10%N].

(** [line.startswith(prefix)]. *)
Definition startswith (prefix line : str) : bool :=
  bool_decide (take (length prefix) line = prefix).

(** The integer nearest to [n * 2^e], ties to even. *)
Definition round_half_even (n e : Z) : Z :=
  if (0 <=? e)%Z then (n * 2 ^ e)%Z
  else
    let d := (2 ^ (- e))%Z in
    let q := (n / d)%Z in
    let r := (n mod d)%Z in
    if (2 * r <? d)%Z then q
    else if (d <? 2 * r)%Z then (q + 1)%Z
    else if Z.even q then q else (q + 1)%Z.

Definition decimal (n : N) : str :=
  lit (NilZero.string_of_uint (N.to_uint n)).

(** [f"{x:.4f}"]: the decimal with four places nearest to the exact value
    of the float. *)
Definition format_4f (x : float) : str :=
  let sign (s : bool) : str := if s then lit "-" else [] in
  match Prim2SF x with
  | S754_nan => lit "nan"
  | S754_infinity s => sign s ++ lit "inf"
  | S754_zero s => sign s ++ lit "0.0000"
  | S754_finite s m e =>
      let scaled := Z.to_N (round_half_even (Z.pos m * 10000) e) in
      let frac := decimal (scaled mod 10000) in
      sign s ++ decimal (scaled / 10000) ++ lit "."
        ++ replicate (4 - length frac) 48%N ++ frac
  end.

(** [a / b] on integers, for operands that a float holds exactly. *)
Definition int_truediv (a b : nat) : float :=
  (Difflib.float_of_int a / Difflib.float_of_int b)%float.

Section Scoring.
Context `{StrBuiltins}.

(** [text.split()]: the maximal runs of characters that are not
    whitespace; [field] is the run being read. *)
Fixpoint str_split_from (rest field : str) : list str :=
  match rest with
  | [] => if decide (field = []) then [] else [field]
  | c :: rest' =>
      if str_isspace c then
        (if decide (field = []) then [] else [field])
          ++ str_split_from rest' []
      else str_split_from rest' (field ++ [c])
  end.

Definition str_split (text : str) : list str := str_split_from text [].

(** [sep.join(fields)]. *)
Fixpoint str_join (sep : str) (fields : list str) : str :=
  match fields with
  | [] => []
  | [field] => field
  | field :: fields' => field ++ sep ++ str_join sep fields'
  end.

(** The local function [normalize] of [compute_detailed_score]. *)
Definition normalize (ignore_case collapse_whitespace : bool) (text : str)
    : str :=
  let processed := text in
  let processed :=
    if collapse_whitespace
    then str_join (lit " ") (str_split processed) else processed in
  let processed :=
    if ignore_case then str_lower processed else processed in
  processed.

Definition to_markdown_row (self : ScoreResult) : str :=
  lit "| " ++ model_name self ++ lit " | `" ++ source_label self
    ++ lit "` | `" ++ method self ++ lit "` | "
    ++ format_4f (score self) ++ lit " | "
    ++ format_4f (char_score self) ++ lit " | "
    ++ format_4f (word_score self) ++ lit " | "
    ++ format_4f (token_set_score self) ++ lit " |".

(** The word-level score. *)
Definition word_level (words_original words_decoded : list str) : float :=
  if decide (words_original = [] ∧ words_decoded = []) then 1%float
  else if decide (words_original = [] ∨ words_decoded = []) then 0%float
  else Difflib.ratio words_original words_decoded.

(** The token set score (Jaccard similarity). *)
Definition token_set_level (words_original words_decoded : list str)
    : float :=
  if decide (words_original ≠ [] ∨ words_decoded ≠ []) then
    let union : gset str :=
      list_to_set words_original ∪ list_to_set words_decoded in
    if decide (union ≠ ∅) then
      let intersection : gset str :=
        list_to_set words_original ∩ list_to_set words_decoded in
      int_truediv (size intersection) (size union)
    else 1%float
  else 1%float.

Definition compute_detailed_score (original decoded : str)
    (ignore_case collapse_whitespace : bool) (method : str)
    (name source_label : str) : res ScoreResult :=
  let original_norm := normalize ignore_case collapse_whitespace original in
  let decoded_norm := normalize ignore_case collapse_whitespace decoded in
  let char_score := Difflib.ratio original_norm decoded_norm in
  let words_original := findall original_norm in
  let words_decoded := findall decoded_norm in
  let word_score := word_level words_original words_decoded in
  let token_set_score := token_set_level words_original words_decoded in
  let method_lower := str_lower method in
  final_score ←
    (if decide (method_lower = lit "char") then Ok char_score
     else if decide (method_lower = lit "word") then Ok word_score
     else if decide (method_lower = lit "token_set") then Ok token_set_score
     else if decide (method_lower = lit "hybrid") then
       Ok ((char_score + word_score + token_set_score) / 3)%float
     else
       Raise (ValueError (lit "Unsupported scoring method: " ++ method)));
  Ok {| model_name := name;
        source_label := source_label;
        method := method_lower;
        score := final_score;
        char_score := char_score;
        word_score := word_score;
        token_set_score := token_set_score |}.

(** [_log_decoding_score]: the directory of the file is created and the
    path made absolute outside this model. *)
Definition _log_decoding_score (result : ScoreResult) (results_file : str)
    (fs : FileSystem) : FileSystem :=
  let header :=
    [ lit "# Decoding Evaluations" ++ newline;
      newline;
      lit "| Model | Source | Method | Score | Char | Word | Token |"
        ++ newline;
      lit "|-------|--------|--------|-------|------|------|-------|"
        ++ newline ] in
  let row := to_markdown_row result ++ newline in
  match fs !! results_file with
  | None => <[results_file := header ++ [row]]> fs
  | Some lines =>
      let insertion_index :=
        fst <$> list_find (fun line => startswith (lit "- ") line = true)
                          lines in
      let lines :=
        match insertion_index with
        | None => lines ++ [row]
        | Some idx => take idx lines ++ row :: drop idx lines
        end in
      <[results_file := lines]> fs
  end.

(** [score_decoded_text]: the result or the exception, and the files as
    the call leaves them.  [name=None] is [None]. *)
Definition score_decoded_text (original decoded : str)
    (ignore_case collapse_whitespace : bool) (method : str)
    (name : option str) (source_label results_file : str)
    (fs : FileSystem) : res float * FileSystem :=
  let truthy := bool_decide (name ≠ None ∧ name ≠ Some []) in
  match compute_detailed_score original decoded ignore_case
          collapse_whitespace method
          (if truthy then default [] name else lit "unnamed")
          source_label with
  | Raise e => (Raise e, fs)
  | Ok result =>
      let fs := if truthy
                then _log_decoding_score result results_file fs else fs in
      (Ok (score result), fs)
  end.
End Scoring.

(** ** word_salat.py

    The single-file module repeats [_attempt_shuffle], [scramble_word],
    [_scramble_segments] and [scramble_text] of [core.py] statement for
    statement (with the literal [8] for [MAX_SHUFFLE_ATTEMPTS]), so the
    definitions above are theirs too.  Its scorer is written differently and
    is embedded here. *)

Module WordSalat.
Section Scoring.
Context `{StrBuiltins}.

Definition _log_decoding_score (model_name source_label method : str)
    (score : float) (results_file : str) (fs : FileSystem) : FileSystem :=
  let header :=
    [ lit "# Decoding Evaluations" ++ newline;
      newline;
      lit "| Model             | Source Text | Method      | Score  | Notes |"
        ++ newline;
      lit "|-------------------|-------------|-------------|--------|-------|"
        ++ newline ] in
  let row :=
    lit "| " ++ model_name ++ lit " | `" ++ source_label ++ lit "` | `"
      ++ method ++ lit "` | " ++ format_4f score
      ++ lit " | Auto-logged via score_decoded_text. |" ++ newline in
  match fs !! results_file with
  | None => <[results_file := header ++ [row]]> fs
  | Some lines =>
      let insertion_index :=
        fst <$> list_find (fun line => startswith (lit "- ") line = true)
                          lines in
      let lines :=
        match insertion_index with
        | None => lines ++ [row]
        | Some idx => take idx lines ++ row :: drop idx lines
        end in
      <[results_file := lines]> fs
  end.

(** [sum(components)]: the additions start from the integer [0]. *)
Definition sum_floats (components : list float) : float :=
  foldl PrimFloat.add 0%float components.

Definition score_decoded_text (original decoded : str)
    (ignore_case collapse_whitespace : bool) (method : str)
    (name : option str) (source_label results_file : str)
    (fs : FileSystem) : res float * FileSystem :=
  let original_norm := normalize ignore_case collapse_whitespace original in
  let decoded_norm := normalize ignore_case collapse_whitespace decoded in
  let char_ratio := Difflib.ratio original_norm decoded_norm in
  let words_original := findall original_norm in
  let words_decoded := findall decoded_norm in
  let word_ratio : option float :=
    if decide (words_original = [] ∧ words_decoded = []) then Some 1%float
    else if decide (words_original = [] ∨ words_decoded = [])
    then Some 0%float
    else Some (Difflib.ratio words_original words_decoded) in
  let token_set_ratio :=
    if decide (words_original ≠ [] ∨ words_decoded ≠ []) then
      let union : gset str :=
        list_to_set words_original ∪ list_to_set words_decoded in
      if decide (union ≠ ∅) then
        let intersection : gset str :=
          list_to_set words_original ∩ list_to_set words_decoded in
        int_truediv (size intersection) (size union)
      else 1%float
    else 1%float in
  let method_normalized := str_lower method in
  let outcome : res float :=
    if decide (method_normalized = lit "char") then Ok char_ratio
    else if decide (method_normalized = lit "word") then
      Ok (default char_ratio word_ratio)
    else if decide (method_normalized = lit "token_set") then
      Ok token_set_ratio
    else if decide (method_normalized = lit "hybrid") then
      let components := [char_ratio] in
      let components :=
        match word_ratio with
        | Some w => components ++ [w]
        | None => components
        end in
      let components := components ++ [token_set_ratio] in
      Ok (sum_floats components
            / Difflib.float_of_int (length components))%float
    else Raise (ValueError (lit "Unsupported scoring method: " ++ method))
  in
  match outcome with
  | Raise e => (Raise e, fs)
  | Ok score =>
      let fs :=
        if bool_decide (name ≠ None ∧ name ≠ Some [])
        then _log_decoding_score (default [] name) source_label
               method_normalized score results_file fs
        else fs in
      (Ok score, fs)
  end.
End Scoring.
End WordSalat.

(** ** Instances to run the definitions *)


Module AsciiText.
(** [str.split] and [str.lower] as they act on ASCII text: whitespace is
    tab, line feed, vertical tab, form feed, carriage return, the four
    separators U+001C to U+001F and space; [A-Z] lowers to [a-z]. *)
#[global] Instance builtins : StrBuiltins := {
  str_isspace c :=
    ((9 <=? c) && (c <=? 13) || (28 <=? c) && (c <=? 32))%N;
  str_lower s := ascii_lower <$> s
}.

End AsciiText.

(** ** Vocabulary of the statements

    The predicates and measures that the properties below are stated and
    proved with. *)

Section Attempts.
Context `{RandomSource Rng}.

(** The generator after [k] shuffles of [subset]. *)
Fixpoint rng_after (k : nat) (subset : list char) (rng : Rng) : Rng :=
  match k with
  | 0 => rng
  | S k' =>
      match shuffle subset rng with
      | Ok (_, rng') => rng_after k' subset rng'
      | Raise _ => rng
      end
  end.

(** The candidate that attempt number [k] (from 0) builds. *)
Definition candidate_at (chars : list char) (indices : list nat)
    (subset : list char) (rng : Rng) (k : nat) : res (list char) :=
  '(randomized, _) ← shuffle subset (rng_after k subset rng);
  store_items chars (zip indices randomized).
End Attempts.

(** A string of letters of WORD_PATTERN. *)
Definition word_chars (w : str) : Prop :=
  Forall (fun c => is_word_char c = true) w.

(** The spans come in order, lie inside the text and hold letters only. *)
Fixpoint spans_ok (text : str) (last_index : nat) (spans : list (nat * nat))
    : Prop :=
  match spans with
  | [] => last_index ≤ length text
  | (start, end_) :: spans' =>
      last_index ≤ start /\ start ≤ end_ /\ end_ ≤ length text /\
      word_chars (slice text start end_) /\
      spans_ok text end_ spans'
  end.

(** What a position of the output owes to the same position of the input:
    a letter stands where a letter stood, anything else is the very same
    character. *)
Definition same_shape (c' c : char) : Prop :=
  is_word_char c' = is_word_char c /\ (is_word_char c = false -> c' = c).

(** The final score as the branch on the lowered method picks it. *)
Definition final_by (m : str) (c w t : float) : float :=
  if decide (m = lit "char") then c
  else if decide (m = lit "word") then w
  else if decide (m = lit "token_set") then t
  else ((c + w + t) / 3)%float.

(** [m] spells [name] with some of its lower-case letters in upper case. *)
Definition casing_of (m name : str) : Prop :=
  Forall2 (fun c d => c = d \/ ((97 <= d <= 122)%N /\ c = (d - 32)%N)) m name.

(** A float of the specification that carries no minus sign. *)
Definition sf_nonneg (x : spec_float) : Prop :=
  match x with
  | S754_zero s | S754_infinity s | S754_finite s _ _ => s = false
  | S754_nan => True
  end.

(** The number of binary digits of a mantissa. *)
Definition digits (p : positive) : Z := Z.pos (digits2_pos p).

Abbreviation rec := Build_shr_record.

(** The second half of [binary_round_aux]. *)
Definition finish (m1 e : Z) : spec_float :=
  let '(mrs'', e'') := shr_fexp prec emax m1 e loc_Exact in
  match shr_m mrs'' with
  | Z0 => S754_zero false
  | Zpos m =>
      if (e'' <=? emax - prec)%Z then S754_finite false m e''
      else S754_infinity false
  | _ => S754_nan
  end.

(** The best block of a scan lies in the rows from [alo] to [i]. *)
Definition best_within (alo i : nat) (best : nat * nat * nat) : Prop :=
  let '(besti, _, bestsize) := best in alo ≤ besti /\ besti + bestsize ≤ i.

Definition j2len_within (bound : nat) (j2len : gmap nat nat) : Prop :=
  forall j v, j2len !! j = Some v -> v ≤ bound.

(** The rounds that a queue can still take. *)
Definition queue_weight (queue : list (nat * nat * nat * nat)) : nat :=
  sum_list ((fun '(alo, ahi, _, _) => 2 * (ahi - alo) + 1) <$> queue).

Definition queue_ok (queue : list (nat * nat * nat * nat)) : Prop :=
  Forall (fun '(alo, ahi, _, _) => alo ≤ ahi) queue.

Section Matching.
Context `{Countable A}.

(** What [b2j] holds before the popular elements are purged. *)
Definition raw_b2j (b : list A) : gmap A (list nat) :=
  foldl (fun (b2j : gmap A (list nat)) '(i, elt) =>
           <[elt := default [] (b2j !! elt) ++ [i]]> b2j)
        ∅ (imap pair b).

(** The positions that row [i] of the scan visits. *)
Definition row_positions (a : list A) (b2j : gmap A (list nat)) (i : nat)
    : list nat :=
  default [] (a !! i ≫= fun x => b2j !! x).

(** An element that the purge has left in [b2j]. *)
Definition live (a : list A) (b2j : gmap A (list nat)) (j : nat) : Prop :=
  row_positions a b2j j ≠ [].

(** The number of consecutive live elements of [a] that end at [j], when
    [a] is matched against itself. *)
Fixpoint run (a : list A) (j : nat) : nat :=
  match j with
  | 0 => if decide (row_positions a (Difflib.chain_b a) 0 = []) then 0 else 1
  | S j' =>
      if decide (row_positions a (Difflib.chain_b a) (S j') = []) then 0
      else S (run a j')
  end.

(** The same, one position earlier. *)
Definition run_before (a : list A) (j : nat) : nat :=
  match j with
  | 0 => 0
  | S j' => run a j'
  end.

(** What the scan knows about the row it has just left, seen from row [i]:
    the entry before the diagonal is exact, and no entry exceeds the run of
    its column or of the diagonal. *)
Definition row_ok (a : list A) (i : nat) (j2len : gmap nat nat) : Prop :=
  Difflib.j2len_before j2len i = run_before a i /\
  forall j, Difflib.j2len_before j2len j ≤ run_before a j /\
            Difflib.j2len_before j2len j ≤ run_before a i.

Definition best_ok (a : list A) (i : nat) (best : nat * nat * nat) : Prop :=
  let '(besti, bestj, bestsize) := best in
  besti = bestj /\ besti + bestsize ≤ i /\
  forall j, j < i -> run a j ≤ bestsize.
End Matching.

(** The position [i] of [text] holds a letter of WORD_PATTERN. *)
Definition letter_at (text : str) (i : nat) : Prop :=
  exists c, text !! i = Some c /\ is_word_char c = true.

(** [text[start:end_]] is a maximal run of letters. *)
Definition maximal_run (text : str) (start end_ : nat) : Prop :=
  start < end_ /\
  (forall i, start ≤ i < end_ -> letter_at text i) /\
  ¬ letter_at text end_ /\
  (start = 0 \/ ¬ letter_at text (start - 1)).

(** How [scramble_word] relates a word to its image. *)
Definition rearranged (w' w : str) : Prop :=
  w' ≡ₚ w /\ forall j, j ∉ shuffle_indices (length w) -> w' !! j = w !! j.

(** What one call of [scramble_text] keeps, word by word. *)
Definition scrambled_in_place (out text : str) : Prop :=
  out ≡ₚ text /\
  finditer out = finditer text /\
  forall start end_, (start, end_) ∈ finditer text ->
    slice out start end_ ≡ₚ slice text start end_ /\
    out !! start = text !! start /\
    out !! (end_ - 1) = text !! (end_ - 1) /\
    ((end_ - start) mod 2 = 1 ->
       out !! (start + (end_ - start) / 2)
       = text !! (start + (end_ - start) / 2)).

(** A field of [str.split()]: not empty, and free of whitespace. *)
Definition is_field `{StrBuiltins} (field : str) : Prop :=
  field ≠ [] /\ Forall (fun c => str_isspace c = false) field.

(** The best block of a scan lies in the columns from [blo] to [bhi]. *)
Definition best_within_b (blo bhi : nat) (best : nat * nat * nat) : Prop :=
  let '(_, bestj, bestsize) := best in
  blo ≤ bestj /\ bestj + bestsize ≤ bhi.

(** A run that ends at column [j] starts at [blo] at the earliest. *)
Definition j2len_within_b (blo bhi : nat) (j2len : gmap nat nat) : Prop :=
  forall j v, j2len !! j = Some v -> blo ≤ j /\ j < bhi /\ v ≤ j + 1 - blo.

Definition queue_ok_b (queue : list (nat * nat * nat * nat)) : Prop :=
  Forall (fun '(_, _, blo, bhi) => blo ≤ bhi) queue.

(** The total size of a list of blocks. *)
Definition block_sizes (blocks : list (nat * nat * nat)) : nat :=
  sum_list ((fun t => t.2) <$> blocks).

(** What is left of [a], and of [b], in the windows of the queue. *)
Definition queue_span_a (queue : list (nat * nat * nat * nat)) : nat :=
  sum_list ((fun '(alo, ahi, _, _) => ahi - alo) <$> queue).

Definition queue_span_b (queue : list (nat * nat * nat * nat)) : nat :=
  sum_list ((fun '(_, _, blo, bhi) => bhi - blo) <$> queue).

(** The order of two floats with mantissas of 53 bits. *)
Definition canon_le (mx : positive) (ex : Z) (my : positive) (ey : Z)
    : Prop :=
  (ex < ey \/ (ex = ey /\ Z.pos mx <= Z.pos my))%Z.

(** A float of the specification that is zero, or has a mantissa of 53
    bits, an exponent from [lo] on, and is not above the float of mantissa
    [B] and exponent [eB]. *)
Definition sf_below (lo : Z) (B : positive) (eB : Z) (x : spec_float)
    : Prop :=
  x = S754_zero false \/
  exists m e, x = S754_finite false m e /\ digits m = 53%Z /\
    (lo <= e)%Z /\ canon_le m e B eB.

(** Not above [1.0]. *)
Abbreviation sf_unit lo := (sf_below lo 4503599627370496 (-52)).

(** An ASCII digit. *)
Definition is_digit (c : char) : Prop := (48 <= c <= 57)%N.

(** A number as the results table shows a score: [0] or [1], a point and
    four digits. *)
Definition fixed_4f (s : str) : Prop :=
  exists d0 d1 d2 d3 d4,
    s = [d0; 46%N; d1; d2; d3; d4] /\ (d0 = 48%N \/ d0 = 49%N) /\
    Forall is_digit [d1; d2; d3; d4].

(** The decimal numeral of [n] has one to four digits. *)
Definition short_numeral (n : N) : bool :=
  let s := decimal n in
  (1 <=? length s) && (length s <=? 4)
    && forallb (fun c => (48 <=? c) && (c <=? 57))%N s.

(** The strict order of two floats with mantissas of 53 bits. *)
Definition canon_lt (mx : positive) (ex : Z) (my : positive) (ey : Z)
    : Prop :=
  (ex < ey \/ (ex = ey /\ Z.pos mx < Z.pos my))%Z.

(** The [k] elements from [i] in [a] are the [k] elements from [j] in [b]. *)
Definition block_matches {A} (a b : list A) (i j k : nat) : Prop :=
  forall t, t < k -> a !! (i + t) = b !! (j + t).

(** Every index that [b2j] lists for an element holds that element. *)
Definition b2j_sound `{Countable A} (b : list A) (b2j : gmap A (list nat))
    : Prop :=
  forall x js j, b2j !! x = Some js -> j ∈ js -> b !! j = Some x.

(** The runs recorded in [j2len] end just before row [i] of [a]. *)
Definition j2len_runs {A} (a b : list A) (i : nat) (j2len : gmap nat nat)
    : Prop :=
  forall j v, j2len !! j = Some v ->
    v ≤ i /\ v ≤ j + 1 /\ forall t, t < v -> a !! (i - 1 - t) = b !! (j - t).

(** The windows of the queue lie on the diagonal. *)
Definition queue_diagonal (queue : list (nat * nat * nat * nat)) : Prop :=
  Forall (fun '(alo, ahi, blo, bhi) => alo = blo /\ ahi = bhi /\ alo ≤ ahi)
    queue.

(** What is left to match in the windows of the queue. *)
Definition queue_room (queue : list (nat * nat * nat * nat)) : nat :=
  sum_list ((fun '(alo, ahi, blo, bhi) => (ahi - alo) `min` (bhi - blo))
              <$> queue).

(** [a] and [b] agree at every position of the windows of the queue. *)
Definition queue_agrees {A} (a b : list A)
    (queue : list (nat * nat * nat * nat)) : Prop :=
  Forall (fun '(alo, ahi, _, _) =>
            forall p, alo ≤ p -> p < ahi -> a !! p = b !! p) queue.

(* ================================================================== *)
(** * Properties *)

(** [AsciiText] lowers ASCII text as [str.lower] does. *)
Lemma AsciiText_lower_on_ascii : @str_lower_on_ascii AsciiText.builtins.
Proof. by intros s _. Qed.

(** ** Generic facts on the error monad and on list stores *)

Lemma bind_Ok {A B} (m : res A) (f : A -> res B) (b : B) :
  m ≫= f = Ok b -> exists a, m = Ok a /\ f a = Ok b.
Proof. destruct m as [a|e]; [eauto | discriminate]. Qed.

Lemma getitem_Ok {A} (l : list A) i x : getitem l i = Ok x <-> l !! i = Some x.
Proof. unfold getitem. destruct (l !! i); split; congruence. Qed.

Lemma getitem_lt {A} (l : list A) i :
  i < length l -> exists x, getitem l i = Ok x /\ l !! i = Some x.
Proof.
  intros Hi. destruct (lookup_lt_is_Some_2 l i Hi) as [x Hx].
  exists x. split; [by apply getitem_Ok | done].
Qed.

Lemma setitem_lt {A} (l : list A) i v :
  i < length l -> setitem l i v = Ok (<[i:=v]> l).
Proof. intros Hi. unfold setitem. by rewrite decide_True. Qed.

Lemma setitem_Ok {A} (l l' : list A) i v :
  setitem l i v = Ok l' -> i < length l /\ l' = <[i:=v]> l.
Proof. unfold setitem. case_decide; [|discriminate]. by intros [= <-]. Qed.

(** Storing [v] over [x] trades one for the other in the multiset. *)
Lemma insert_trade {A} (l : list A) i x v :
  l !! i = Some x -> x :: <[i:=v]> l ≡ₚ v :: l.
Proof.
  revert i. induction l as [|y l IH]; intros [|i] Hi; simplify_eq/=.
  - apply Permutation_swap.
  - rewrite Permutation_swap. rewrite (IH _ Hi). apply Permutation_swap.
Qed.

(** ** The shuffle of the standard library permutes *)

Section ShuffleFacts.
Context `{RandomSource Rng}.
Hypothesis Hrange : randbelow_in_range.

Lemma swap_items_Ok {A} (x : list A) i j :
  i < length x -> j < length x ->
  exists x', swap_items x i j = Ok x' /\ x' ≡ₚ x.
Proof.
  intros Hi Hj. unfold swap_items.
  destruct (getitem_lt x j Hj) as (xj & -> & Hxj).
  destruct (getitem_lt x i Hi) as (xi & -> & Hxi). cbn.
  rewrite setitem_lt by done. cbn.
  rewrite setitem_lt by (by rewrite length_insert).
  eexists; split; [done|]. by apply Permutation_insert_swap.
Qed.

Lemma shuffle_from_Ok {A} i (x : list A) rng :
  i < length x \/ i = 0 ->
  exists x' rng', shuffle_from i x rng = Ok (x', rng') /\ x' ≡ₚ x.
Proof.
  revert x rng. induction i as [|i IH]; intros x rng Hi; cbn.
  - by exists x, rng.
  - destruct Hi as [Hi|?]; [|done].
    pose proof (Hrange (S (S i)) rng ltac:(lia)) as Hj.
    destruct (randbelow (S (S i)) rng) as [j rng1]; cbn in Hj.
    destruct (swap_items_Ok x (S i) j) as (x1 & -> & Hp1); [lia..|]. cbn.
    destruct (IH x1 rng1) as (x2 & rng2 & -> & Hp2).
    { left. rewrite (Permutation_length Hp1). lia. }
    exists x2, rng2. split; [done|]. by rewrite Hp2.
Qed.

Lemma shuffle_Ok {A} (x : list A) rng :
  exists x' rng', shuffle x rng = Ok (x', rng') /\ x' ≡ₚ x.
Proof. apply shuffle_from_Ok. destruct x; cbn; [by right | left; lia]. Qed.
End ShuffleFacts.

(** ** The generator of CPython keeps the contract of [_randbelow] *)

Lemma randbelow_loop_lt draws n k r self :
  (0 < n)%Z -> ((MersenneTwister.randbelow_loop draws n k r self).1 < n)%Z.
Proof.
  intros Hn. revert r self. induction draws as [|draws IH]; intros r self; cbn.
  - by apply Z.mod_pos_bound.
  - case_decide; [|cbn; lia].
    destruct (MersenneTwister.getrandbits k self) as [r' self']. apply IH.
Qed.

Lemma MersenneTwister_in_range :
  randbelow_in_range (Rng := MersenneTwister.state).
Proof.
  intros n s Hn. cbn. unfold MersenneTwister._randbelow.
  destruct (MersenneTwister.getrandbits _ s) as [r self].
  pose proof (randbelow_loop_lt 1000 (Z.of_nat n)
                (if decide (Z.of_nat n = 0%Z) then 0%Z
                 else (Z.log2 (Z.of_nat n) + 1)%Z) r self ltac:(lia)) as Hlt.
  destruct (MersenneTwister.randbelow_loop _ _ _ r self) as [r' self'].
  cbn in *. lia.
Qed.

(** ** Reading and storing at the mutable indices *)

Lemma getitems_Ok (chars : list char) indices subset :
  getitems chars indices = Ok subset <->
  Forall2 (fun i c => chars !! i = Some c) indices subset.
Proof.
  revert subset. induction indices as [|i indices IH]; intros subset; cbn.
  - split; [intros [= <-]; constructor | by inversion 1].
  - split.
    + intros (c & Hc & Hr)%bind_Ok. apply bind_Ok in Hr as (cs & Hcs & [= <-]).
      constructor; [by apply getitem_Ok | by apply IH].
    + inversion 1 as [|? c ? cs Hc Hcs]; subst.
      apply getitem_Ok in Hc as ->. cbn. apply IH in Hcs as ->. done.
Qed.

Lemma getitems_in_range (chars : list char) indices :
  Forall (fun i => i < length chars) indices ->
  exists subset, getitems chars indices = Ok subset.
Proof.
  induction 1 as [|i indices Hi _ (cs & IH)]; cbn; [by eexists|].
  destruct (getitem_lt chars i Hi) as (c & -> & _). cbn. rewrite IH. by eexists.
Qed.

Lemma getitems_Ok_in_range (chars : list char) indices subset :
  getitems chars indices = Ok subset ->
  Forall (fun i => i < length chars) indices /\ length subset = length indices.
Proof.
  intros HF%getitems_Ok. split.
  - induction HF; constructor; [by eapply lookup_lt_Some | done].
  - symmetry. by eapply Forall2_length.
Qed.

(** Stores at distinct indices in range: nothing else changes, and the
    values written replace the values read there. *)
Lemma store_items_spec (l : list char) indices olds vals :
  NoDup indices ->
  Forall2 (fun i c => l !! i = Some c) indices olds ->
  length vals = length indices ->
  exists l', store_items l (zip indices vals) = Ok l' /\
    length l' = length l /\
    (forall k, k ∉ indices -> l' !! k = l !! k) /\
    l' ++ olds ≡ₚ l ++ vals.
Proof.
  intros Hnd HF. revert l olds vals HF.
  induction Hnd as [|i indices Hi Hnd IH]; intros l olds vals HF Hlen.
  - inversion HF; subst. destruct vals; [|done]. by exists l.
  - inversion HF as [|? x ? olds' Hx HF']; subst.
    destruct vals as [|v vals]; [done|]. cbn in Hlen. cbn.
    rewrite setitem_lt by (by eapply lookup_lt_Some). cbn.
    destruct (IH (<[i:=v]> l) olds' vals) as (l' & Hst & Hl & Hout & Hperm);
      [|lia|].
    { clear -Hi HF'. induction HF' as [|j c js cs Hc _ IHF]; constructor.
      - rewrite list_lookup_insert_ne; [done|]. set_solver.
      - apply IHF. set_solver. }
    exists l'. split; [done|]. split; [by rewrite Hl, length_insert|].
    split.
    + intros k Hk. rewrite Hout by set_solver.
      apply list_lookup_insert_ne. set_solver.
    + rewrite <-Permutation_middle, <-(Permutation_middle l).
      rewrite Hperm, !app_comm_cons. by rewrite (insert_trade l i x v Hx).
Qed.

(** Stores at indices in range never raise. *)
Lemma store_items_in_range (l : list char) (pairs : list (nat * char)) :
  Forall (fun p => p.1 < length l) pairs ->
  exists l', store_items l pairs = Ok l' /\ length l' = length l.
Proof.
  revert l. induction pairs as [|[i v] pairs IH]; intros l HF; cbn.
  - by exists l.
  - inversion HF as [|? ? Hi HF']; subst. cbn in Hi.
    rewrite setitem_lt by done. cbn.
    destruct (IH (<[i:=v]> l)) as (l' & -> & Hl).
    { by rewrite length_insert. }
    exists l'. by rewrite Hl, length_insert.
Qed.

Lemma size_list_to_set_le_1 (subset : list char) :
  size (list_to_set subset : gset char) ≤ 1 <->
  (forall c c', c ∈ subset -> c' ∈ subset -> c = c').
Proof.
  split.
  - intros Hsz c c' Hc Hc'.
    destruct (decide (c = c')) as [|Hne]; [done|].
    assert ({[c; c']} ⊆ (list_to_set subset : gset char)) as Hsub.
    { intros y. rewrite elem_of_union, !elem_of_singleton, elem_of_list_to_set.
      by intros [->| ->]. }
    apply subseteq_size in Hsub.
    rewrite size_union, !size_singleton in Hsub by set_solver. lia.
  - intros Hall. destruct subset as [|c subset].
    + cbn. rewrite size_empty. lia.
    + assert ((list_to_set (c :: subset) : gset char) = {[c]}) as ->.
      { apply set_eq. intros y.
        rewrite elem_of_list_to_set, elem_of_singleton. split.
        - intros Hy. apply Hall; [done | by left].
        - intros ->. by left. }
      rewrite size_singleton. lia.
Qed.

Section AttemptFacts.
Context `{RandomSource Rng}.

Lemma attempt_loop_fallback n chars indices subset rng :
  (forall m, m < n -> candidate_at chars indices subset rng m = Ok chars) ->
  attempt_loop n chars indices subset rng
    = Ok (chars, rng_after n subset rng).
Proof.
  revert rng. induction n as [|n IH]; intros rng Hall; cbn; [done|].
  pose proof (Hall 0 ltac:(lia)) as H0. unfold candidate_at in H0.
  cbn in H0.
  destruct (shuffle subset rng) as [[randomized rng1]|] eqn:E; [|done].
  cbn in *. rewrite H0. cbn. rewrite decide_False by (by intros ?).
  apply IH. intros m Hm. specialize (Hall (S m) ltac:(lia)).
  unfold candidate_at in *. cbn in Hall. by rewrite E in Hall.
Qed.

Lemma attempt_loop_first n k chars indices subset rng c :
  k < n ->
  (forall m, m < k -> candidate_at chars indices subset rng m = Ok chars) ->
  candidate_at chars indices subset rng k = Ok c -> c ≠ chars ->
  attempt_loop n chars indices subset rng
    = Ok (c, rng_after (S k) subset rng).
Proof.
  revert k rng. induction n as [|n IH]; intros k rng Hk Hprev Hc Hne; [lia|].
  destruct k as [|k].
  - unfold candidate_at in Hc. cbn in *.
    destruct (shuffle subset rng) as [[randomized rng1]|] eqn:E; [|done].
    cbn in *. rewrite Hc. cbn. by rewrite decide_True.
  - pose proof (Hprev 0 ltac:(lia)) as H0. unfold candidate_at in H0.
    cbn in H0. cbn.
    destruct (shuffle subset rng) as [[randomized rng1]|] eqn:E; [|done].
    cbn in *. rewrite H0. cbn. rewrite decide_False by (by intros ?).
    apply IH; [lia| | |done].
    + intros m Hm. specialize (Hprev (S m) ltac:(lia)).
      unfold candidate_at in *. cbn in Hprev. by rewrite E in Hprev.
    + unfold candidate_at in *. cbn in Hc. by rewrite E in Hc.
Qed.
End AttemptFacts.

Section AttemptTotal.
Context `{RandomSource Rng}.
Hypothesis Hrange : randbelow_in_range.

(** With [getitems] done, one attempt never raises. *)
Lemma candidate_Ok (chars : list char) indices subset rng :
  getitems chars indices = Ok subset ->
  exists randomized rng' candidate,
    shuffle subset rng = Ok (randomized, rng') /\
    randomized ≡ₚ subset /\
    store_items chars (zip indices randomized) = Ok candidate /\
    length candidate = length chars.
Proof.
  intros [Hin Hlen]%getitems_Ok_in_range.
  destruct (shuffle_Ok Hrange subset rng) as (randomized & rng' & Hs & Hp).
  destruct (store_items_in_range chars (zip indices randomized))
    as (candidate & Hc & Hl).
  { apply Forall_forall. intros [i v] Hiv. cbn.
    apply elem_of_zip_l in Hiv. by eapply (proj1 (Forall_forall _ _) Hin). }
  by exists randomized, rng', candidate.
Qed.

Lemma attempt_loop_total n (chars : list char) indices subset rng :
  getitems chars indices = Ok subset ->
  exists out rng' k,
    attempt_loop n chars indices subset rng = Ok (out, rng') /\
    k ≤ n /\ rng' = rng_after k subset rng /\
    length out = length chars.
Proof.
  intros Hsub. revert rng. induction n as [|n IH]; intros rng; cbn.
  - by exists chars, rng, 0.
  - destruct (candidate_Ok chars indices subset rng Hsub)
      as (randomized & rng1 & candidate & Hs & _ & Hc & Hl).
    rewrite Hs. cbn. rewrite Hc. cbn. case_decide.
    + exists candidate, rng1, 1. cbn. rewrite Hs. repeat split; [lia|done].
    + destruct (IH rng1) as (out & rng' & k & -> & Hk & -> & Hlen).
      exists out, (rng_after k subset rng1), (S k). cbn. rewrite Hs.
      repeat split; [lia|done].
Qed.

(** With distinct indices the result is a rearrangement that leaves every
    other position alone. *)
Lemma attempt_loop_perm n (chars : list char) indices subset rng out rng' :
  NoDup indices ->
  getitems chars indices = Ok subset ->
  attempt_loop n chars indices subset rng = Ok (out, rng') ->
  out ≡ₚ chars /\ (forall j, j ∉ indices -> out !! j = chars !! j).
Proof.
  intros Hnd Hsub. revert rng. induction n as [|n IH]; intros rng; cbn.
  - by intros [= <- <-].
  - destruct (candidate_Ok chars indices subset rng Hsub)
      as (randomized & rng1 & candidate & Hs & Hp & Hc & _).
    rewrite Hs. cbn. rewrite Hc. cbn. case_decide; [|by apply IH].
    intros [= <- <-].
    destruct (store_items_spec chars indices subset randomized Hnd)
      as (l' & Hst & _ & Hout & Hperm).
    { by apply getitems_Ok. }
    { rewrite (Permutation_length Hp).
      by apply getitems_Ok_in_range in Hsub as [_ ?]. }
    rewrite Hc in Hst. injection Hst as <-. split; [|done].
    rewrite Hp in Hperm. by apply Permutation_app_inv_r in Hperm.
Qed.

Lemma _attempt_shuffle_total (chars : list char) indices rng n :
  Forall (fun i => i < length chars) indices ->
  exists out rng', _attempt_shuffle chars indices rng n = Ok (out, rng') /\
    length out = length chars.
Proof.
  intros Hin. unfold _attempt_shuffle. case_decide; [by eexists _, _|].
  destruct (getitems_in_range chars indices Hin) as (subset & Hsub).
  rewrite Hsub. cbn. case_decide; [by eexists _, _|].
  destruct (attempt_loop_total n chars indices subset rng Hsub)
    as (out & rng' & k & -> & _ & _ & Hl).
  by exists out, rng'.
Qed.

Lemma _attempt_shuffle_perm (chars : list char) indices rng n out rng' :
  NoDup indices ->
  _attempt_shuffle chars indices rng n = Ok (out, rng') ->
  out ≡ₚ chars /\ (forall j, j ∉ indices -> out !! j = chars !! j).
Proof.
  intros Hnd. unfold _attempt_shuffle. case_decide; [by intros [= <- <-]|].
  destruct (getitems chars indices) as [subset|] eqn:Hsub; [|done]. cbn.
  case_decide; [by intros [= <- <-]|].
  by apply attempt_loop_perm.
Qed.
End AttemptTotal.

(** ** The mutable index set *)

Lemma list_remove_first_subseteq x l : list_remove_first x l ⊆ l.
Proof.
  induction l as [|y l IH]; cbn; [done|]. case_decide.
  - intros z Hz. by right.
  - intros z [->|Hz]%elem_of_cons; [by left | right; by apply IH].
Qed.

Lemma list_remove_first_NoDup x l :
  NoDup l -> NoDup (list_remove_first x l) /\ x ∉ list_remove_first x l.
Proof.
  induction 1 as [|y l Hy Hnd [IH1 IH2]]; cbn.
  - split; [constructor | by intros ?%elem_of_nil].
  - case_decide as Hxy; [by subst|]. split.
    + constructor; [|done]. intros Hin. apply Hy.
      by apply (list_remove_first_subseteq x l).
    + by intros [->|?]%elem_of_cons.
Qed.

Lemma shuffle_indices_spec n :
  NoDup (shuffle_indices n) /\
  (forall i, i ∈ shuffle_indices n -> 1 ≤ i /\ i + 1 < n) /\
  (n mod 2 = 1 -> n / 2 ∉ shuffle_indices n).
Proof.
  assert (forall i, i ∈ seq 1 (n - 1 - 1) -> 1 ≤ i /\ i + 1 < n) as Hseq.
  { intros i Hi%elem_of_seq. lia. }
  pose proof (NoDup_seq 1 (n - 1 - 1)) as Hnd.
  unfold shuffle_indices. repeat case_decide; try done.
  - destruct (list_remove_first_NoDup (n / 2) _ Hnd) as [? ?].
    split; [done|]. split; [|done].
    intros i Hi%list_remove_first_subseteq. by apply Hseq.
Qed.

Lemma interior_decompose {A} (l : list A) :
  2 ≤ length l ->
  exists x z, l = x :: interior l ++ [z] /\ l !! 0 = Some x /\ last l = Some z.
Proof.
  destruct l as [|x l]; cbn; [lia|]. intros Hl.
  destruct l as [|y l _] using rev_ind; cbn in Hl; [lia|].
  exists x, y. unfold interior, slice. cbn.
  rewrite length_app. cbn. replace (length l + 1 - 0 - 1) with (length l) by lia.
  rewrite drop_0, take_app_length. repeat split.
  by rewrite last_cons, last_snoc.
Qed.

(** ** scramble_word *)

Section ScrambleWord.
Context `{RandomSource Rng}.

(** C5: a word of at most three characters comes back unchanged, whatever
    the state of the generator, which is not advanced either. *)
Theorem scramble_word_short (w : str) (rng : Rng) :
  length w ≤ 3 -> scramble_word w rng = Ok (w, rng).
Proof. intros Hw. unfold scramble_word. by rewrite decide_True. Qed.

(** Every word is rearranged in place: the call returns, the result is a
    permutation of the word, and only the mutable indices can differ. *)
Lemma scramble_word_perm (w : str) (rng : Rng) :
  randbelow_in_range ->
  exists w' rng', scramble_word w rng = Ok (w', rng') /\
    w' ≡ₚ w /\
    (forall j, j ∉ shuffle_indices (length w) -> w' !! j = w !! j).
Proof.
  intros Hrange. unfold scramble_word. case_decide; [by exists w, rng|].
  destruct (shuffle_indices_spec (length w)) as (Hnd & Hin & _).
  destruct (_attempt_shuffle_total Hrange w (shuffle_indices (length w)) rng
              MAX_SHUFFLE_ATTEMPTS) as (out & rng' & Hout & _).
  { apply Forall_forall. intros i Hi%Hin. lia. }
  exists out, rng'. split; [done|].
  by eapply _attempt_shuffle_perm.
Qed.

(** C1: a word of more than three characters keeps its length, its first
    and last characters, its middle character when the length is odd, and
    the multiset of its interior characters [w[1:-1]]. *)
Theorem scramble_word_long (w : str) (rng : Rng) :
  randbelow_in_range -> 3 < length w ->
  exists w' rng', scramble_word w rng = Ok (w', rng') /\
    length w' = length w /\
    w' !! 0 = w !! 0 /\
    last w' = last w /\
    (length w mod 2 = 1 -> w' !! (length w / 2) = w !! (length w / 2)) /\
    interior w' ≡ₚ interior w.
Proof.
  intros Hrange Hlen.
  destruct (scramble_word_perm w rng Hrange) as (w' & rng' & Hw & Hp & Hfix).
  destruct (shuffle_indices_spec (length w)) as (_ & Hin & Hmid).
  exists w', rng'. split; [done|].
  pose proof (Permutation_length Hp) as Hl.
  assert (w' !! 0 = w !! 0) as H0.
  { apply Hfix. intros Hi%Hin. lia. }
  assert (last w' = last w) as Hlast.
  { rewrite !last_lookup, Hl. apply Hfix. intros Hi%Hin. lia. }
  repeat split; [done..| |].
  - intros Hodd. apply Hfix. by apply Hmid.
  - destruct (interior_decompose w) as (x & z & Ew & Ex & Ez); [lia|].
    destruct (interior_decompose w') as (x' & z' & Ew' & Ex' & Ez'); [lia|].
    rewrite Ex, Ex' in H0. injection H0 as ->.
    rewrite Ez, Ez' in Hlast. injection Hlast as ->.
    rewrite Ew, Ew' in Hp.
    apply Permutation_cons_inv in Hp.
    by apply Permutation_app_inv_r in Hp.
Qed.
End ScrambleWord.

(** ** _attempt_shuffle is bounded and total *)

Section AttemptShuffle.
Context `{RandomSource Rng}.

(** C4: on indices in range the call returns; with at most one index, or
    with one and the same character at all of them, it returns the word as
    it is without touching the generator; otherwise it shuffles at most
    eight times, and when the eight candidates all equal the word it
    returns the word. *)
Theorem _attempt_shuffle_bounded (chars : list char) (indices : list nat)
    (rng : Rng) :
  randbelow_in_range ->
  Forall (fun i => i < length chars) indices ->
  exists subset, getitems chars indices = Ok subset /\
    (length indices ≤ 1 ->
       _attempt_shuffle chars indices rng MAX_SHUFFLE_ATTEMPTS
         = Ok (chars, rng)) /\
    ((forall c c', c ∈ subset -> c' ∈ subset -> c = c') ->
       _attempt_shuffle chars indices rng MAX_SHUFFLE_ATTEMPTS
         = Ok (chars, rng)) /\
    (exists out rng' k,
       _attempt_shuffle chars indices rng MAX_SHUFFLE_ATTEMPTS
         = Ok (out, rng') /\
       k ≤ 8 /\ rng' = rng_after k subset rng) /\
    ((forall m, m < 8 ->
        candidate_at chars indices subset rng m = Ok chars) ->
       exists rng',
         _attempt_shuffle chars indices rng MAX_SHUFFLE_ATTEMPTS
           = Ok (chars, rng')).
Proof.
  intros Hrange Hin.
  destruct (getitems_in_range chars indices Hin) as (subset & Hsub).
  exists subset. split; [done|]. unfold _attempt_shuffle. rewrite Hsub.
  cbn [mbind res_bind]. split; [|split; [|split]].
  - intros Hle. by rewrite decide_True.
  - intros Hsame%size_list_to_set_le_1. case_decide; [done|].
    by rewrite decide_True.
  - case_decide; [exists chars, rng, 0; repeat split; lia|].
    case_decide; [exists chars, rng, 0; repeat split; lia|].
    destruct (attempt_loop_total Hrange MAX_SHUFFLE_ATTEMPTS chars indices
                subset rng Hsub) as (out & rng' & k & Hout & Hk & Hr & _).
    by exists out, rng', k.
  - intros Hall. case_decide; [by eexists|]. case_decide; [by eexists|].
    eexists. by apply attempt_loop_fallback.
Qed.
End AttemptShuffle.

(** ** The spans of WORD_PATTERN *)

Lemma slice_snoc {A} (l : list A) lo pos x :
  lo ≤ pos -> l !! pos = Some x -> slice l lo (S pos) = slice l lo pos ++ [x].
Proof.
  intros Hlo Hx. unfold slice. replace (S pos - lo) with (S (pos - lo)) by lia.
  apply take_S_r. rewrite lookup_drop. by replace (lo + (pos - lo)) with pos by lia.
Qed.

Lemma slice_split {A} (l : list A) lo mid :
  lo ≤ mid -> drop lo l = slice l lo mid ++ drop mid l.
Proof.
  intros Hle. unfold slice. rewrite <-(take_drop (mid - lo) (drop lo l)) at 1.
  f_equal. rewrite drop_drop. f_equal. lia.
Qed.

Lemma finditer_from_ok (text rest : str) pos open last_index :
  drop pos text = rest -> pos + length rest = length text ->
  match open with
  | Some start =>
      last_index ≤ start /\ start ≤ pos /\ word_chars (slice text start pos)
  | None => last_index ≤ pos
  end ->
  spans_ok text last_index (finditer_from rest pos open).
Proof.
  revert pos open last_index.
  induction rest as [|c rest IH]; intros pos open last_index Hdrop Hlen Hopen.
  - cbn in *. destruct open as [start|]; cbn; [|lia].
    destruct Hopen as (? & ? & ?). repeat split; [lia..|done|lia].
  - assert (text !! pos = Some c) as Hc.
    { rewrite <-(Nat.add_0_r pos), <-lookup_drop. by rewrite Hdrop. }
    assert (drop (S pos) text = rest) as Hdrop'.
    { replace (S pos) with (pos + 1) by lia. by rewrite <-drop_drop, Hdrop. }
    cbn in Hlen. cbn. destruct (is_word_char c) eqn:Hw.
    + apply IH; [done|lia|]. destruct open as [start|]; cbn.
      * destruct Hopen as (? & ? & Hall). repeat split; [lia..|].
        rewrite (slice_snoc text start pos c) by done.
        apply Forall_app. split; [done|]. by constructor.
      * repeat split; [lia..|].
        rewrite (slice_snoc text pos pos c) by done.
        unfold slice. rewrite Nat.sub_diag, take_0. by constructor.
    + destruct open as [start|]; cbn.
      * destruct Hopen as (? & ? & Hall). repeat split; [lia..|done|].
        apply IH; [done|lia|lia].
      * apply IH; [done|lia|lia].
Qed.

Lemma finditer_ok (text : str) : spans_ok text 0 (finditer text).
Proof. apply finditer_from_ok; [done|done|lia]. Qed.

(** ** scramble_text *)

Lemma same_shape_refl (l : str) : Forall2 same_shape l l.
Proof. apply Forall_Forall2_diag, Forall_forall. by intros c _. Qed.

Lemma same_shape_words (w' w : str) :
  w' ≡ₚ w -> word_chars w -> Forall2 same_shape w' w.
Proof.
  intros Hp Hw. assert (word_chars w') as Hw' by (unfold word_chars; by rewrite Hp).
  apply Forall2_same_length_lookup. split; [by apply Permutation_length|].
  intros i c' c Hc' Hc.
  pose proof (proj1 (Forall_lookup _ _) Hw _ _ Hc) as E.
  pose proof (proj1 (Forall_lookup _ _) Hw' _ _ Hc') as E'. cbn in E, E'.
  split; congruence.
Qed.

Lemma same_shape_filter (l' l : str) :
  Forall2 same_shape l' l ->
  filter (fun c => is_word_char c = false) l'
    = filter (fun c => is_word_char c = false) l.
Proof.
  induction 1 as [|c' c l' l [Hcls Hsame] _ IH]; [done|].
  rewrite !filter_cons. destruct (is_word_char c) eqn:Hc.
  - rewrite !decide_False by congruence. done.
  - rewrite (Hsame eq_refl), Hc, !decide_True by done. by f_equal.
Qed.

Section ScrambleText.
Context `{RandomSource Rng}.

Lemma segments_from_shape (text : str) spans last_index (rng : Rng) :
  randbelow_in_range -> spans_ok text last_index spans ->
  exists segments rng',
    segments_from text spans last_index rng = Ok (segments, rng') /\
    Forall2 same_shape (concat segments) (drop last_index text).
Proof.
  intros Hrange. revert last_index rng.
  induction spans as [|[start end_] spans IH]; intros last_index rng Hok.
  - cbn in *. eexists _, _. split; [done|]. case_decide; cbn.
    + rewrite app_nil_r. apply same_shape_refl.
    + rewrite drop_ge by lia. constructor.
  - destruct Hok as (Hls & Hse & Hel & Hw & Hok). cbn.
    destruct (scramble_word_perm (slice text start end_) rng Hrange)
      as (w' & rng1 & -> & Hp & _). cbn.
    destruct (IH end_ rng1 Hok) as (rest & rng2 & -> & Hrest). cbn.
    eexists _, _. split; [done|].
    rewrite concat_app, concat_cons.
    rewrite (slice_split text last_index start Hls).
    rewrite (slice_split text start end_ Hse).
    apply Forall2_app; [|apply Forall2_app; [by apply same_shape_words|done]].
    case_decide; cbn.
    + rewrite app_nil_r. apply same_shape_refl.
    + replace start with last_index by lia.
      unfold slice. rewrite Nat.sub_diag, take_0. constructor.
Qed.

(** C2: the scrambled text has the length of the input, and every
    character that is not a letter of the word pattern stands in the
    output exactly where it stands in the input (hence in the same number
    and order); letters stand where letters stood. *)
Theorem scramble_text_preserves (text : str) (seed : option Z)
    (entropy : Rng) :
  randbelow_in_range ->
  exists out, scramble_text text seed entropy = Ok out /\
    length out = length text /\
    (forall i c, is_word_char c = false ->
       out !! i = Some c <-> text !! i = Some c) /\
    filter (fun c => is_word_char c = false) out
      = filter (fun c => is_word_char c = false) text.
Proof.
  intros Hrange. unfold scramble_text, _scramble_segments.
  destruct (segments_from_shape text (finditer text) 0
              (Random seed entropy) Hrange (finditer_ok text))
    as (segments & rng' & -> & Hshape). cbn.
  rewrite drop_0 in Hshape.
  exists (concat segments). split; [done|].
  split; [by eapply Forall2_length|]. split; [|by apply same_shape_filter].
  intros i c Hc. apply Forall2_same_length_lookup in Hshape as [Hlen Hall].
  split; intros Hi.
  - destruct (lookup_lt_is_Some_2 text i) as [d Hd].
    { rewrite <-Hlen. by eapply lookup_lt_Some. }
    destruct (Hall i c d Hi Hd) as [Hcls Hsame].
    rewrite Hd. f_equal. symmetry. apply Hsame. congruence.
  - destruct (lookup_lt_is_Some_2 (concat segments) i) as [d Hd].
    { rewrite Hlen. by eapply lookup_lt_Some. }
    destruct (Hall i d c Hd Hi) as [_ Hsame].
    rewrite Hd. f_equal. by apply Hsame.
Qed.

(** C3: with a seed given, the scrambled text is a function of the text
    and the seed alone: two runs both return a string, and the same one,
    whatever the operating system would have supplied to an unseeded
    generator in either run. *)
Theorem scramble_text_deterministic (text : str) (S : Z)
    (entropy1 entropy2 : Rng) :
  randbelow_in_range ->
  exists out,
    scramble_text text (Some S) entropy1 = Ok out /\
    scramble_text text (Some S) entropy2 = Ok out.
Proof.
  intros Hrange. unfold scramble_text, _scramble_segments.
  destruct (segments_from_shape text (finditer text) 0
              (Random (Some S) entropy1) Hrange (finditer_ok text))
    as (segments & rng' & Hsegments & _).
  exists (concat segments). split.
  - by rewrite Hsegments.
  - change (Random (Some S) entropy2) with (Random (Some S) entropy1).
    by rewrite Hsegments.
Qed.
End ScrambleText.


(** ** Signs of the scores

    [sum] starts from the integer [0], and [0 + x] is [x] for every float
    but the negative zero; no score is a negative zero. *)

Lemma binary_round_aux_nonneg m e l :
  sf_nonneg (binary_round_aux prec emax false m e l).
Proof.
  unfold binary_round_aux.
  destruct (shr_fexp prec emax m e l) as [mrs' e'].
  destruct (shr_fexp prec emax _ e' loc_Exact) as [mrs'' e''].
  destruct (shr_m mrs''); [done| |done].
  by destruct (e'' <=? emax - prec)%Z.
Qed.

Lemma Prim2SF_float_of_int n :
  Prim2SF (Difflib.float_of_int n)
    = binary_normalize prec emax (Uint63.to_Z (Uint63.of_Z (Z.of_nat n))) 0 false.
Proof. apply of_uint63_spec. Qed.

Lemma float_of_int_nonneg n : sf_nonneg (Prim2SF (Difflib.float_of_int n)).
Proof.
  rewrite Prim2SF_float_of_int.
  pose proof (Uint63.to_Z_bounded (Uint63.of_Z (Z.of_nat n))) as [Hz _].
  destruct (Uint63.to_Z _) as [|p|p]; [done| |lia].
  unfold binary_normalize, binary_round.
  destruct (shl_align _ _ _). apply binary_round_aux_nonneg.
Qed.

Lemma SF64mul_nonneg x y :
  sf_nonneg x -> sf_nonneg y -> sf_nonneg (SF64mul x y).
Proof.
  destruct x, y; cbn; intros; subst; try done.
  apply binary_round_aux_nonneg.
Qed.

Lemma SF64div_nonneg x y :
  sf_nonneg x -> sf_nonneg y -> sf_nonneg (SF64div x y).
Proof.
  destruct x, y; cbn -[SFdiv_core_binary]; intros; subst; try done.
  destruct (SFdiv_core_binary _ _ _ _ _ _) as [[mz ez] lz].
  apply binary_round_aux_nonneg.
Qed.

Lemma ratio_nonneg `{Countable A} (a b : list A) :
  sf_nonneg (Prim2SF (Difflib.ratio a b)).
Proof.
  unfold Difflib.ratio, Difflib._calculate_ratio. case_decide; [|done].
  rewrite FloatAxioms.div_spec, FloatAxioms.mul_spec.
  apply SF64div_nonneg; [apply SF64mul_nonneg; [done|]|];
    apply float_of_int_nonneg.
Qed.

Lemma add_zero_nonneg (x : float) : sf_nonneg (Prim2SF x) -> (0 + x = x)%float.
Proof.
  intros Hx. apply Prim2SF_inj. rewrite FloatAxioms.add_spec.
  change (Prim2SF 0) with (S754_zero false).
  destruct (Prim2SF x) as [s|s| |s m e]; cbn in *; by subst.
Qed.

(** ** The scorer: selection of the final score *)

Lemma ScoringMethod_cases (m : str) :
  m ∈ ScoringMethod ->
  m = lit "char" \/ m = lit "word" \/ m = lit "token_set" \/ m = lit "hybrid".
Proof.
  unfold ScoringMethod. rewrite !elem_of_cons, elem_of_nil. tauto.
Qed.

Section ScoringFacts.
Context `{StrBuiltins}.

Lemma str_lower_ScoringMethod (m : str) :
  str_lower_on_ascii -> m ∈ ScoringMethod -> str_lower m = m.
Proof.
  intros Hlow Hm.
  destruct (ScoringMethod_cases m Hm) as [->|[->|[->| ->]]];
    (rewrite Hlow; [reflexivity | by repeat constructor]).
Qed.

(** The word score of [word_salat.py] is the one of [scoring.py], and it
    is never [None]. *)
Lemma word_ratio_Some (wo wd : list str) :
  (if decide (wo = [] ∧ wd = []) then Some 1%float
   else if decide (wo = [] ∨ wd = []) then Some 0%float
   else Some (Difflib.ratio wo wd))
  = Some (word_level wo wd).
Proof. unfold word_level. by repeat case_decide. Qed.

Lemma word_level_nonneg (wo wd : list str) :
  sf_nonneg (Prim2SF (word_level wo wd)).
Proof.
  unfold word_level. repeat case_decide; [done..|]. apply ratio_nonneg.
Qed.

(** The sum over the three components that [word_salat.py] divides by
    their number is the sum that [scoring.py] divides by [3]. *)
Lemma sum_three (c w t : float) :
  sf_nonneg (Prim2SF c) ->
  (WordSalat.sum_floats [c; w; t] / Difflib.float_of_int 3
   = (c + w + t) / 3)%float.
Proof.
  intros Hc. unfold WordSalat.sum_floats. cbn [foldl].
  by rewrite (add_zero_nonneg c Hc).
Qed.
End ScoringFacts.

Section ScorerShape.
Context `{StrBuiltins}.
Variables (original decoded : str) (ignore_case collapse_whitespace : bool).

Local Abbreviation original_norm :=
  (normalize ignore_case collapse_whitespace original).
Local Abbreviation decoded_norm :=
  (normalize ignore_case collapse_whitespace decoded).
Local Abbreviation c := (Difflib.ratio original_norm decoded_norm).
Local Abbreviation w :=
  (word_level (findall original_norm) (findall decoded_norm)).
Local Abbreviation t :=
  (token_set_level (findall original_norm) (findall decoded_norm)).

Lemma compute_detailed_score_Ok (m name label : str) :
  str_lower m ∈ ScoringMethod ->
  compute_detailed_score original decoded ignore_case collapse_whitespace
    m name label
  = Ok {| model_name := name; source_label := label;
          method := str_lower m;
          score := final_by (str_lower m) c w t;
          char_score := c; word_score := w; token_set_score := t |}.
Proof.
  intros Hm. unfold compute_detailed_score, final_by.
  destruct (ScoringMethod_cases _ Hm) as [->|[->|[->| ->]]];
    repeat (case_decide; [try done|]); done.
Qed.

Lemma compute_detailed_score_Raise (m name label : str) :
  str_lower m ∉ ScoringMethod ->
  compute_detailed_score original decoded ignore_case collapse_whitespace
    m name label
  = Raise (ValueError (lit "Unsupported scoring method: " ++ m)).
Proof.
  intros Hm. unfold compute_detailed_score.
  repeat case_decide; try done;
    exfalso; apply Hm; unfold ScoringMethod; rewrite !elem_of_cons; tauto.
Qed.

Lemma WordSalat_score_decoded_text_Ok (m : str) (name : option str)
    (label results_file : str) (fs : FileSystem) :
  str_lower m ∈ ScoringMethod ->
  WordSalat.score_decoded_text original decoded ignore_case
    collapse_whitespace m name label results_file fs
  = (Ok (final_by (str_lower m) c w t),
     if bool_decide (name ≠ None ∧ name ≠ Some [])
     then WordSalat._log_decoding_score (default [] name) label
            (str_lower m) (final_by (str_lower m) c w t) results_file fs
     else fs).
Proof.
  intros Hm. unfold WordSalat.score_decoded_text.
  rewrite word_ratio_Some.
  change (if decide (findall original_norm ≠ [] ∨ findall decoded_norm ≠ [])
          then _ else _) with t.
  cbn [default app length].
  rewrite (sum_three c w t (ratio_nonneg _ _)).
  unfold final_by.
  destruct (ScoringMethod_cases _ Hm) as [E|[E|[E|E]]]; rewrite E;
    by repeat (case_decide; [try done|]).
Qed.

Lemma WordSalat_score_decoded_text_Raise (m : str) (name : option str)
    (label results_file : str) (fs : FileSystem) :
  str_lower m ∉ ScoringMethod ->
  WordSalat.score_decoded_text original decoded ignore_case
    collapse_whitespace m name label results_file fs
  = (Raise (ValueError (lit "Unsupported scoring method: " ++ m)), fs).
Proof.
  intros Hm. unfold WordSalat.score_decoded_text.
  repeat case_decide; try done;
    exfalso; apply Hm; unfold ScoringMethod; rewrite !elem_of_cons; tauto.
Qed.
End ScorerShape.

Section ScorerClaims.
Context `{StrBuiltins}.
Variables (original decoded : str) (ignore_case collapse_whitespace : bool).

Local Abbreviation original_norm :=
  (normalize ignore_case collapse_whitespace original).
Local Abbreviation decoded_norm :=
  (normalize ignore_case collapse_whitespace decoded).
Local Abbreviation words_original := (findall original_norm).
Local Abbreviation words_decoded := (findall decoded_norm).
Local Abbreviation c := (Difflib.ratio original_norm decoded_norm).
Local Abbreviation w := (word_level words_original words_decoded).
Local Abbreviation t := (token_set_level words_original words_decoded).

Lemma score_decoded_text_Ok (m : str) (name : option str)
    (label results_file : str) (fs : FileSystem) :
  str_lower m ∈ ScoringMethod ->
  fst (score_decoded_text original decoded ignore_case collapse_whitespace
         m name label results_file fs)
  = Ok (final_by (str_lower m) c w t).
Proof.
  intros Hm. unfold score_decoded_text.
  by rewrite compute_detailed_score_Ok.
Qed.

(** C6: for each of the four methods the call returns, the three component
    scores are the char, word and token-set metrics of the normalized
    texts, and the final score is the char score for [char], the word
    score for [word], the token-set score for [token_set], and the sum of
    the three divided by 3 for [hybrid]; [score_decoded_text] returns that
    final score, in [scoring.py] and in [word_salat.py]. *)
Theorem final_score_by_method (m name label : str) (log_name : option str)
    (results_file : str) (fs : FileSystem) :
  str_lower_on_ascii -> m ∈ ScoringMethod ->
  exists r,
    compute_detailed_score original decoded ignore_case collapse_whitespace
      m name label = Ok r /\
    char_score r = Difflib.ratio original_norm decoded_norm /\
    word_score r = word_level words_original words_decoded /\
    token_set_score r = token_set_level words_original words_decoded /\
    (m = lit "char" -> score r = char_score r) /\
    (m = lit "word" -> score r = word_score r) /\
    (m = lit "token_set" -> score r = token_set_score r) /\
    (m = lit "hybrid" ->
       score r
       = ((char_score r + word_score r + token_set_score r) / 3)%float) /\
    fst (score_decoded_text original decoded ignore_case
           collapse_whitespace m log_name label results_file fs)
      = Ok (score r) /\
    fst (WordSalat.score_decoded_text original decoded ignore_case
           collapse_whitespace m log_name label results_file fs)
      = Ok (score r).
Proof.
  intros Hlow Hm.
  pose proof (str_lower_ScoringMethod m Hlow Hm) as El.
  assert (str_lower m ∈ ScoringMethod) as Hm' by (by rewrite El).
  eexists. split; [by apply compute_detailed_score_Ok|]. cbn.
  rewrite score_decoded_text_Ok, WordSalat_score_decoded_text_Ok by done.
  rewrite El. repeat split; try done; intros ->; reflexivity.
Qed.

(** The amended C7: a method whose lowered spelling is none of the four
    makes [compute_detailed_score] and both [score_decoded_text] raise
    [ValueError]; nothing is returned and the files are left as they
    were. *)
Theorem unknown_method_raises (m name label : str) (log_name : option str)
    (results_file : str) (fs : FileSystem) :
  str_lower m ∉ ScoringMethod ->
  let error := ValueError (lit "Unsupported scoring method: " ++ m) in
  compute_detailed_score original decoded ignore_case collapse_whitespace
    m name label = Raise error /\
  score_decoded_text original decoded ignore_case collapse_whitespace
    m log_name label results_file fs = (Raise error, fs) /\
  WordSalat.score_decoded_text original decoded ignore_case
    collapse_whitespace m log_name label results_file fs
    = (Raise error, fs).
Proof.
  intros Hm error. split; [by apply compute_detailed_score_Raise|].
  split; [|by apply WordSalat_score_decoded_text_Raise].
  unfold score_decoded_text. by rewrite compute_detailed_score_Raise.
Qed.

(** C9: whenever a result comes back its word score is 1.0 if both word
    lists are empty, 0.0 if exactly one is, and the ratio of the matcher
    on the two word lists otherwise; a result does come back for every
    method whose lowered spelling is one of the four, and with [word]
    this is the score returned, in [scoring.py] and in [word_salat.py]. *)
Theorem word_score_edge_cases (m name label : str) (log_name : option str)
    (results_file : str) (fs : FileSystem) :
  str_lower m ∈ ScoringMethod ->
  exists r,
    compute_detailed_score original decoded ignore_case collapse_whitespace
      m name label = Ok r /\
    (words_original = [] /\ words_decoded = [] -> word_score r = 1%float) /\
    ((words_original = [] /\ words_decoded ≠ []) \/
     (words_original ≠ [] /\ words_decoded = []) ->
       word_score r = 0%float) /\
    (words_original ≠ [] /\ words_decoded ≠ [] ->
       word_score r = Difflib.ratio words_original words_decoded) /\
    (str_lower m = lit "word" ->
       fst (score_decoded_text original decoded ignore_case
              collapse_whitespace m log_name label results_file fs)
         = Ok (word_score r) /\
       fst (WordSalat.score_decoded_text original decoded ignore_case
              collapse_whitespace m log_name label results_file fs)
         = Ok (word_score r)).
Proof.
  intros Hm.
  eexists. split; [by apply compute_detailed_score_Ok|]. cbn.
  unfold word_level. split; [|split; [|split; [|intros Hw; split]]].
  - intros [-> ->]. by rewrite decide_True.
  - intros [[-> Hd]|[Ho ->]].
    + rewrite decide_False by (by intros [_ ?]).
      by rewrite decide_True by (by left).
    + rewrite decide_False by (by intros [? _]).
      by rewrite decide_True by (by right).
  - intros [Ho Hd]. rewrite decide_False by (by intros [? _]).
    by rewrite decide_False by (by intros [?|?]).
  - rewrite score_decoded_text_Ok by done. by rewrite Hw.
  - rewrite WordSalat_score_decoded_text_Ok by done. by rewrite Hw.
Qed.
End ScorerClaims.

(** ** The method is matched whatever its case *)

Lemma casing_of_lower (m name : str) :
  Forall (fun d => (d < 128)%N /\ ascii_lower d = d) name ->
  casing_of m name ->
  Forall (fun c => (c < 128)%N) m /\ ascii_lower <$> m = name.
Proof.
  intros Hname Hcase. induction Hcase as [|c d m name Hcd _ IH]; [done|].
  inversion Hname as [|? ? [Hd Hld] Hname']; subst.
  destruct (IH Hname') as [IH1 IH2].
  assert ((c < 128)%N /\ ascii_lower c = d) as [Hc Hlc].
  { destruct Hcd as [->|[Hr ->]]; [done|]. split; [lia|].
    unfold ascii_lower.
    replace ((65 <=? d - 32) && (d - 32 <=? 90))%N with true; [lia|].
    symmetry. apply andb_true_iff. split; apply N.leb_le; lia. }
  split; [by constructor|]. cbn. by rewrite Hlc, IH2.
Qed.

Lemma ScoringMethod_lower_ascii (name : str) :
  name ∈ ScoringMethod ->
  Forall (fun d => (d < 128)%N /\ ascii_lower d = d) name.
Proof.
  intros Hn. destruct (ScoringMethod_cases name Hn) as [->|[->|[->| ->]]];
    by repeat constructor.
Qed.

Section MethodCase.
Context `{StrBuiltins}.

(** C10: a method that spells one of the four names in another case is
    accepted like the name itself: the same [ScoreResult] comes back, its
    [method] field holds the lower-case name, and both
    [score_decoded_text] return the same score and leave the same files. *)
Theorem method_case_insensitive (original decoded : str)
    (ignore_case collapse_whitespace : bool) (m method_name name label : str)
    (log_name : option str) (results_file : str) (fs : FileSystem) :
  str_lower_on_ascii -> method_name ∈ ScoringMethod ->
  casing_of m method_name ->
  exists r,
    compute_detailed_score original decoded ignore_case collapse_whitespace
      m name label = Ok r /\
    compute_detailed_score original decoded ignore_case collapse_whitespace
      method_name name label = Ok r /\
    method r = method_name /\
    score_decoded_text original decoded ignore_case collapse_whitespace
      m log_name label results_file fs
    = score_decoded_text original decoded ignore_case collapse_whitespace
        method_name log_name label results_file fs /\
    WordSalat.score_decoded_text original decoded ignore_case
      collapse_whitespace m log_name label results_file fs
    = WordSalat.score_decoded_text original decoded ignore_case
        collapse_whitespace method_name log_name label results_file fs.
Proof.
  intros Hlow Hname Hcase.
  destruct (casing_of_lower m method_name
              (ScoringMethod_lower_ascii _ Hname) Hcase) as [Hascii Hmap].
  assert (str_lower m = method_name) as Em by (by rewrite Hlow).
  pose proof (str_lower_ScoringMethod method_name Hlow Hname) as En.
  assert (str_lower m ∈ ScoringMethod) as Hm by (by rewrite Em).
  assert (str_lower method_name ∈ ScoringMethod) as Hn by (by rewrite En).
  eexists. split; [by apply compute_detailed_score_Ok|].
  rewrite (compute_detailed_score_Ok _ _ _ _ method_name) by done.
  rewrite !WordSalat_score_decoded_text_Ok by done.
  unfold score_decoded_text. rewrite !compute_detailed_score_Ok by done.
  by rewrite Em, En.
Qed.
End MethodCase.

(** ** Exact quotients

    The quotients that make a score [1.0]: [n / n] and [2.0 * n / (n + n)]
    for an integer [n] between [1] and [2^62], computed in binary64 as the
    specification of the primitive floats has it. *)

Section ExactQuotients.
Local Open Scope Z_scope.

(** [iter_pos] of the float specification is plain iteration. *)
Lemma iter_pos_nat {A} (f : A -> A) (p : positive) (x : A) :
  SpecFloat.iter_pos f p x = Nat.iter (Pos.to_nat p) f x.
Proof.
  transitivity (Pos.iter f x p); [|apply Pos2Nat.inj_iter]. revert x.
  induction p as [p IH|p IH|]; intros x; cbn [SpecFloat.iter_pos Pos.iter].
  - by rewrite !IH, !Pos.iter_swap.
  - by rewrite !IH.
  - done.
Qed.

Lemma digits_pos p : 1 <= digits p.
Proof. unfold digits. lia. Qed.

Lemma digits_xO p : digits p~0 = digits p + 1.
Proof. unfold digits. cbn. lia. Qed.

Lemma digits_xI p : digits p~1 = digits p + 1.
Proof. unfold digits. cbn. lia. Qed.

Lemma digits_bound p : 2 ^ (digits p - 1) <= Z.pos p < 2 ^ digits p.
Proof.
  induction p as [p IH|p IH|].
  - rewrite digits_xI. replace (digits p + 1 - 1) with (digits p - 1 + 1)
      by lia.
    pose proof (digits_pos p).
    rewrite !Z.pow_add_r by lia. lia.
  - rewrite digits_xO. replace (digits p + 1 - 1) with (digits p - 1 + 1)
      by lia.
    pose proof (digits_pos p).
    rewrite !Z.pow_add_r by lia. lia.
  - change (1 <= 1 < 2). lia.
Qed.

Lemma digits_succ p :
  digits (Pos.succ p) = digits p \/
  (digits (Pos.succ p) = digits p + 1).
Proof.
  induction p as [p IH|p IH|].
  - change (Pos.succ p~1) with (xO (Pos.succ p)).
    rewrite digits_xO, digits_xI. lia.
  - change (Pos.succ p~0) with (xI p). rewrite digits_xO, digits_xI. lia.
  - right. reflexivity.
Qed.

Lemma digits_iter_xO p k : digits (Pos.iter xO p k) = digits p + Z.pos k.
Proof.
  rewrite <-(positive_nat_Z k).
  replace (Pos.iter xO p k) with (Nat.iter (Pos.to_nat k) xO p)
    by (symmetry; apply Pos2Nat.inj_iter).
  induction (Pos.to_nat k) as [|n IH]; simpl Nat.iter; [lia|].
  rewrite digits_xO, IH. lia.
Qed.

(** Shifting out fewer bits than the mantissa has leaves a positive
    mantissa, with as many bits less. *)
Lemma shr_1_digits q r s :
  2 <= digits q ->
  exists q' r' s', shr_1 (rec (Z.pos q) r s) = rec (Z.pos q') r' s' /\
    digits q' = digits q - 1.
Proof.
  destruct q as [q|q|]; cbn [shr_1]; intros Hq.
  - eexists _, _, _. split; [done|]. rewrite digits_xI. lia.
  - eexists _, _, _. split; [done|]. rewrite digits_xO. lia.
  - unfold digits in Hq. cbn in Hq. lia.
Qed.

Lemma shr_iter_digits (n : nat) q r s :
  Z.of_nat n < digits q ->
  exists q' r' s', Nat.iter n shr_1 (rec (Z.pos q) r s) = rec (Z.pos q') r' s' /\
    digits q' = digits q - Z.of_nat n.
Proof.
  induction n as [|n IH]; intros Hn; simpl Nat.iter.
  - eexists _, _, _. split; [done|]. lia.
  - destruct IH as (q1 & r1 & s1 & -> & Hq1); [lia|].
    destruct (shr_1_digits q1 r1 s1) as (q2 & r2 & s2 & -> & Hq2); [lia|].
    eexists _, _, _. split; [done|]. lia.
Qed.

Lemma fexp_value x : fexp prec emax x = Z.max (x - 53) (-1074).
Proof. reflexivity. Qed.

Lemma binary_round_aux_finish mx ex lx :
  binary_round_aux prec emax false mx ex lx
  = let '(mrs', e') := shr_fexp prec emax mx ex lx in
    finish (round_nearest_even (shr_m mrs') (loc_of_shr_record mrs')) e'.
Proof. reflexivity. Qed.

Lemma finish_53 q e :
  digits q = 53 -> -1000 <= e <= 900 ->
  finish (Z.pos q) e = S754_finite false q e.
Proof.
  intros Hq He. unfold finish, shr_fexp, shr. cbn [Zdigits2].
  fold (digits q). rewrite fexp_value, Hq.
  replace (Z.max (53 + e - 53) (-1074) - e) with 0 by lia.
  cbn [shr_record_of_loc shr_m].
  replace (e <=? emax - prec) with true; [done|].
  symmetry. apply Z.leb_le. change (emax - prec) with 971. lia.
Qed.

Lemma finish_54 q e :
  digits q = 54 -> -1000 <= e <= 900 ->
  exists m, digits m = 53 /\
    forall e, -1000 <= e <= 900 -> finish (Z.pos q) e = S754_finite false m (e + 1).
Proof.
  intros Hq He.
  destruct (shr_1_digits q false false) as (m & r & s & Hm & Hdm); [lia|].
  exists m. split; [lia|]. clear e He. intros e He.
  unfold finish, shr_fexp, shr. cbn [Zdigits2].
  fold (digits q). rewrite fexp_value, Hq.
  replace (Z.max (54 + e - 53) (-1074) - e) with 1 by lia.
  cbn [shr_record_of_loc SpecFloat.iter_pos]. rewrite Hm. cbn [shr_m].
  replace (e + 1 <=? emax - prec) with true; [done|].
  symmetry. apply Z.leb_le. change (emax - prec) with 971. lia.
Qed.

Lemma finish_shape q :
  53 <= digits q <= 54 ->
  exists m delta, digits m = 53 /\ 0 <= delta <= 1 /\
    forall e, -1000 <= e <= 900 ->
      finish (Z.pos q) e = S754_finite false m (e + delta).
Proof.
  intros Hq. destruct (Z.eq_dec (digits q) 53) as [E|E].
  - exists q, 0. split; [done|]. split; [lia|]. intros e He.
    rewrite Z.add_0_r. by apply finish_53.
  - destruct (finish_54 q 0) as (m & Hm & Hfin); [lia..|].
    exists m, 1. split; [done|]. split; [lia|]. done.
Qed.

Lemma round_nearest_even_pos q l :
  exists q1, round_nearest_even (Z.pos q) l = Z.pos q1 /\
    (digits q1 = digits q \/ digits q1 = digits q + 1).
Proof.
  assert (Z.pos q + 1 = Z.pos (Pos.succ q)) as E by lia.
  unfold round_nearest_even.
  destruct l as [|[| |]]; [by eauto| |by eauto|];
    try destruct (Z.even _); rewrite ?E; eauto using digits_succ.
Qed.

Lemma shr_fexp_long P K :
  digits P = 53 + Z.pos K ->
  shr_fexp prec emax (Z.pos P) 0 loc_Exact
  = (SpecFloat.iter_pos shr_1 K (rec (Z.pos P) false false), Z.pos K).
Proof.
  intros HP. unfold shr_fexp, shr. cbn [Zdigits2]. fold (digits P).
  rewrite fexp_value, HP.
  replace (Z.max (53 + Z.pos K + 0 - 53) (-1074) - 0) with (Z.pos K) by lia.
  done.
Qed.

Lemma iter_shr_double P K :
  SpecFloat.iter_pos shr_1 (K + 1) (rec (Z.pos P~0) false false)
  = SpecFloat.iter_pos shr_1 K (rec (Z.pos P) false false).
Proof.
  rewrite !iter_pos_nat, Pos2Nat.inj_add. cbn [Pos.to_nat Pos.iter_op].
  rewrite Nat.add_1_r. by rewrite Nat.iter_succ_r.
Qed.

(** A mantissa of more than 53 bits at exponent [0]. *)
Lemma binary_round_aux_long P K :
  digits P = 53 + Z.pos K -> Z.pos K <= 100 ->
  exists m e, digits m = 53 /\ Z.pos K <= e <= Z.pos K + 1 /\
    binary_round_aux prec emax false (Z.pos P) 0 loc_Exact
      = S754_finite false m e /\
    binary_round_aux prec emax false (Z.pos P~0) 0 loc_Exact
      = S754_finite false m (e + 1).
Proof.
  intros HP HK. rewrite !binary_round_aux_finish.
  rewrite (shr_fexp_long P K HP).
  rewrite (shr_fexp_long P~0 (K + 1)) by (rewrite digits_xO; lia).
  rewrite iter_shr_double, iter_pos_nat.
  destruct (shr_iter_digits (Pos.to_nat K) P false false)
    as (q & r & s & -> & Hq); [lia|]. cbn [shr_m].
  destruct (round_nearest_even_pos q (loc_of_shr_record (rec (Z.pos q) r s)))
    as (q1 & -> & Hq1).
  destruct (finish_shape q1) as (m & delta & Hm & Hd & Hfin); [lia|].
  exists m, (Z.pos K + delta). split; [done|]. split; [lia|].
  rewrite !Hfin by lia. split; [done|]. f_equal. lia.
Qed.

(** A mantissa of exactly 53 bits at a small exponent. *)
Lemma binary_round_aux_canonical m e :
  digits m = 53 -> -1000 <= e <= 900 ->
  binary_round_aux prec emax false (Z.pos m) e loc_Exact
  = S754_finite false m e.
Proof.
  intros Hm He. rewrite binary_round_aux_finish.
  unfold shr_fexp, shr. cbn [Zdigits2]. fold (digits m).
  rewrite fexp_value, Hm.
  replace (Z.max (53 + e - 53) (-1074) - e) with 0 by lia.
  cbn [shr_record_of_loc shr_m loc_of_shr_record round_nearest_even].
  by apply finish_53.
Qed.

(** The float of a positive integer below [2^62], and of its double. *)
Lemma binary_round_shape p :
  Z.pos p < 2 ^ 62 ->
  exists m e, digits m = 53 /\ -52 <= e <= 11 /\
    binary_round prec emax false p 0 = S754_finite false m e /\
    binary_round prec emax false p~0 0 = S754_finite false m (e + 1).
Proof.
  intros Hp. pose proof (digits_bound p) as [Hlo _]. pose proof (digits_pos p).
  assert (digits p <= 62) as Hd.
  { destruct (Z_le_gt_dec (digits p) 62) as [|Hgt]; [done|].
    assert (2 ^ 62 <= 2 ^ (digits p - 1)) by (apply Z.pow_le_mono_r; lia).
    lia. }
  unfold binary_round. fold (digits p). fold (digits p~0).
  rewrite digits_xO, !fexp_value.
  replace (Z.max (digits p + 0 - 53) (-1074)) with (digits p - 53) by lia.
  replace (Z.max (digits p + 1 + 0 - 53) (-1074)) with (digits p - 52) by lia.
  unfold shl_align.
  destruct (Z.compare_spec (digits p) 53) as [E|E|E].
  - (* 53 bits *)
    rewrite E. change (53 - 53 - 0) with 0. change (53 - 52 - 0) with 1.
    cbv beta iota.
    exists p, 0. split; [done|]. split; [lia|].
    split; [by apply binary_round_aux_canonical|].
    rewrite binary_round_aux_finish, (shr_fexp_long p~0 1)
      by (rewrite digits_xO; lia).
    cbn [SpecFloat.iter_pos shr_1 orb shr_m loc_of_shr_record
         round_nearest_even].
    by apply finish_53.
  - (* fewer bits: the mantissa is aligned to the left *)
    destruct (digits p - 53 - 0) as [|k|k] eqn:Ek; [lia..|].
    assert (digits (Pos.iter xO p k) = 53) as Hmz
      by (rewrite digits_iter_xO; lia).
    exists (Pos.iter xO p k), (digits p - 53). split; [done|]. split; [lia|].
    split; [apply binary_round_aux_canonical; [done|lia]|].
    destruct (digits p - 52 - 0) as [|k'|k'] eqn:Ek'; [|lia|].
    + assert (k = 1%positive) as -> by lia. cbn [Pos.iter].
      replace (digits p - 53 + 1) with 0 by lia.
      apply binary_round_aux_canonical; [|lia]. rewrite digits_xO. lia.
    + assert (k = Pos.succ k') as -> by lia.
      rewrite Pos.iter_succ_r in Hmz |- *.
      replace (digits p - 53 + 1) with (digits p - 52) by lia.
      apply binary_round_aux_canonical; [done|lia].
  - (* more bits: the mantissa is rounded *)
    destruct (digits p - 53 - 0) as [|k|k] eqn:Ek; [lia| |lia].
    destruct (digits p - 52 - 0) as [|k'|k'] eqn:Ek'; [lia| |lia].
    destruct (binary_round_aux_long p k) as (m & e & Hm & He & H1 & H2);
      [lia..|].
    exists m, e. split; [done|]. split; [lia|]. done.
Qed.

(** Twice a float of 53 bits. *)
Lemma SF64mul_two m e :
  digits m = 53 -> -1000 <= e < 900 ->
  SF64mul (S754_finite false 4503599627370496 (-51)) (S754_finite false m e)
  = S754_finite false m (e + 1).
Proof.
  intros Hm He. unfold SF64mul, SFmul. cbn [xorb].
  change (4503599627370496 * m)%positive with (Pos.iter xO m 52).
  rewrite binary_round_aux_finish.
  unfold shr_fexp, shr. cbn [Zdigits2]. fold (digits (Pos.iter xO m 52)).
  rewrite fexp_value, digits_iter_xO, Hm.
  replace (Z.max (53 + 52 + (-51 + e) - 53) (-1074) - (-51 + e)) with 52 by lia.
  change (SpecFloat.iter_pos shr_1 52 _) with (rec (Z.pos m) false false).
  cbn [shr_m loc_of_shr_record round_nearest_even].
  replace (-51 + e + 52) with (e + 1) by lia.
  apply finish_53; [done|lia].
Qed.

(** A finite float divided by itself is [1.0]. *)
Lemma SF64div_self s m e :
  SF64div (S754_finite s m e) (S754_finite s m e)
  = S754_finite false 4503599627370496 (-52).
Proof.
  unfold SF64div, SFdiv, SFdiv_core_binary.
  replace (Zdigits2 (Z.pos m) + e - (Zdigits2 (Z.pos m) + e)) with 0 by lia.
  replace (e - e) with 0 by lia.
  change (Z.min (fexp prec emax 0) 0) with (-53).
  change (0 - -53) with 53.
  rewrite Z.shiftl_mul_pow2 by lia.
  destruct (Z.div_eucl (Z.pos m * 2 ^ 53) (Z.pos m)) as [q r] eqn:E.
  assert (q = 2 ^ 53 /\ r = 0) as [-> ->].
  { pose proof (Z.div_eucl_eq (Z.pos m * 2 ^ 53) (Z.pos m) ltac:(lia)) as Heq.
    pose proof (Z.mod_pos_bound (Z.pos m * 2 ^ 53) (Z.pos m) ltac:(lia)) as Hb.
    unfold Z.modulo in Hb. rewrite E in Heq, Hb.
    assert (Z.pos m * (2 ^ 53 - q) = r) as Hr by lia.
    assert (2 ^ 53 - q = 0) by nia. lia. }
  assert (new_location (Z.pos m) 0 = loc_Exact) as ->.
  { unfold new_location, new_location_even, new_location_odd.
    by destruct (Z.even (Z.pos m)). }
  by destruct s.
Qed.

Lemma binary_normalize_float_of_int (n : nat) :
  Z.of_nat n < 2 ^ 63 ->
  Prim2SF (Difflib.float_of_int n)
  = binary_normalize prec emax (Z.of_nat n) 0 false.
Proof.
  intros Hn. rewrite Prim2SF_float_of_int, Uint63.of_Z_spec.
  rewrite Z.mod_small; [done|]. change wB with (2 ^ 63). lia.
Qed.

Lemma float_of_int_shape (n : nat) :
  (0 < n)%nat -> Z.of_nat n < 2 ^ 62 ->
  exists m e, digits m = 53 /\ -52 <= e <= 11 /\
    Prim2SF (Difflib.float_of_int n) = S754_finite false m e /\
    Prim2SF (Difflib.float_of_int (n + n)) = S754_finite false m (e + 1).
Proof.
  intros Hpos Hn.
  rewrite !binary_normalize_float_of_int by lia.
  replace (Z.of_nat (n + n)) with (2 * Z.of_nat n) by lia.
  destruct (Z.of_nat n) as [|p|p] eqn:Ep; [lia| |lia].
  by apply binary_round_shape.
Qed.

Lemma float_div_self (n : nat) :
  (0 < n)%nat -> Z.of_nat n < 2 ^ 62 ->
  (Difflib.float_of_int n / Difflib.float_of_int n = 1)%float.
Proof.
  intros Hpos Hn. apply Prim2SF_inj. rewrite FloatAxioms.div_spec.
  destruct (float_of_int_shape n Hpos Hn) as (m & e & _ & _ & -> & _).
  apply SF64div_self.
Qed.

Lemma float_ratio_full (n : nat) :
  (0 < n)%nat -> Z.of_nat n < 2 ^ 62 ->
  (2 * Difflib.float_of_int n / Difflib.float_of_int (n + n) = 1)%float.
Proof.
  intros Hpos Hn. apply Prim2SF_inj.
  rewrite FloatAxioms.div_spec, FloatAxioms.mul_spec.
  destruct (float_of_int_shape n Hpos Hn) as (m & e & Hm & He & -> & ->).
  change (Prim2SF 2) with (S754_finite false 4503599627370496 (-51)).
  rewrite SF64mul_two by (done || lia).
  apply SF64div_self.
Qed.
End ExactQuotients.

(** ** The rounds of get_matching_blocks

    The queue loop of [get_matching_blocks] is run for [2 * len(a) + 1]
    rounds; that many always empty the queue. *)

Import Difflib.

Section Rounds.
Context `{Countable A}.
Variables (a b : list A) (b2j : gmap A (list nat)).

Lemma flm_row_within (js : list nat) (alo i blo bhi : nat)
    (j2len newj2len : gmap nat nat) (best : nat * nat * nat) :
  alo ≤ i -> j2len_within (i - alo) j2len ->
  j2len_within (S i - alo) newj2len -> best_within alo (S i) best ->
  let '(new', best') := flm_row js i blo bhi j2len newj2len best in
  j2len_within (S i - alo) new' /\ best_within alo (S i) best'.
Proof.
  intros Hi Hprev. revert newj2len best.
  induction js as [|j js IH]; intros newj2len best Hnew Hbest; cbn.
  - done.
  - case_decide; [by apply IH|]. case_decide; [done|].
    assert (j2len_before j2len j + 1 ≤ S i - alo) as Hk.
    { unfold j2len_before. destruct j as [|j]; [lia|].
      destruct (j2len !! j) as [v|] eqn:E; cbn; [|lia].
      specialize (Hprev j v E). lia. }
    destruct best as [[besti bestj] bestsize].
    apply IH.
    + intros j' v. destruct (decide (j = j')) as [->|].
      * rewrite lookup_insert_eq. intros [= <-]. lia.
      * rewrite lookup_insert_ne by done. apply Hnew.
    + case_decide; [|done]. cbn. lia.
Qed.

Lemma flm_scan_within (alo ahi blo bhi : nat) :
  alo ≤ ahi -> best_within alo ahi (flm_scan a b2j alo ahi blo bhi).
Proof.
  intros Hle. unfold flm_scan.
  set (step := fun '(j2len, best) i =>
                 let js := default [] (a !! i ≫= fun x => b2j !! x) in
                 flm_row js i blo bhi j2len ∅ best).
  assert (forall count i (state : gmap nat nat * (nat * nat * nat)),
            alo ≤ i -> j2len_within (i - alo) state.1 ->
            best_within alo i state.2 ->
            best_within alo (i + count) (foldl step state (seq i count)).2)
    as Hrows.
  { induction count as [|count IH]; intros i [j2len best] Hi Hj Hb.
    - cbn. by rewrite Nat.add_0_r.
    - cbn [seq foldl].
      change (step (j2len, best) i)
        with (flm_row (default [] (a !! i ≫= fun x => b2j !! x))
                i blo bhi j2len ∅ best).
      pose proof (flm_row_within (default [] (a !! i ≫= fun x => b2j !! x))
                    alo i blo bhi j2len ∅ best Hi Hj) as Hrow.
      destruct (flm_row _ i blo bhi j2len ∅ best) as [new' best'].
      destruct Hrow as [Hj' Hb'].
      { intros j v. by rewrite lookup_empty. }
      { destruct best as [[besti bestj] bestsize]. cbn in *. lia. }
      replace (i + S count) with (S i + count) by lia.
      apply IH; [lia|done|done]. }
  replace ahi with (alo + (ahi - alo)) at 1 by lia.
  apply Hrows; [lia| |cbn; lia].
  intros j v. cbn. by rewrite lookup_empty.
Qed.

Lemma extend_down_within (alo blo besti bestj bestsize : nat) :
  alo ≤ besti ->
  let '(besti', _, bestsize') :=
    extend_down a b alo blo besti bestj bestsize in
  alo ≤ besti' /\ besti' + bestsize' = besti + bestsize.
Proof.
  revert bestj bestsize.
  induction besti as [|besti IH]; intros bestj bestsize Hle; cbn.
  - destruct bestj; lia.
  - destruct bestj as [|bestj]; [lia|]. case_decide as Hc; [|lia].
    specialize (IH bestj (bestsize + 1) ltac:(lia)).
    destruct (extend_down a b alo blo besti bestj (bestsize + 1))
      as [[besti' bestj'] bestsize']. lia.
Qed.

Lemma extend_up_within (room ahi bhi besti bestj bestsize : nat) :
  besti + bestsize ≤ ahi ->
  let '(besti', _, bestsize') :=
    extend_up room a b ahi bhi besti bestj bestsize in
  besti' = besti /\ besti + bestsize' ≤ ahi.
Proof.
  revert bestsize. induction room as [|room IH]; intros bestsize Hle; cbn.
  - done.
  - case_decide as Hc; [|done]. apply IH. lia.
Qed.

(** The block found lies inside the part of [a] that was searched. *)
Lemma find_longest_match_within (alo ahi blo bhi : nat) :
  alo ≤ ahi ->
  let '(i, _, k) := find_longest_match a b b2j alo ahi blo bhi in
  alo ≤ i /\ i + k ≤ ahi.
Proof.
  intros Hle. unfold find_longest_match.
  pose proof (flm_scan_within alo ahi blo bhi Hle) as Hscan.
  destruct (flm_scan a b2j alo ahi blo bhi) as [[besti bestj] bestsize].
  destruct Hscan as [H1 H2].
  pose proof (extend_down_within alo blo besti bestj bestsize H1) as Hdown.
  destruct (extend_down a b alo blo besti bestj bestsize)
    as [[besti1 bestj1] bestsize1].
  destruct Hdown as [H3 H4].
  pose proof (extend_up_within (ahi - (besti1 + bestsize1)) ahi bhi besti1
                bestj1 bestsize1 ltac:(lia)) as Hup.
  destruct (extend_up _ a b ahi bhi besti1 bestj1 bestsize1)
    as [[besti2 bestj2] bestsize2].
  lia.
Qed.

Lemma queue_weight_cons (alo ahi blo bhi : nat) queue :
  queue_weight ((alo, ahi, blo, bhi) :: queue)
  = 2 * (ahi - alo) + 1 + queue_weight queue.
Proof. reflexivity. Qed.

(** Rounds beyond the weight of the queue change nothing: the bound
    [2 * len(a) + 1] of [get_matching_blocks] cuts no run short. *)
Lemma blocks_loop_enough (rounds extra : nat)
    (queue : list (nat * nat * nat * nat))
    (matching_blocks : list (nat * nat * nat)) :
  queue_ok queue -> queue_weight queue ≤ rounds ->
  blocks_loop (rounds + extra) a b b2j queue matching_blocks
  = blocks_loop rounds a b b2j queue matching_blocks.
Proof.
  revert queue matching_blocks.
  induction rounds as [|rounds IH]; intros queue matching_blocks Hok Hw.
  - destruct queue as [|[[[alo ahi] blo] bhi] queue].
    + by destruct extra.
    + rewrite queue_weight_cons in Hw. lia.
  - destruct queue as [|[[[alo ahi] blo] bhi] queue]; [done|].
    apply Forall_cons in Hok as [Hle Hok].
    rewrite queue_weight_cons in Hw.
    cbn [Nat.add blocks_loop].
    pose proof (find_longest_match_within alo ahi blo bhi Hle) as Hin.
    destruct (find_longest_match a b b2j alo ahi blo bhi) as [[i j] k].
    destruct Hin as [Hi Hk].
    case_decide as Hk0; [|apply IH; [done|lia]].
    apply IH.
    + repeat case_decide; repeat (apply Forall_cons; split); try done; lia.
    + repeat case_decide; rewrite ?queue_weight_cons; lia.
Qed.

Lemma get_matching_blocks_rounds (extra : nat) :
  blocks_loop (2 * length a + 1 + extra) a b b2j
    [(0, length a, 0, length b)] []
  = blocks_loop (2 * length a + 1) a b b2j [(0, length a, 0, length b)] [].
Proof.
  apply blocks_loop_enough.
  - apply Forall_cons. split; [lia|constructor].
  - rewrite queue_weight_cons. unfold queue_weight. cbn. lia.
Qed.
End Rounds.

(** ** A sequence matched against itself

    [find_longest_match] on [a] and [a] returns the whole of [a]: the scan
    can only settle on a block of the diagonal, whatever the purge of
    popular elements removed, and the two extension loops then stretch that
    block to both ends. *)

Section ChainB.
Context `{Countable A}.

Lemma raw_b2j_snoc (b : list A) (y : A) :
  raw_b2j (b ++ [y])
  = <[y := default [] (raw_b2j b !! y) ++ [length b]]> (raw_b2j b).
Proof.
  unfold raw_b2j. rewrite imap_app. cbn [imap]. rewrite foldl_snoc.
  by rewrite Nat.add_0_r.
Qed.

Lemma raw_b2j_spec (b : list A) :
  (forall x js, raw_b2j b !! x = Some js ->
     StronglySorted lt js /\ forall j, j ∈ js <-> b !! j = Some x) /\
  (forall j x, b !! j = Some x -> is_Some (raw_b2j b !! x)).
Proof.
  induction b as [|y b [IH1 IH2]] using rev_ind.
  - split; [|done]. intros x js. unfold raw_b2j. cbn.
    by rewrite lookup_empty.
  - rewrite raw_b2j_snoc. split.
    + intros x js. destruct (decide (x = y)) as [->|Hxy].
      * rewrite lookup_insert_eq. intros [= <-].
        assert (StronglySorted lt (default [] (raw_b2j b !! y)) /\
                forall j, j ∈ default [] (raw_b2j b !! y) <-> b !! j = Some y)
          as [Hs Hm].
        { destruct (raw_b2j b !! y) as [old|] eqn:E; cbn.
          - by apply IH1.
          - split; [constructor|]. intros j. split; [by intros ?%elem_of_nil|].
            intros Hj. destruct (IH2 j y Hj) as [? ?]. congruence. }
        split.
        -- apply StronglySorted_app_2; [|done|repeat constructor].
           intros j1 j2 Hj1%Hm ->%list_elem_of_singleton.
           by eapply lookup_lt_Some.
        -- intros j. rewrite elem_of_app, list_elem_of_singleton, Hm.
           destruct (decide (j = length b)) as [->|Hj].
           ++ rewrite list_lookup_middle by done. split; [done|by right].
           ++ split.
              ** intros [Hb|?]; [|done]. by rewrite lookup_app_l
                   by (by eapply lookup_lt_Some).
              ** intros Hb. left.
                 assert (j < length (b ++ [y])) as Hlt by (by eapply lookup_lt_Some).
                 rewrite length_app in Hlt. cbn in Hlt.
                 by rewrite lookup_app_l in Hb by lia.
      * rewrite lookup_insert_ne by done. intros Hjs.
        destruct (IH1 x js Hjs) as [Hs Hm]. split; [done|].
        intros j. rewrite Hm. split.
        -- intros Hb. by rewrite lookup_app_l by (by eapply lookup_lt_Some).
        -- intros Hb.
           assert (j < length (b ++ [y])) as Hlt by (by eapply lookup_lt_Some).
           rewrite length_app in Hlt. cbn in Hlt.
           destruct (decide (j = length b)) as [->|Hj].
           ++ rewrite list_lookup_middle in Hb by done. congruence.
           ++ by rewrite lookup_app_l in Hb by lia.
    + intros j x Hb. destruct (decide (x = y)) as [->|Hxy].
      * rewrite lookup_insert_eq. by eexists.
      * rewrite lookup_insert_ne by done.
        assert (j < length (b ++ [y])) as Hlt by (by eapply lookup_lt_Some).
        rewrite length_app in Hlt. cbn in Hlt.
        destruct (decide (j = length b)) as [->|Hj].
        -- rewrite list_lookup_middle in Hb by done. congruence.
        -- rewrite lookup_app_l in Hb by lia. by eapply IH2.
Qed.

(** The entries of [chain_b] are entries of the unpurged map. *)
Lemma chain_b_raw (b : list A) x js :
  chain_b b !! x = Some js -> raw_b2j b !! x = Some js.
Proof.
  unfold chain_b. fold (raw_b2j b). case_decide; [|done].
  by intros [? _]%map_lookup_filter_Some.
Qed.

Lemma row_positions_spec (a : list A) i :
  let js := row_positions a (chain_b a) i in
  StronglySorted lt js /\
  (forall j, j ∈ js -> a !! j = a !! i /\ j < length a) /\
  (js ≠ [] -> i ∈ js).
Proof.
  unfold row_positions.
  assert (StronglySorted lt [] /\
          (forall j, j ∈ [] -> a !! j = a !! i /\ j < length a) /\
          (@nil nat ≠ [] -> i ∈ @nil nat)) as Hnil.
  { split; [constructor|]. split; [by intros ? ?%elem_of_nil|done]. }
  destruct (a !! i) as [x|] eqn:Hi; cbn; [|done].
  destruct (chain_b a !! x) as [js|] eqn:Hx; cbn; [|done].
  apply chain_b_raw in Hx.
  destruct (raw_b2j_spec a) as [H1 _]. destruct (H1 x js Hx) as [Hs Hm].
  split; [done|]. split.
  - intros j Hj%Hm. split; [done|]. by eapply lookup_lt_Some.
  - intros _. by apply Hm.
Qed.

Lemma live_same (a : list A) b2j i j :
  a !! j = a !! i -> live a b2j i -> live a b2j j.
Proof. unfold live, row_positions. by intros ->. Qed.
End ChainB.

Section Diagonal.
Context `{Countable A}.
Variable a : list A.

Local Abbreviation n := (length a).
Local Abbreviation b2j := (chain_b a).
Local Abbreviation rp := (row_positions a (chain_b a)).

Lemma run_live j : rp j ≠ [] -> run a j = S (run_before a j).
Proof. intros Hj. destruct j; cbn; by rewrite decide_False. Qed.

Lemma run_dead j : rp j = [] -> run a j = 0.
Proof. intros Hj. destruct j; cbn; by rewrite decide_True. Qed.

Lemma run_le j : run a j ≤ S j.
Proof.
  induction j as [|j IH]; cbn; case_decide; lia.
Qed.

Lemma flm_row_diagonal (i : nat) (j2len : gmap nat nat) (rest : list nat) :
  row_ok a i j2len ->
  forall (newj2len : gmap nat nat) (besti bestsize : nat),
  StronglySorted lt rest ->
  (forall j, j ∈ rest -> j < n /\ rp j ≠ [] /\ rp i ≠ []) ->
  (i ∈ rest \/ (run a i ≤ bestsize /\ default 0 (newj2len !! i) = run a i)) ->
  (forall j, j < i -> run a j ≤ bestsize) ->
  besti + bestsize ≤ S i ->
  (forall j v, newj2len !! j = Some v -> v ≤ run a j /\ v ≤ run a i) ->
  exists new' besti' bestsize',
    flm_row rest i 0 n j2len newj2len (besti, besti, bestsize)
      = (new', (besti', besti', bestsize')) /\
    besti' + bestsize' ≤ S i /\
    (forall j, j < S i -> run a j ≤ bestsize') /\
    default 0 (new' !! i) = run a i /\
    (forall j v, new' !! j = Some v -> v ≤ run a j /\ v ≤ run a i).
Proof.
  intros [Hdiag Hprev].
  induction rest as [|j rest IH];
    intros newj2len besti bestsize Hsort Hin Hi Hlow Hbest Hnew.
  - cbn. destruct Hi as [?%elem_of_nil|[Hri Hni]]; [done|].
    exists newj2len, besti, bestsize. split_and!; [done..| |done|done].
    intros j Hj. destruct (decide (j = i)) as [->|]; [done|]. apply Hlow. lia.
  - destruct (Hin j ltac:(by left)) as (Hjn & Hlj & Hli).
    apply StronglySorted_inv in Hsort as [Hsort Hall].
    cbn [flm_row]. rewrite decide_False by lia. rewrite decide_False by lia.
    set (k := j2len_before j2len j + 1).
    assert (k ≤ run a j /\ k ≤ run a i) as [Hkj Hki].
    { destruct (Hprev j) as [? ?]. rewrite (run_live j), (run_live i) by done.
      unfold k. lia. }
    assert (forall j' v, <[j:=k]> newj2len !! j' = Some v ->
              v ≤ run a j' /\ v ≤ run a i) as Hnew'.
    { intros j' v. destruct (decide (j = j')) as [->|].
      - rewrite lookup_insert_eq. by intros [= <-].
      - rewrite lookup_insert_ne by done. apply Hnew. }
    destruct (decide (j = i)) as [->|Hji].
    + (* the diagonal *)
      assert (k = run a i) as Hk.
      { unfold k. rewrite (run_live i), Hdiag by done. lia. }
      pose proof (run_le i).
      case_decide.
      * apply IH; try done.
        -- intros j' Hj'. apply Hin. by right.
        -- right. rewrite lookup_insert_eq. cbn. lia.
        -- intros j' Hj'. specialize (Hlow j' Hj'). lia.
        -- lia.
      * apply IH; try done.
        -- intros j' Hj'. apply Hin. by right.
        -- right. rewrite lookup_insert_eq. cbn. lia.
    + (* off the diagonal: the best match stays *)
      assert (k ≤ bestsize) as Hkb.
      { destruct (decide (j < i)) as [Hlt|Hge].
        - specialize (Hlow j Hlt). lia.
        - destruct Hi as [Hi|[Hri _]]; [|lia].
          apply elem_of_cons in Hi as [->|Hi]; [done|].
          pose proof (proj1 (Forall_forall _ _) Hall i Hi). lia. }
      rewrite decide_False by lia.
      apply IH; try done.
      * intros j' Hj'. apply Hin. by right.
      * destruct Hi as [Hi|[Hri Hni]].
        -- apply elem_of_cons in Hi as [->|Hi]; [done|]. by left.
        -- right. split; [done|]. by rewrite lookup_insert_ne.
Qed.

(** One row of the scan of a sequence against itself. *)
Lemma flm_row_step (i : nat) (j2len : gmap nat nat) (besti bestsize : nat) :
  row_ok a i j2len -> best_ok a i (besti, besti, bestsize) ->
  exists new' besti' bestsize',
    flm_row (rp i) i 0 n j2len ∅ (besti, besti, bestsize)
      = (new', (besti', besti', bestsize')) /\
    row_ok a (S i) new' /\ best_ok a (S i) (besti', besti', bestsize').
Proof.
  intros Hrow (_ & Hbest & Hlow).
  destruct (row_positions_spec a i) as (Hsort & Hin & Hdiag).
  assert (forall j, j ∈ rp i -> j < n /\ rp j ≠ [] /\ rp i ≠ []) as Hin'.
  { intros j Hj. destruct (Hin j Hj) as [Hsame Hlt]. split; [done|].
    assert (rp i ≠ []) as Hi
      by (intros E; rewrite E in Hj; by apply elem_of_nil in Hj).
    split; [|done]. by apply (live_same a b2j i j). }
  assert (i ∈ rp i \/ (run a i ≤ bestsize /\
            default 0 ((∅ : gmap nat nat) !! i) = run a i)) as Hi.
  { destruct (decide (rp i = [])) as [E|E]; [|left; by apply Hdiag].
    right. rewrite lookup_empty, run_dead by done. cbn. split; [lia|done]. }
  destruct (flm_row_diagonal i j2len (rp i) Hrow ∅ besti bestsize
              Hsort Hin' Hi Hlow)
    as (new' & besti' & bestsize' & Hres & Hb' & Hlow' & Hd' & Hnew').
  { lia. }
  { intros j v. by rewrite lookup_empty. }
  exists new', besti', bestsize'. split; [done|]. split; [|done].
  split; [done|]. intros [|j]; cbn; [lia|].
  destruct (new' !! j) as [v|] eqn:Ev; cbn; [|lia].
  by apply Hnew'.
Qed.

(** The rows from [i] on. *)
Lemma flm_scan_rows (count i : nat) (j2len : gmap nat nat)
    (besti bestsize : nat) :
  row_ok a i j2len -> best_ok a i (besti, besti, bestsize) ->
  exists besti' bestsize',
    snd (foldl (fun '(j2len, best) i =>
                  let js := default [] (a !! i ≫= fun x => b2j !! x) in
                  flm_row js i 0 n j2len ∅ best)
               (j2len, (besti, besti, bestsize)) (seq i count))
      = (besti', besti', bestsize') /\
    best_ok a (i + count) (besti', besti', bestsize').
Proof.
  revert i j2len besti bestsize.
  induction count as [|count IH]; intros i j2len besti bestsize Hrow Hbest.
  - cbn. exists besti, bestsize. by rewrite Nat.add_0_r.
  - cbn [seq foldl].
    destruct (flm_row_step i j2len besti bestsize Hrow Hbest)
      as (new' & besti1 & bestsize1 & Hres & Hrow1 & Hbest1).
    unfold row_positions in Hres. rewrite Hres.
    destruct (IH (S i) new' besti1 bestsize1 Hrow1 Hbest1)
      as (besti' & bestsize' & Hfold & Hbest').
    exists besti', bestsize'. split; [exact Hfold|].
    by replace (i + S count) with (S i + count) by lia.
Qed.

Lemma flm_scan_diagonal :
  exists besti bestsize,
    flm_scan a b2j 0 n 0 n = (besti, besti, bestsize) /\
    besti + bestsize ≤ n.
Proof.
  assert (row_ok a 0 ∅) as Hrow.
  { split; [done|]. intros [|j]; cbn; rewrite ?lookup_empty; cbn; lia. }
  assert (best_ok a 0 (0, 0, 0)) as Hbest0.
  { split; [done|]. split; [lia|]. intros j Hj. lia. }
  destruct (flm_scan_rows n 0 ∅ 0 0 Hrow Hbest0)
    as (besti & bestsize & Hfold & Hbest).
  exists besti, bestsize. split; [|by destruct Hbest as (_ & ? & _)].
  unfold flm_scan. rewrite Nat.sub_0_r. exact Hfold.
Qed.

Lemma extend_down_same (besti bestsize : nat) :
  extend_down a a 0 0 besti besti bestsize = (0, 0, besti + bestsize).
Proof.
  revert bestsize. induction besti as [|besti IH]; intros bestsize; [done|].
  cbn [extend_down]. rewrite decide_True by (split_and!; [lia..|done]).
  rewrite IH. f_equal. lia.
Qed.

Lemma extend_up_same (room bestsize : nat) :
  bestsize + room = n ->
  extend_up room a a n n 0 0 bestsize = (0, 0, n).
Proof.
  revert bestsize. induction room as [|room IH]; intros bestsize Hroom.
  - cbn. f_equal. lia.
  - cbn [extend_up]. rewrite decide_True by (split_and!; [lia..|done]).
    apply IH. lia.
Qed.

(** The longest match of a sequence with itself is the whole sequence. *)
Lemma find_longest_match_same :
  find_longest_match a a b2j 0 n 0 n = (0, 0, n).
Proof.
  unfold find_longest_match.
  destruct flm_scan_diagonal as (besti & bestsize & -> & Hle).
  rewrite extend_down_same. apply extend_up_same. lia.
Qed.

Lemma get_matching_blocks_same :
  sum_list ((fun t => t.2) <$> get_matching_blocks a a) = n.
Proof.
  unfold get_matching_blocks.
  replace (2 * n + 1) with (S (2 * n)) by lia. cbn [blocks_loop].
  rewrite find_longest_match_same.
  destruct (decide (n = 0)) as [E|E].
  - rewrite E. cbn. done.
  - rewrite decide_True by done.
    rewrite decide_False by lia. rewrite decide_False by lia.
    assert (blocks_loop (2 * n) a a b2j [] ([] ++ [(0, 0, n)]) = [(0, 0, n)])
      as -> by (by destruct (2 * n)).
    cbn. rewrite decide_True by done. cbn. rewrite decide_True by done.
    cbn. lia.
Qed.
End Diagonal.

(** ** A text scored against itself *)

Lemma ratio_same `{Countable A} (a : list A) :
  (Z.of_nat (length a) < 2 ^ 62)%Z -> ratio a a = 1%float.
Proof.
  intros Hlen. unfold ratio. rewrite get_matching_blocks_same.
  unfold _calculate_ratio. case_decide; [|done].
  apply float_ratio_full; lia.
Qed.

Lemma length_finditer_from (rest : str) pos open :
  length (finditer_from rest pos open)
  ≤ length rest + (if open is Some _ then 1 else 0).
Proof.
  revert pos open. induction rest as [|c rest IH]; intros pos open; cbn.
  - by destruct open.
  - destruct (is_word_char c).
    + specialize (IH (S pos) (Some (default pos open))). cbn in IH. lia.
    + specialize (IH (S pos) None). destruct open; cbn in *; lia.
Qed.

Lemma length_findall (text : str) : length (findall text) ≤ length text.
Proof.
  unfold findall, finditer. rewrite length_map.
  pose proof (length_finditer_from text 0 None). cbn in *. lia.
Qed.

Lemma word_level_same (words : list str) :
  (Z.of_nat (length words) < 2 ^ 62)%Z -> word_level words words = 1%float.
Proof.
  intros Hlen. unfold word_level. case_decide; [done|].
  rewrite decide_False by tauto. by apply ratio_same.
Qed.

Lemma token_set_level_same (words : list str) :
  (Z.of_nat (length words) < 2 ^ 62)%Z ->
  token_set_level words words = 1%float.
Proof.
  intros Hlen. unfold token_set_level. case_decide as Hne; [|done].
  case_decide; [|done].
  assert (forall X : gset str, X ∪ X = X) as Hunion.
  { intros X. apply set_eq. intros z. rewrite elem_of_union. tauto. }
  assert (forall X : gset str, X ∩ X = X) as Hinter.
  { intros X. apply set_eq. intros z. rewrite elem_of_intersection. tauto. }
  rewrite Hunion, Hinter.
  assert (size (list_to_set words : gset str) ≤ length words) as Hsz.
  { clear. induction words as [|w words IH]; cbn.
    - by rewrite size_empty.
    - rewrite size_union_alt, size_singleton.
      pose proof (subseteq_size (list_to_set words ∖ {[w]})
                    (list_to_set words : gset str)
                    (subseteq_difference_l _ _ _ (reflexivity _))).
      lia. }
  assert (size (list_to_set words : gset str) ≠ 0) as Hnz.
  { intros Hz%size_empty_inv. destruct words as [|w words]; [tauto|].
    apply (not_elem_of_empty (C:=gset str) w), Hz.
    rewrite elem_of_list_to_set. by left. }
  apply float_div_self; lia.
Qed.

Section Identical.
Context `{StrBuiltins}.

(** C8: a text scored against itself gets exactly [1.0] with each of the
    four methods, whatever the two normalization switches, and the call
    raises nothing: so for the empty string and for text of whitespace only.
    The bound on the length is far above what a Python string can hold in
    memory; below it the integers are the ones that the model of [float]
    conversion covers. *)
Theorem score_identical (x : str) (ignore_case collapse_whitespace : bool)
    (m name label : str) (log_name : option str) (results_file : str)
    (fs : FileSystem) :
  str_lower_on_ascii -> m ∈ ScoringMethod ->
  (Z.of_nat (length (normalize ignore_case collapse_whitespace x)) < 2 ^ 62)%Z ->
  fst (score_decoded_text x x ignore_case collapse_whitespace m log_name
         label results_file fs) = Ok 1%float /\
  fst (WordSalat.score_decoded_text x x ignore_case collapse_whitespace m
         log_name label results_file fs) = Ok 1%float /\
  exists r,
    compute_detailed_score x x ignore_case collapse_whitespace m name label
      = Ok r /\
    score r = 1%float /\ char_score r = 1%float /\
    word_score r = 1%float /\ token_set_score r = 1%float.
Proof.
  intros Hlow Hm Hlen.
  pose proof (str_lower_ScoringMethod m Hlow Hm) as El.
  assert (str_lower m ∈ ScoringMethod) as Hm' by (by rewrite El).
  set (norm := normalize ignore_case collapse_whitespace x) in *.
  pose proof (length_findall norm) as Hwords.
  assert (final_by (str_lower m) (ratio norm norm)
            (word_level (findall norm) (findall norm))
            (token_set_level (findall norm) (findall norm)) = 1%float) as E.
  { rewrite ratio_same, word_level_same, token_set_level_same by lia.
    rewrite El. unfold final_by.
    destruct (ScoringMethod_cases m Hm) as [->|[->|[->| ->]]]; reflexivity. }
  rewrite score_decoded_text_Ok, WordSalat_score_decoded_text_Ok by done.
  fold norm. rewrite E. split; [done|]. split; [done|].
  eexists. split; [by apply compute_detailed_score_Ok|]. cbn. fold norm.
  rewrite E. split; [done|].
  by rewrite ratio_same, word_level_same, token_set_level_same by lia.
Qed.
End Identical.

(** ** The matches of WORD_PATTERN *)

Lemma letter_at_lt text i : letter_at text i -> i < length text.
Proof. intros (c & Hc & _). by eapply lookup_lt_Some. Qed.

Lemma maximal_run_from text st pos s e :
  st < pos -> (forall i, st ≤ i < pos -> letter_at text i) ->
  ¬ letter_at text pos ->
  maximal_run text s e -> st ≤ s -> s < pos -> s = st /\ e = pos.
Proof.
  intros Hst Hrun Hpos (Hse & Hin & Hend & Hstart) Hs Hsp.
  assert (s = st) as ->.
  { destruct Hstart as [->|Hstart]; [lia|].
    destruct (decide (s = st)) as [|Hne]; [done|].
    exfalso. apply Hstart, Hrun. lia. }
  split; [done|].
  destruct (decide (e < pos)) as [Hlt|Hge].
  - exfalso. apply Hend, Hrun. lia.
  - destruct (decide (pos < e)) as [Hlt|]; [|lia].
    exfalso. apply Hpos, Hin. lia.
Qed.

Lemma finditer_from_runs (text rest : str) pos open s e :
  drop pos text = rest ->
  match open with
  | Some st =>
      st < pos /\ (forall i, st ≤ i < pos -> letter_at text i) /\
      (st = 0 \/ ¬ letter_at text (st - 1))
  | None => pos = 0 \/ ¬ letter_at text (pos - 1)
  end ->
  (s, e) ∈ finditer_from rest pos open <->
  maximal_run text s e /\ default pos open ≤ s.
Proof.
  revert pos open. induction rest as [|c rest IH]; intros pos open Hdrop Hinv.
  - assert (length text ≤ pos) as Hlen.
    { apply (f_equal length) in Hdrop. rewrite length_drop in Hdrop.
      cbn in Hdrop. lia. }
    assert (¬ letter_at text pos) as Hpos.
    { intros ?%letter_at_lt. lia. }
    destruct open as [st|]; cbn.
    + destruct Hinv as (Hst & Hrun & Hstart).
      rewrite list_elem_of_singleton. split.
      * intros [= -> ->]. split; [|done]. by split_and!.
      * intros [Hmax Hs].
        assert (s < pos) as Hsp.
        { destruct Hmax as (? & Hin & _).
          assert (s < length text) by (apply letter_at_lt, Hin; lia).
          lia. }
        destruct (maximal_run_from text st pos s e) as [-> ->]; done.
    + split; [by intros ?%elem_of_nil|].
      intros [(Hse & Hin & _) Hs].
      assert (s < length text) by (apply letter_at_lt, Hin; lia). lia.
  - assert (text !! pos = Some c) as Hc.
    { rewrite <-(Nat.add_0_r pos), <-lookup_drop, Hdrop. done. }
    assert (drop (S pos) text = rest) as Hdrop'.
    { replace (S pos) with (pos + 1) by lia.
      by rewrite <-drop_drop, Hdrop. }
    cbn. destruct (is_word_char c) eqn:Hw.
    + assert (letter_at text pos) as Hl by (by exists c).
      rewrite (IH (S pos) (Some (default pos open)) Hdrop'); [done|].
      destruct open as [st|]; cbn.
      * destruct Hinv as (Hst & Hrun & Hstart). split_and!; [lia| |done].
        intros i Hi. destruct (decide (i = pos)) as [->|]; [done|].
        apply Hrun. lia.
      * split_and!; [lia| |done].
        intros i Hi. by replace i with pos by lia.
    + assert (¬ letter_at text pos) as Hl.
      { intros (c' & Hc' & Hw'). congruence. }
      assert (S pos = 0 ∨ ¬ letter_at text (S pos - 1)) as Hinv'.
      { right. by replace (S pos - 1) with pos by lia. }
      destruct open as [st|]; cbn.
      * destruct Hinv as (Hst & Hrun & Hstart).
        rewrite elem_of_cons, (IH (S pos) None Hdrop' Hinv'). cbn. split.
        -- intros [[= -> ->]|[Hmax Hs]].
           ++ split; [|done]. by split_and!.
           ++ split; [done|lia].
        -- intros [Hmax Hs].
           destruct (decide (S pos ≤ s)) as [|Hsp]; [by right|left].
           assert (s < pos).
           { destruct (decide (s = pos)) as [->|]; [|lia].
             exfalso. apply Hl. destruct Hmax as (? & Hin & _).
             apply Hin. lia. }
           destruct (maximal_run_from text st pos s e) as [-> ->]; done.
      * rewrite (IH (S pos) None Hdrop' Hinv'). cbn. split.
        -- intros [Hmax Hs]. split; [done|lia].
        -- intros [Hmax Hs]. split; [done|].
           destruct (decide (s = pos)) as [->|]; [|lia].
           exfalso. apply Hl. destruct Hmax as (? & Hin & _). apply Hin. lia.
Qed.

(** X1: the spans of WORD_PATTERN are exactly the maximal runs of letters,
    listed from left to right. *)
Theorem finditer_maximal_runs (text : str) :
  spans_ok text 0 (finditer text) /\
  forall start end_,
    (start, end_) ∈ finditer text <-> maximal_run text start end_.
Proof.
  split; [apply finditer_ok|]. intros s e. unfold finditer.
  rewrite (finditer_from_runs text text 0 None s e); [|done|by left].
  cbn. split; [by intros [? _]|]. intros ?. split; [done|lia].
Qed.

(** ** scramble_text, word by word *)

Lemma lookup_slice {A} (l : list A) lo hi i :
  i < hi - lo -> slice l lo hi !! i = l !! (lo + i).
Proof. intros Hi. unfold slice. by rewrite lookup_take_lt, lookup_drop. Qed.

Lemma length_slice {A} (l : list A) lo hi :
  hi ≤ length l -> length (slice l lo hi) = hi - lo.
Proof. intros Hhi. unfold slice. rewrite length_take, length_drop. lia. Qed.

Lemma slice_app_skip {A} (p l : list A) lo hi :
  length p ≤ lo ->
  slice (p ++ l) lo hi = slice l (lo - length p) (hi - length p).
Proof.
  intros Hlo. unfold slice.
  rewrite drop_app_ge by done. f_equal. lia.
Qed.

Lemma slice_app_head {A} (w l : list A) :
  slice (w ++ l) 0 (length w) = w.
Proof. unfold slice. by rewrite drop_0, Nat.sub_0_r, take_app_length. Qed.

Lemma spans_ok_weaken text li li' spans :
  li' ≤ li -> spans_ok text li spans -> spans_ok text li' spans.
Proof.
  intros Hle. destruct spans as [|[s e] spans]; cbn; [lia|].
  intros (? & ? & ? & ? & ?). split_and!; [lia|done..].
Qed.

Lemma spans_ok_elem text li spans s e :
  spans_ok text li spans -> (s, e) ∈ spans ->
  li ≤ s /\ s ≤ e /\ e ≤ length text.
Proof.
  revert li. induction spans as [|[s0 e0] spans IH]; intros li Hok Hin.
  - by apply elem_of_nil in Hin.
  - destruct Hok as (H1 & H2 & H3 & _ & Hok).
    apply elem_of_cons in Hin as [[= -> ->]|Hin]; [done|].
    destruct (IH e0 Hok Hin) as (? & ? & ?). lia.
Qed.

Lemma finditer_from_shape (l' l : str) pos open :
  Forall2 same_shape l' l ->
  finditer_from l' pos open = finditer_from l pos open.
Proof.
  intros Hshape. revert pos open.
  induction Hshape as [|c' c l' l [Hcls _] _ IH]; intros pos open; [done|].
  cbn. rewrite Hcls. destruct (is_word_char c); [done|].
  by rewrite IH.
Qed.

Section ScrambleTextWords.
Context `{RandomSource Rng}.

Lemma segments_from_words (text : str) spans last_index (rng : Rng) :
  randbelow_in_range -> spans_ok text last_index spans ->
  exists segments rng',
    segments_from text spans last_index rng = Ok (segments, rng') /\
    concat segments ≡ₚ drop last_index text /\
    forall start end_, (start, end_) ∈ spans ->
      rearranged (slice (concat segments) (start - last_index)
                    (end_ - last_index))
                 (slice text start end_).
Proof.
  intros Hrange. revert last_index rng.
  induction spans as [|[start end_] spans IH]; intros last_index rng Hok.
  - cbn in *. eexists _, _. split; [done|]. split.
    + case_decide; cbn; [by rewrite app_nil_r|]. by rewrite drop_ge by lia.
    + by intros ? ? ?%elem_of_nil.
  - destruct Hok as (Hls & Hse & Hel & Hw & Hok). cbn.
    destruct (scramble_word_perm (slice text start end_) rng Hrange)
      as (w' & rng1 & -> & Hp & Hfix). cbn.
    destruct (IH end_ rng1 Hok) as (rest & rng2 & -> & Hrest & Hwords). cbn.
    eexists _, _. split; [done|].
    set (before := if decide (last_index < start)
                   then [slice text last_index start] else []).
    assert (concat before = slice text last_index start) as Hbefore.
    { unfold before. case_decide; cbn; [by rewrite app_nil_r|].
      replace start with last_index by lia.
      unfold slice. by rewrite Nat.sub_diag, take_0. }
    rewrite concat_app, concat_cons, Hbefore.
    assert (length (slice text last_index start) = start - last_index)
      as Hlb by (apply length_slice; lia).
    assert (length w' = end_ - start) as Hlw.
    { rewrite Hp. apply length_slice; lia. }
    split.
    + rewrite (slice_split text last_index start Hls).
      rewrite (slice_split text start end_ Hse).
      by rewrite Hp, Hrest.
    + intros s e [[= -> ->]|Hin]%elem_of_cons.
      * rewrite slice_app_skip by lia. rewrite Hlb.
        replace (start - last_index - (start - last_index)) with 0 by lia.
        replace (end_ - last_index - (start - last_index))
          with (length w') by lia.
        by rewrite slice_app_head.
      * destruct (spans_ok_elem text end_ spans s e Hok Hin) as (? & ? & ?).
        rewrite slice_app_skip by lia. rewrite slice_app_skip by lia.
        rewrite Hlb, Hlw.
        replace (s - last_index - (start - last_index) - (end_ - start))
          with (s - end_) by lia.
        replace (e - last_index - (start - last_index) - (end_ - start))
          with (e - end_) by lia.
        by apply Hwords.
Qed.

Lemma scramble_text_in_place (text : str) (seed : option Z) (entropy : Rng) :
  randbelow_in_range ->
  exists out, scramble_text text seed entropy = Ok out /\
    scrambled_in_place out text.
Proof.
  intros Hrange. unfold scramble_text, _scramble_segments.
  destruct (segments_from_words text (finditer text) 0
              (Random seed entropy) Hrange (finditer_ok text))
    as (segments & rng' & Hsegments & Hperm & Hwords).
  destruct (segments_from_shape text (finditer text) 0
              (Random seed entropy) Hrange (finditer_ok text))
    as (segments' & rng'' & Hsegments' & Hshape).
  rewrite Hsegments in Hsegments'. injection Hsegments' as <- <-.
  rewrite Hsegments. rewrite drop_0 in Hperm, Hshape.
  eexists. split; [reflexivity|]. split; [done|].
  split; [by apply finditer_from_shape|].
  intros s e Hin.
  destruct (spans_ok_elem text 0 _ s e (finditer_ok text) Hin) as (_ & _ & ?).
  assert (s < e) as Hse.
  { pose proof (finditer_from_runs text text 0 None s e eq_refl
                  (or_introl eq_refl)) as Hruns.
    apply Hruns in Hin as [(? & _) _]. done. }
  destruct (Hwords s e Hin) as [Hp Hfix]. rewrite !Nat.sub_0_r in *.
  split; [done|].
  rewrite length_slice in Hfix by done.
  destruct (shuffle_indices_spec (e - s)) as (_ & Hrng & Hmid).
  assert (forall j, j < e - s ->
            (j = 0 \/ j = e - s - 1 \/
             ((e - s) mod 2 = 1 /\ j = (e - s) / 2)) ->
            concat segments !! (s + j) = text !! (s + j)) as Hkeep.
  { intros j Hj Hcase. rewrite <-!(lookup_slice _ s e) by done.
    apply Hfix. intros Hjin. destruct (Hrng j Hjin) as [? ?].
    destruct Hcase as [->|[->|[Hodd ->]]]; [lia|lia|]. by apply Hmid. }
  assert ((e - s) / 2 < e - s) as Hdiv by (apply Nat.div_lt; lia).
  split; [|split].
  - rewrite <-(Nat.add_0_r s). apply Hkeep; [lia|by left].
  - replace (e - 1) with (s + (e - s - 1)) by lia.
    apply Hkeep; [lia|by right; left].
  - intros Hodd. apply (Hkeep ((e - s) / 2) Hdiv). right; right.
    split; [exact Hodd|reflexivity].
Qed.

(** X2: the scrambled text is a rearrangement of the input: no character is
    added, dropped or replaced. *)
Theorem scramble_text_permutation (text : str) (seed : option Z)
    (entropy : Rng) :
  randbelow_in_range ->
  exists out, scramble_text text seed entropy = Ok out /\ out ≡ₚ text.
Proof.
  intros Hrange.
  destruct (scramble_text_in_place text seed entropy Hrange)
    as (out & Hout & Hperm & _).
  by exists out.
Qed.

(** X3: every word of the input, a match [(start, end_)] of WORD_PATTERN, is
    scrambled in place: the output holds a rearrangement of the word at the
    same span, with the same first and last letter, and the same middle
    letter when the word has an odd number of letters. *)
Theorem scramble_text_words (text : str) (seed : option Z) (entropy : Rng) :
  randbelow_in_range ->
  exists out, scramble_text text seed entropy = Ok out /\
    forall start end_, (start, end_) ∈ finditer text ->
      slice out start end_ ≡ₚ slice text start end_ /\
      out !! start = text !! start /\
      out !! (end_ - 1) = text !! (end_ - 1) /\
      ((end_ - start) mod 2 = 1 ->
         out !! (start + (end_ - start) / 2)
         = text !! (start + (end_ - start) / 2)).
Proof.
  intros Hrange.
  destruct (scramble_text_in_place text seed entropy Hrange)
    as (out & Hout & _ & _ & Hwords).
  by exists out.
Qed.

(** X4: scrambling keeps the word boundaries: WORD_PATTERN matches the
    output at the very spans where it matches the input. *)
Theorem scramble_text_word_boundaries (text : str) (seed : option Z)
    (entropy : Rng) :
  randbelow_in_range ->
  exists out, scramble_text text seed entropy = Ok out /\
    finditer out = finditer text.
Proof.
  intros Hrange.
  destruct (scramble_text_in_place text seed entropy Hrange)
    as (out & Hout & _ & Hspans & _).
  by exists out.
Qed.

(** X6: scrambling a scrambled text, with any seeds, still keeps every word
    of the first input in its place, with its first, last and odd-middle
    letter and the multiset of its letters. *)
Theorem scramble_text_twice (text : str) (seed1 seed2 : option Z)
    (entropy1 entropy2 : Rng) :
  randbelow_in_range ->
  exists once twice,
    scramble_text text seed1 entropy1 = Ok once /\
    scramble_text once seed2 entropy2 = Ok twice /\
    twice ≡ₚ text /\
    finditer twice = finditer text /\
    forall start end_, (start, end_) ∈ finditer text ->
      slice twice start end_ ≡ₚ slice text start end_ /\
      twice !! start = text !! start /\
      twice !! (end_ - 1) = text !! (end_ - 1) /\
      ((end_ - start) mod 2 = 1 ->
         twice !! (start + (end_ - start) / 2)
         = text !! (start + (end_ - start) / 2)).
Proof.
  intros Hrange.
  destruct (scramble_text_in_place text seed1 entropy1 Hrange)
    as (once & Honce & Hp1 & Hs1 & Hw1).
  destruct (scramble_text_in_place once seed2 entropy2 Hrange)
    as (twice & Htwice & Hp2 & Hs2 & Hw2).
  exists once, twice. split; [done|]. split; [done|].
  split; [by rewrite Hp2|]. split; [by rewrite Hs2|].
  intros s e Hin. destruct (Hw1 s e Hin) as (Hq1 & Ha1 & Hb1 & Hc1).
  rewrite <-Hs1 in Hin. destruct (Hw2 s e Hin) as (Hq2 & Ha2 & Hb2 & Hc2).
  split; [by rewrite Hq2|]. split; [by rewrite Ha2|].
  split; [by rewrite Hb2|].
  intros Hodd. by rewrite Hc2, Hc1.
Qed.


End ScrambleTextWords.

(** ** _attempt_shuffle on any indices *)

Section AttemptExtras.
Context `{RandomSource Rng}.


(** X7: on distinct indices in range, [_attempt_shuffle] returns, whatever
    the number of attempts allowed, a list of the same length that is a
    rearrangement of [chars] and agrees with [chars] at every position that
    is not one of the indices. *)
Theorem _attempt_shuffle_in_place (chars : list char) (indices : list nat)
    (rng : Rng) (max_attempts : nat) :
  randbelow_in_range -> NoDup indices ->
  Forall (fun i => i < length chars) indices ->
  exists out rng',
    _attempt_shuffle chars indices rng max_attempts = Ok (out, rng') /\
    length out = length chars /\
    out ≡ₚ chars /\
    forall j, j ∉ indices -> out !! j = chars !! j.
Proof.
  intros Hrange Hnd Hin.
  destruct (_attempt_shuffle_total Hrange chars indices rng max_attempts Hin)
    as (out & rng' & Hout & Hlen).
  exists out, rng'. split; [done|]. split; [done|].
  by eapply _attempt_shuffle_perm.
Qed.

End AttemptExtras.

(** ** The results file *)



Section LogFacts.
Context `{StrBuiltins}.



End LogFacts.

Section ScorerExtras.
Context `{StrBuiltins}.
Variables (original decoded : str) (ignore_case collapse_whitespace : bool).


End ScorerExtras.

(** ** The token-set score *)

Lemma size_list_to_set_le_length (words : list str) :
  size (list_to_set words : gset str) ≤ length words.
Proof.
  induction words as [|w words IH]; cbn.
  - by rewrite size_empty.
  - rewrite size_union_alt, size_singleton.
    pose proof (subseteq_size (list_to_set words ∖ {[w]})
                  (list_to_set words : gset str)
                  (subseteq_difference_l _ _ _ (reflexivity _))).
    lia.
Qed.

Lemma final_by_ones (m : str) :
  m ∈ ScoringMethod -> final_by m 1 1 1 = 1%float.
Proof.
  intros Hm. unfold final_by.
  destruct (ScoringMethod_cases m Hm) as [->|[->|[->| ->]]]; reflexivity.
Qed.

Lemma final_by_zeros (m : str) :
  m ∈ ScoringMethod -> final_by m 0 0 0 = 0%float.
Proof.
  intros Hm. unfold final_by.
  destruct (ScoringMethod_cases m Hm) as [->|[->|[->| ->]]]; reflexivity.
Qed.

(** The token-set score, read off the two sets. *)
Lemma token_set_level_sets (a b : list str) :
  token_set_level a b
  = let union : gset str := list_to_set a ∪ list_to_set b in
    if decide (union ≠ ∅)
    then int_truediv (size (list_to_set a ∩ list_to_set b : gset str))
                     (size union)
    else 1%float.
Proof.
  unfold token_set_level. case_decide as Hne; [done|].
  cbn zeta. rewrite decide_False; [done|].
  intros Hu. apply Hu.
  assert (a = [] /\ b = []) as [-> ->].
  { destruct a, b; try done; exfalso; apply Hne; by (left + right). }
  cbn. apply set_eq. intros x. rewrite elem_of_union. tauto.
Qed.

Lemma list_to_set_same (a a' : list str) :
  (forall w, w ∈ a <-> w ∈ a') ->
  (list_to_set a : gset str) = list_to_set a'.
Proof.
  intros Hsame. apply set_eq. intros w. by rewrite !elem_of_list_to_set.
Qed.

Lemma token_set_level_proper (a a' b b' : list str) :
  (forall w, w ∈ a <-> w ∈ a') -> (forall w, w ∈ b <-> w ∈ b') ->
  token_set_level a b = token_set_level a' b'.
Proof.
  intros Ha Hb. rewrite !token_set_level_sets.
  by rewrite (list_to_set_same a a' Ha), (list_to_set_same b b' Hb).
Qed.

Lemma token_set_level_swap (a b : list str) :
  token_set_level a b = token_set_level b a.
Proof.
  rewrite !token_set_level_sets.
  assert (list_to_set a ∪ list_to_set b
          = (list_to_set b ∪ list_to_set a : gset str)) as ->.
  { apply set_eq. intros w. rewrite !elem_of_union. tauto. }
  assert (list_to_set a ∩ list_to_set b
          = (list_to_set b ∩ list_to_set a : gset str)) as ->.
  { apply set_eq. intros w. rewrite !elem_of_intersection. tauto. }
  done.
Qed.

(** X12: the token-set score looks at the two sets of words only: the order
    of the words and their repetitions do not count, and the score of [a]
    against [b] is the score of [b] against [a]. *)
Theorem token_set_level_by_sets (a a' b b' : list str) :
  (forall w, w ∈ a <-> w ∈ a') -> (forall w, w ∈ b <-> w ∈ b') ->
  token_set_level a b = token_set_level a' b' /\
  token_set_level a b = token_set_level b a.
Proof.
  intros Ha Hb. split; [by apply token_set_level_proper|].
  apply token_set_level_swap.
Qed.

Lemma float_zero_div (n : nat) :
  0 < n -> (Z.of_nat n < 2 ^ 62)%Z ->
  (float_of_int 0 / float_of_int n = 0)%float.
Proof.
  intros Hpos Hn. apply Prim2SF_inj. rewrite FloatAxioms.div_spec.
  destruct (float_of_int_shape n Hpos Hn) as (m & e & _ & _ & -> & _).
  reflexivity.
Qed.

Lemma size_union_le_length (a b : list str) :
  size (list_to_set a ∪ list_to_set b : gset str) ≤ length a + length b.
Proof.
  pose proof (size_list_to_set_le_length a) as Hsa.
  pose proof (size_list_to_set_le_length b) as Hsb.
  pose proof (size_union_alt (list_to_set a) (list_to_set b : gset str))
    as Hsu.
  pose proof (subseteq_size (list_to_set b ∖ list_to_set a)
                (list_to_set b : gset str)
                (subseteq_difference_l _ _ _ (reflexivity _))) as Hsd.
  lia.
Qed.

Lemma token_set_level_disjoint (a b : list str) :
  (Z.of_nat (length a + length b) < 2 ^ 62)%Z ->
  (forall w, w ∈ a -> w ∉ b) -> a ≠ [] \/ b ≠ [] ->
  token_set_level a b = 0%float.
Proof.
  intros Hlen Hdisj Hne. pose proof (size_union_le_length a b) as Hsz.
  rewrite token_set_level_sets. cbn zeta.
  assert (list_to_set a ∩ list_to_set b = (∅ : gset str)) as ->.
  { apply set_eq. intros w.
    rewrite elem_of_intersection, !elem_of_list_to_set.
    split; [|by intros ?%not_elem_of_empty].
    intros [Hwa Hwb]. by destruct (Hdisj w Hwa). }
  rewrite size_empty.
  assert (list_to_set a ∪ list_to_set b ≠ (∅ : gset str)) as Hu.
  { intros Hu.
    assert (exists w, w ∈ a \/ w ∈ b) as [w Hw].
    { destruct a as [|w a]; [|exists w; left; by left].
      destruct b as [|w b]; [|exists w; right; by left].
      by destruct Hne. }
    apply (not_elem_of_empty (C:=gset str) w). rewrite <-Hu.
    by rewrite elem_of_union, !elem_of_list_to_set. }
  rewrite decide_True by done.
  apply float_zero_div; [|lia].
  destruct (decide (size (list_to_set a ∪ list_to_set b : gset str) = 0))
    as [Hz%size_empty_inv|]; [|lia].
  exfalso. apply Hu. by apply leibniz_equiv.
Qed.

(** X13: two texts with the same set of words have token-set score [1.0];
    two texts without a common word, one of which has a word, have
    token-set score [0.0]. *)
Theorem token_set_level_extremes (a b : list str) :
  (Z.of_nat (length a + length b) < 2 ^ 62)%Z ->
  ((forall w, w ∈ a <-> w ∈ b) -> token_set_level a b = 1%float) /\
  ((forall w, w ∈ a -> w ∉ b) -> a ≠ [] \/ b ≠ [] ->
     token_set_level a b = 0%float).
Proof.
  intros Hlen. split.
  - intros Hsame.
    rewrite (token_set_level_proper a b b b Hsame (fun w => reflexivity _)).
    apply token_set_level_same. lia.
  - by apply token_set_level_disjoint.
Qed.

Section NormalForms.
Context `{StrBuiltins}.

(** X14: two texts with the same normal form (so two texts that differ in
    case only, or in the amount of whitespace only, under the default
    switches) get exactly [1.0] with each of the four methods. *)
Theorem score_equal_normal_forms (original decoded : str)
    (ignore_case collapse_whitespace : bool) (m name label : str)
    (log_name : option str) (results_file : str) (fs : FileSystem) :
  normalize ignore_case collapse_whitespace original
    = normalize ignore_case collapse_whitespace decoded ->
  (Z.of_nat (length (normalize ignore_case collapse_whitespace original))
   < 2 ^ 62)%Z ->
  str_lower m ∈ ScoringMethod ->
  fst (score_decoded_text original decoded ignore_case collapse_whitespace
         m log_name label results_file fs) = Ok 1%float /\
  fst (WordSalat.score_decoded_text original decoded ignore_case
         collapse_whitespace m log_name label results_file fs)
    = Ok 1%float /\
  exists r,
    compute_detailed_score original decoded ignore_case collapse_whitespace
      m name label = Ok r /\
    score r = 1%float /\ char_score r = 1%float /\
    word_score r = 1%float /\ token_set_score r = 1%float.
Proof.
  intros Hsame Hlen Hm.
  rewrite score_decoded_text_Ok, WordSalat_score_decoded_text_Ok by done.
  rewrite compute_detailed_score_Ok by done. cbn [fst].
  rewrite <-Hsame.
  set (norm := normalize ignore_case collapse_whitespace original) in *.
  pose proof (length_findall norm) as Hwords.
  rewrite ratio_same, word_level_same, token_set_level_same by lia.
  rewrite final_by_ones by done.
  split; [done|]. split; [done|]. by eexists.
Qed.
End NormalForms.

(** ** Whitespace *)

Section SplitJoin.
Context `{StrBuiltins}.

Lemma str_split_from_fields (rest field : str) :
  Forall (fun c => str_isspace c = false) field ->
  Forall is_field (str_split_from rest field).
Proof.
  revert field. induction rest as [|c rest IH]; intros field Hfield; cbn.
  - case_decide; [constructor|]. by repeat constructor.
  - destruct (str_isspace c) eqn:Hc.
    + apply Forall_app. split; [|by apply IH].
      case_decide; [constructor|]. by repeat constructor.
    + apply IH, Forall_app. by repeat constructor.
Qed.

Lemma str_split_from_app (word rest field : str) :
  Forall (fun c => str_isspace c = false) word ->
  str_split_from (word ++ rest) field = str_split_from rest (field ++ word).
Proof.
  intros Hword. revert field.
  induction Hword as [|c word Hc _ IH]; intros field; cbn.
  - by rewrite app_nil_r.
  - rewrite Hc, IH. by rewrite <-app_assoc.
Qed.

Lemma str_split_join (fields : list str) :
  str_isspace 32%N = true -> Forall is_field fields ->
  str_split (str_join (lit " ") fields) = fields.
Proof.
  intros Hspace Hfields. unfold str_split.
  induction Hfields as [|field fields [Hne Hfield] Hfields IH]; [done|].
  destruct fields as [|field' fields].
  - cbn [str_join].
    transitivity (str_split_from (field ++ []) []); [by rewrite app_nil_r|].
    rewrite str_split_from_app by done. cbn. by rewrite decide_False.
  - change (str_join (lit " ") (field :: field' :: fields))
      with (field ++ 32%N :: str_join (lit " ") (field' :: fields)).
    rewrite str_split_from_app by done. cbn [str_split_from app].
    rewrite Hspace, decide_False by done. by rewrite IH.
Qed.

(** X15: [text.split()] yields fields that are not empty and hold no
    whitespace; joining them with one space and splitting again gives the
    same fields, so collapsing whitespace twice is collapsing it once. *)
Theorem collapse_whitespace_round_trip (text : str) :
  str_isspace 32%N = true ->
  Forall is_field (str_split text) /\
  str_split (str_join (lit " ") (str_split text)) = str_split text /\
  normalize false true (normalize false true text)
    = normalize false true text.
Proof.
  intros Hspace.
  assert (Forall is_field (str_split text)) as Hfields
    by (by apply str_split_from_fields).
  split; [done|]. split; [by apply str_split_join|].
  unfold normalize. by rewrite str_split_join.
Qed.
End SplitJoin.

(** ** An empty text against a text with words *)

Section EmptySide.
Context `{Countable A}.

Lemma flm_scan_no_positions (a : list A) (alo ahi blo bhi : nat) :
  flm_scan a ∅ alo ahi blo bhi = (alo, blo, 0).
Proof.
  unfold flm_scan. generalize (alo, blo, 0) as best.
  generalize (∅ : gmap nat nat) as j2len.
  induction (seq alo (ahi - alo)) as [|i l IH]; intros j2len best; [done|].
  cbn [foldl].
  assert (default [] (a !! i ≫= fun x => (∅ : gmap A (list nat)) !! x) = [])
    as ->.
  { destruct (a !! i); cbn; [by rewrite lookup_empty|done]. }
  cbn [flm_row]. apply IH.
Qed.

Lemma get_matching_blocks_nil_r (a : list A) :
  get_matching_blocks a [] = [(length a, 0, 0)].
Proof.
  unfold get_matching_blocks.
  replace (2 * length a + 1) with (S (2 * length a)) by lia.
  change (chain_b []) with (∅ : gmap A (list nat)).
  cbn [blocks_loop length]. unfold find_longest_match.
  rewrite flm_scan_no_positions. cbn [extend_down].
  assert (extend_up (length a - (0 + 0)) a [] (length a) 0 0 0 0 = (0, 0, 0))
    as ->.
  { destruct (length a - (0 + 0)); [done|]. cbn [extend_up].
    rewrite decide_False; [done|]. lia. }
  rewrite decide_False by (intros ?; done).
  by destruct (2 * length a).
Qed.

Lemma get_matching_blocks_nil_l (b : list A) :
  get_matching_blocks [] b = [(0, length b, 0)].
Proof. reflexivity. Qed.

Lemma ratio_nil (a b : list A) :
  a = [] \/ b = [] -> a ≠ [] \/ b ≠ [] ->
  (Z.of_nat (length a + length b) < 2 ^ 62)%Z ->
  ratio a b = 0%float.
Proof.
  intros Hnil Hne Hlen. unfold ratio.
  assert (sum_list ((fun t => t.2) <$> get_matching_blocks a b) = 0) as ->.
  { destruct Hnil as [-> | ->].
    - by rewrite get_matching_blocks_nil_l.
    - by rewrite get_matching_blocks_nil_r. }
  unfold _calculate_ratio. rewrite decide_True.
  - change (2 * float_of_int 0)%float with (float_of_int 0).
    apply float_zero_div; [|done].
    destruct a, b; cbn; try lia. by destruct Hne.
  - destruct a, b; cbn; try lia. by destruct Hne.
Qed.
End EmptySide.

Lemma findall_nil : findall [] = [].
Proof. reflexivity. Qed.

Section EmptyAnswer.
Context `{StrBuiltins}.

(** X16: when one of the two normalized texts is empty and the other holds
    a word, the call raises nothing (no division by zero) and every score
    is exactly [0.0], with each of the four methods. *)
Theorem score_empty_side (original decoded : str)
    (ignore_case collapse_whitespace : bool) (m name label : str)
    (log_name : option str) (results_file : str) (fs : FileSystem) :
  let original_norm := normalize ignore_case collapse_whitespace original in
  let decoded_norm := normalize ignore_case collapse_whitespace decoded in
  (original_norm = [] /\ findall decoded_norm ≠ []) \/
  (decoded_norm = [] /\ findall original_norm ≠ []) ->
  (Z.of_nat (length original_norm + length decoded_norm) < 2 ^ 62)%Z ->
  str_lower m ∈ ScoringMethod ->
  fst (score_decoded_text original decoded ignore_case collapse_whitespace
         m log_name label results_file fs) = Ok 0%float /\
  fst (WordSalat.score_decoded_text original decoded ignore_case
         collapse_whitespace m log_name label results_file fs)
    = Ok 0%float /\
  exists r,
    compute_detailed_score original decoded ignore_case collapse_whitespace
      m name label = Ok r /\
    score r = 0%float /\ char_score r = 0%float /\
    word_score r = 0%float /\ token_set_score r = 0%float.
Proof.
  intros original_norm decoded_norm Hside Hlen Hm.
  rewrite score_decoded_text_Ok, WordSalat_score_decoded_text_Ok by done.
  rewrite compute_detailed_score_Ok by done. cbn [fst].
  fold original_norm decoded_norm.
  pose proof (length_findall original_norm) as Hwo.
  pose proof (length_findall decoded_norm) as Hwd.
  assert (ratio original_norm decoded_norm = 0%float) as ->.
  { apply ratio_nil; [| |done].
    - destruct Hside as [[? _]|[? _]]; [by left|by right].
    - destruct Hside as [[-> Hw]|[-> Hw]]; [right|left];
        intros E; by rewrite E in Hw. }
  assert (word_level (findall original_norm) (findall decoded_norm)
          = 0%float) as ->.
  { unfold word_level.
    destruct Hside as [[-> Hw]|[-> Hw]]; rewrite findall_nil;
      rewrite decide_False by tauto; by rewrite decide_True by tauto. }
  assert (token_set_level (findall original_norm) (findall decoded_norm)
          = 0%float) as ->.
  { apply token_set_level_disjoint; [lia| |].
    - destruct Hside as [[-> Hw]|[-> Hw]]; rewrite findall_nil.
      + by intros w ?%elem_of_nil.
      + intros w _. apply not_elem_of_nil.
    - destruct Hside as [[_ Hw]|[_ Hw]]; [by right|by left]. }
  rewrite final_by_zeros by done.
  split; [done|]. split; [done|]. by eexists.
Qed.
End EmptyAnswer.

(** ** The sizes of the matching blocks *)

Section BlockSizes.
Context `{Countable A}.
Variables (a b : list A) (b2j : gmap A (list nat)).

Lemma flm_row_within_b (js : list nat) (i blo bhi : nat)
    (j2len newj2len : gmap nat nat) (best : nat * nat * nat) :
  j2len_within_b blo bhi j2len -> j2len_within_b blo bhi newj2len ->
  best_within_b blo bhi best ->
  let '(new', best') := flm_row js i blo bhi j2len newj2len best in
  j2len_within_b blo bhi new' /\ best_within_b blo bhi best'.
Proof.
  intros Hprev. revert newj2len best.
  induction js as [|j js IH]; intros newj2len best Hnew Hbest; cbn.
  - done.
  - case_decide; [by apply IH|]. case_decide; [done|].
    assert (j2len_before j2len j + 1 ≤ j + 1 - blo) as Hk.
    { unfold j2len_before. destruct j as [|j]; [lia|].
      destruct (j2len !! j) as [v|] eqn:E; cbn; [|lia].
      destruct (Hprev j v E) as (? & ? & ?). lia. }
    destruct best as [[besti bestj] bestsize].
    apply IH.
    + intros j' v. destruct (decide (j = j')) as [->|].
      * rewrite lookup_insert_eq. intros [= <-]. lia.
      * rewrite lookup_insert_ne by done. apply Hnew.
    + case_decide; [|done]. cbn. lia.
Qed.

Lemma flm_scan_within_b (alo ahi blo bhi : nat) :
  blo ≤ bhi -> best_within_b blo bhi (flm_scan a b2j alo ahi blo bhi).
Proof.
  intros Hle. unfold flm_scan.
  set (step := fun '(j2len, best) i =>
                 let js := default [] (a !! i ≫= fun x => b2j !! x) in
                 flm_row js i blo bhi j2len ∅ best).
  assert (forall l (state : gmap nat nat * (nat * nat * nat)),
            j2len_within_b blo bhi state.1 ->
            best_within_b blo bhi state.2 ->
            best_within_b blo bhi (foldl step state l).2) as Hrows.
  { induction l as [|i l IH]; intros [j2len best] Hj Hb; [done|].
    cbn [foldl].
    change (step (j2len, best) i)
      with (flm_row (default [] (a !! i ≫= fun x => b2j !! x))
              i blo bhi j2len ∅ best).
    pose proof (flm_row_within_b (default [] (a !! i ≫= fun x => b2j !! x))
                  i blo bhi j2len ∅ best Hj) as Hrow.
    destruct (flm_row _ i blo bhi j2len ∅ best) as [new' best'].
    destruct Hrow as [Hj' Hb']; [|done|by apply IH].
    intros j v. by rewrite lookup_empty. }
  apply Hrows; [|cbn; lia].
  intros j v. cbn. by rewrite lookup_empty.
Qed.

Lemma extend_down_within_b (alo blo besti bestj bestsize : nat) :
  blo ≤ bestj ->
  let '(_, bestj', bestsize') :=
    extend_down a b alo blo besti bestj bestsize in
  blo ≤ bestj' /\ bestj' + bestsize' = bestj + bestsize.
Proof.
  revert bestj bestsize.
  induction besti as [|besti IH]; intros bestj bestsize Hle; cbn.
  - destruct bestj; lia.
  - destruct bestj as [|bestj]; [lia|]. case_decide as Hc; [|lia].
    specialize (IH bestj (bestsize + 1) ltac:(lia)).
    destruct (extend_down a b alo blo besti bestj (bestsize + 1))
      as [[besti' bestj'] bestsize']. lia.
Qed.

Lemma extend_up_within_b (room ahi bhi besti bestj bestsize : nat) :
  bestj + bestsize ≤ bhi ->
  let '(_, bestj', bestsize') :=
    extend_up room a b ahi bhi besti bestj bestsize in
  bestj' = bestj /\ bestj + bestsize' ≤ bhi.
Proof.
  revert bestsize. induction room as [|room IH]; intros bestsize Hle; cbn.
  - done.
  - case_decide as Hc; [|done]. apply IH. lia.
Qed.

(** The block found lies inside the part of [b] that was searched. *)
Lemma find_longest_match_within_b (alo ahi blo bhi : nat) :
  blo ≤ bhi ->
  let '(_, j, k) := find_longest_match a b b2j alo ahi blo bhi in
  blo ≤ j /\ j + k ≤ bhi.
Proof.
  intros Hle. unfold find_longest_match.
  pose proof (flm_scan_within_b alo ahi blo bhi Hle) as Hscan.
  destruct (flm_scan a b2j alo ahi blo bhi) as [[besti bestj] bestsize].
  destruct Hscan as [H1 H2].
  pose proof (extend_down_within_b alo blo besti bestj bestsize H1) as Hdown.
  destruct (extend_down a b alo blo besti bestj bestsize)
    as [[besti1 bestj1] bestsize1].
  destruct Hdown as [H3 H4].
  pose proof (extend_up_within_b (ahi - (besti1 + bestsize1)) ahi bhi besti1
                bestj1 bestsize1 ltac:(lia)) as Hup.
  destruct (extend_up _ a b ahi bhi besti1 bestj1 bestsize1)
    as [[besti2 bestj2] bestsize2].
  lia.
Qed.

Lemma block_sizes_snoc blocks i j k :
  block_sizes (blocks ++ [(i, j, k)]) = block_sizes blocks + k.
Proof.
  unfold block_sizes. rewrite fmap_app, sum_list_with_app. cbn. lia.
Qed.

(** The blocks found never add up to more than the windows searched. *)
Lemma blocks_loop_sizes (rounds : nat)
    (queue : list (nat * nat * nat * nat))
    (matching_blocks : list (nat * nat * nat)) :
  queue_ok queue -> queue_ok_b queue ->
  block_sizes (blocks_loop rounds a b b2j queue matching_blocks)
    ≤ queue_span_a queue + block_sizes matching_blocks /\
  block_sizes (blocks_loop rounds a b b2j queue matching_blocks)
    ≤ queue_span_b queue + block_sizes matching_blocks.
Proof.
  revert queue matching_blocks.
  induction rounds as [|rounds IH]; intros queue matching_blocks Hok Hokb.
  - cbn [blocks_loop]. lia.
  - destruct queue as [|[[[alo ahi] blo] bhi] queue]; [cbn [blocks_loop]; lia|].
    apply Forall_cons in Hok as [Hle Hok].
    apply Forall_cons in Hokb as [Hleb Hokb].
    cbn [blocks_loop].
    pose proof (find_longest_match_within a b b2j alo ahi blo bhi Hle) as Hin.
    pose proof (find_longest_match_within_b alo ahi blo bhi Hleb) as Hinb.
    destruct (find_longest_match a b b2j alo ahi blo bhi) as [[i j] k].
    destruct Hin as [Hi Hk]. destruct Hinb as [Hj Hkb].
    unfold queue_span_a, queue_span_b in *. cbn [fmap list_fmap sum_list_with].
    case_decide as Hk0.
    + match goal with
      | |- context [blocks_loop rounds a b b2j ?q ?m] =>
          destruct (IH q m) as [IHa IHb]
      end.
      * repeat case_decide; repeat (apply Forall_cons; split); try done; lia.
      * repeat case_decide; repeat (apply Forall_cons; split); try done; lia.
      * rewrite block_sizes_snoc in IHa, IHb.
        repeat case_decide; cbn [fmap list_fmap sum_list_with] in *;
          unfold id in *; lia.
    + destruct (IH queue matching_blocks Hok Hokb) as [IHa IHb].
      unfold id in *. lia.
Qed.

Lemma collapse_sizes (i1 j1 k1 : nat) (blocks : list (nat * nat * nat)) :
  block_sizes (collapse i1 j1 k1 blocks) = k1 + block_sizes blocks.
Proof.
  unfold block_sizes. revert i1 j1 k1.
  induction blocks as [|[[i2 j2] k2] blocks IH]; intros i1 j1 k1;
    cbn [collapse].
  - case_decide; cbn; lia.
  - case_decide.
    + rewrite IH. cbn. lia.
    + rewrite fmap_app, sum_list_with_app, IH. case_decide; cbn; lia.
Qed.

End BlockSizes.

(** The matching blocks of two sequences never add up to more than either
    sequence holds. *)
Lemma get_matching_blocks_sizes `{Countable A} (a b : list A) :
  block_sizes (get_matching_blocks a b) ≤ length a /\
  block_sizes (get_matching_blocks a b) ≤ length b.
Proof.
  unfold get_matching_blocks.
  set (blocks := blocks_loop _ a b (chain_b b) _ []).
  assert (block_sizes (collapse 0 0 0 (merge_sort triple_le blocks)
                         ++ [(length a, length b, 0)])
          = block_sizes blocks) as ->.
  { rewrite block_sizes_snoc, collapse_sizes. unfold block_sizes.
    rewrite merge_sort_Permutation. lia. }
  subst blocks.
  destruct (blocks_loop_sizes a b (chain_b b) (2 * length a + 1)
              [(0, length a, 0, length b)] []) as [Ha Hb].
  - apply Forall_cons. split; [lia|constructor].
  - apply Forall_cons. split; [lia|constructor].
  - unfold queue_span_a, queue_span_b, block_sizes in *. cbn in *. lia.
Qed.

(** ** Scores between 0.0 and 1.0

    Integers below [2^53] convert to floats exactly; the quotient of two
    floats of 53 bits, the first not above the second, is not above [1.0];
    rounding a sum does not lift it above a float that bounds it. *)

Section UnitQuotients.
Local Open Scope Z_scope.

Lemma digits_unique p d : 2 ^ (d - 1) <= Z.pos p < 2 ^ d -> digits p = d.
Proof.
  intros [Hlo Hhi]. pose proof (digits_bound p) as [Hlo' Hhi'].
  pose proof (digits_pos p).
  destruct (Z.lt_trichotomy (digits p) d) as [Hlt|[E|Hgt]]; [|done|].
  - assert (2 ^ digits p <= 2 ^ (d - 1)) by (apply Z.pow_le_mono_r; lia).
    lia.
  - assert (0 <= d).
    { destruct (Z_lt_le_dec d 0) as [Hneg|]; [|done].
      rewrite (Z.pow_neg_r 2 d Hneg) in Hhi. lia. }
    assert (2 ^ d <= 2 ^ (digits p - 1)) by (apply Z.pow_le_mono_r; lia).
    lia.
Qed.

Lemma round_nearest_even_bounds m l :
  m <= round_nearest_even m l <= m + 1.
Proof.
  unfold round_nearest_even. destruct l as [|[| |]]; try lia.
  destruct (Z.even m); lia.
Qed.

Lemma finish_pow53 e :
  -1000 <= e <= 900 ->
  finish 9007199254740992 e = S754_finite false 4503599627370496 (e + 1).
Proof.
  intros He.
  destruct (finish_54 9007199254740992 0) as (m & _ & Hfin); [done|lia|].
  pose proof (Hfin 0 ltac:(lia)) as H0.
  assert (finish 9007199254740992 0
          = S754_finite false 4503599627370496 1) as E
    by (vm_compute; reflexivity).
  rewrite E in H0. injection H0 as <-. by apply Hfin.
Qed.

(** Rounding a mantissa of 53 bits: it stays, or it carries into [2^52]
    one exponent up. *)
Lemma round_finish_53 q l e :
  digits q = 53 -> -1000 <= e <= 900 ->
  exists m e2,
    finish (round_nearest_even (Z.pos q) l) e = S754_finite false m e2 /\
    digits m = 53 /\
    ((e2 = e /\ Z.pos m = round_nearest_even (Z.pos q) l) \/
     (e2 = e + 1 /\ m = 4503599627370496%positive /\
      Z.pos q = 9007199254740991 /\
      round_nearest_even (Z.pos q) l = 9007199254740992)).
Proof.
  intros Hq He.
  pose proof (round_nearest_even_bounds (Z.pos q) l) as Hb.
  destruct (round_nearest_even_pos q l) as (q1 & E & [Hd|Hd]);
    rewrite E in *.
  - exists q1, e. rewrite finish_53 by (done || lia). split; [done|].
    split; [lia|by left].
  - pose proof (digits_bound q) as Hbq. rewrite Hq in Hbq.
    pose proof (digits_bound q1) as Hbq1. rewrite Hd, Hq in Hbq1.
    change (2 ^ (53 + 1 - 1)) with 9007199254740992 in Hbq1.
    change (2 ^ 53) with 9007199254740992 in Hbq.
    assert (q1 = 9007199254740992%positive) as -> by lia.
    exists 4503599627370496%positive, (e + 1).
    rewrite finish_pow53 by done. split; [done|]. split; [done|].
    right. split; [done|]. split; [done|]. split; [lia|done].
Qed.

Lemma binary_round_aux_53 q e l :
  digits q = 53 -> -1000 <= e <= 900 ->
  exists m e2,
    binary_round_aux prec emax false (Z.pos q) e l = S754_finite false m e2 /\
    digits m = 53 /\
    (e2 = e \/ (e2 = e + 1 /\ m = 4503599627370496%positive)).
Proof.
  intros Hq He. rewrite binary_round_aux_finish.
  unfold shr_fexp, shr. cbn [Zdigits2]. fold (digits q).
  rewrite fexp_value, Hq.
  replace (Z.max (53 + e - 53) (-1074) - e) with 0 by lia.
  assert (shr_m (shr_record_of_loc (Z.pos q) l) = Z.pos q) as ->
    by (by destruct l as [|[]]).
  destruct (round_finish_53 q
              (loc_of_shr_record (shr_record_of_loc (Z.pos q) l)) e Hq He)
    as (m & e2 & -> & Hm & He2).
  exists m, e2. split; [done|]. split; [done|].
  destruct He2 as [[-> _]|(-> & -> & _)]; [by left|by right].
Qed.

Lemma binary_round_aux_54 q e l :
  digits q = 54 -> -1000 <= e <= 800 ->
  exists m e2,
    binary_round_aux prec emax false (Z.pos q) e l = S754_finite false m e2 /\
    digits m = 53 /\
    (e2 = e + 1 \/ (e2 = e + 2 /\ m = 4503599627370496%positive)).
Proof.
  intros Hq He. rewrite binary_round_aux_finish.
  unfold shr_fexp, shr. cbn [Zdigits2]. fold (digits q).
  rewrite fexp_value, Hq.
  replace (Z.max (54 + e - 53) (-1074) - e) with 1 by lia.
  cbn [SpecFloat.iter_pos].
  assert (exists r s, shr_record_of_loc (Z.pos q) l = rec (Z.pos q) r s)
    as (r & s & ->) by (destruct l as [|[]]; by eexists _, _).
  destruct (shr_1_digits q r s) as (q' & r' & s' & -> & Hq'); [lia|].
  cbn [shr_m].
  destruct (round_finish_53 q' (loc_of_shr_record (rec (Z.pos q') r' s'))
              (e + 1)) as (m & e2 & -> & Hm & He2); [lia|lia|].
  exists m, e2. split; [done|]. split; [done|].
  destruct He2 as [[-> _]|(-> & -> & _)]; [by left|right]. split; [lia|done].
Qed.

(** The quotient of two floats of 53 bits, the first not above the
    second, is not above [1.0]. *)
Lemma SF64div_unit lo mx ex my ey :
  digits mx = 53 -> digits my = 53 ->
  -400 <= ex <= 400 -> -400 <= ey <= 400 ->
  canon_le mx ex my ey -> lo <= ex - ey - 53 ->
  sf_unit lo (SF64div (S754_finite false mx ex) (S754_finite false my ey)).
Proof.
  intros Hmx Hmy Hex Hey Hle Hlo. unfold canon_le in *.
  destruct (decide (ex = ey /\ mx = my)) as [[-> ->]|Hne].
  { rewrite SF64div_self. right. eexists _, _. split; [done|].
    split; [done|]. split; [lia|]. right. split; [done|lia]. }
  pose proof (digits_bound mx) as Hbx. rewrite Hmx in Hbx.
  pose proof (digits_bound my) as Hby. rewrite Hmy in Hby.
  change (2 ^ (53 - 1)) with 4503599627370496 in *.
  change (2 ^ 53) with 9007199254740992 in *.
  unfold SF64div, SFdiv, SFdiv_core_binary. cbn [xorb Zdigits2].
  fold (digits mx). fold (digits my). rewrite Hmx, Hmy, fexp_value.
  replace (Z.min (Z.max (53 + ex - (53 + ey) - 53) (-1074)) (ex - ey))
    with (ex - ey - 53) by lia.
  replace (ex - ey - (ex - ey - 53)) with 53 by lia.
  rewrite Z.shiftl_mul_pow2 by lia.
  change (2 ^ 53) with 9007199254740992.
  destruct (Z.div_eucl (Z.pos mx * 9007199254740992) (Z.pos my))
    as [q r] eqn:E.
  pose proof (Z.div_eucl_eq (Z.pos mx * 9007199254740992) (Z.pos my)
                ltac:(lia)) as Heq.
  pose proof (Z.mod_pos_bound (Z.pos mx * 9007199254740992) (Z.pos my)
                ltac:(lia)) as Hb.
  unfold Z.modulo in Hb. rewrite E in Heq, Hb.
  assert (4503599627370496 <= q < 18014398509481984) as Hq by nia.
  destruct q as [|q|q]; [lia| |lia].
  set (l := new_location (Z.pos my) r).
  destruct (decide (Z.pos q < 9007199254740992)) as [Hsmall|Hbig].
  - assert (digits q = 53) as Hdq by (apply digits_unique; lia).
    destruct (binary_round_aux_53 q (ex - ey - 53) l Hdq)
      as (m & e2 & -> & Hm & He2); [lia|].
    right. exists m, e2. split; [done|]. split; [done|].
    unfold canon_le. destruct He2 as [->|[-> ->]]; (split; [lia|]); lia.
  - assert (digits q = 54) as Hdq.
    { apply digits_unique. change (2 ^ (54 - 1)) with 9007199254740992.
      change (2 ^ 54) with 18014398509481984. lia. }
    assert (ex < ey) as Hlt.
    { destruct Hle as [Hlt|[Hee Hle]]; [done|]. exfalso.
      assert (Z.pos mx <> Z.pos my) by (intros [= ->]; by apply Hne).
      nia. }
    destruct (binary_round_aux_54 q (ex - ey - 53) l Hdq)
      as (m & e2 & -> & Hm & He2); [lia|].
    right. exists m, e2. split; [done|]. split; [done|].
    unfold canon_le. destruct He2 as [->|[-> ->]]; (split; [lia|]); lia.
Qed.

(** The float of a positive integer below [2^53] is exact. *)
Lemma float_of_int_exact (n : nat) (p : positive) :
  Z.of_nat n = Z.pos p -> Z.pos p < 2 ^ 53 ->
  exists m,
    Prim2SF (float_of_int n) = S754_finite false m (digits p - 53) /\
    digits m = 53 /\ Z.pos m = Z.pos p * 2 ^ (53 - digits p).
Proof.
  intros Hn Hp. pose proof (digits_bound p) as [Hlo _].
  pose proof (digits_pos p).
  assert (digits p <= 53) as Hd.
  { destruct (Z_le_gt_dec (digits p) 53) as [|Hgt]; [done|].
    assert (2 ^ 53 <= 2 ^ (digits p - 1)) by (apply Z.pow_le_mono_r; lia).
    lia. }
  rewrite binary_normalize_float_of_int
    by (rewrite Hn; change (2 ^ 63) with 9223372036854775808;
        change (2 ^ 53) with 9007199254740992 in Hp; lia).
  rewrite Hn. unfold binary_normalize, binary_round. fold (digits p).
  rewrite fexp_value.
  replace (Z.max (digits p + 0 - 53) (-1074)) with (digits p - 53) by lia.
  unfold shl_align.
  destruct (digits p - 53 - 0) as [|k|k] eqn:Ek; [| lia |].
  - exists p. assert (digits p = 53) as E by lia. rewrite E.
    change (53 - 53) with 0.
    split; [by apply binary_round_aux_canonical|]. split; [done|]. lia.
  - assert (digits (Pos.iter xO p k) = 53) as Hmz
      by (rewrite digits_iter_xO; lia).
    exists (Pos.iter xO p k).
    split; [apply binary_round_aux_canonical; [done|lia]|].
    split; [done|].
    change (Pos.iter xO p k) with (shift_pos k p).
    rewrite shift_pos_correct, Z.pow_pos_fold.
    replace (53 - digits p) with (Z.pos k) by lia. lia.
Qed.
End UnitQuotients.

Section UnitScores.
Local Open Scope Z_scope.

Lemma digits_mono p q : Z.pos p <= Z.pos q -> digits p <= digits q.
Proof.
  intros Hle. pose proof (digits_bound p) as [Hp _].
  pose proof (digits_bound q) as [_ Hq]. pose proof (digits_pos q).
  destruct (Z_le_gt_dec (digits p) (digits q)) as [|Hgt]; [done|].
  assert (2 ^ digits q <= 2 ^ (digits p - 1)) by (apply Z.pow_le_mono_r; lia).
  lia.
Qed.

Lemma digits_le_53 p : Z.pos p < 2 ^ 53 -> digits p <= 53.
Proof.
  intros Hp. pose proof (digits_bound p) as [Hlo _].
  destruct (Z_le_gt_dec (digits p) 53) as [|Hgt]; [done|].
  assert (2 ^ 53 <= 2 ^ (digits p - 1)) by (apply Z.pow_le_mono_r; lia).
  lia.
Qed.

Lemma sf_unit_one : sf_unit (-110) (Prim2SF 1).
Proof.
  right. exists 4503599627370496%positive, (-52). split; [done|].
  split; [done|]. split; [lia|]. right. split; [done|lia].
Qed.

Lemma sf_unit_zero : sf_unit (-110) (Prim2SF 0).
Proof. by left. Qed.

Lemma leb_one_unit lo (x : float) :
  sf_unit lo (Prim2SF x) -> (x <=? 1)%float = true.
Proof.
  intros Hx. rewrite FloatAxioms.leb_spec.
  change (Prim2SF 1) with (S754_finite false 4503599627370496 (-52)).
  destruct Hx as [->|(m & e & -> & Hm & _ & [He|[-> Hle]])]; [done| |].
  - unfold SFleb, SFcompare.
    destruct (Z.compare_spec e (-52)) as [?|?|?]; (done || lia).
  - pose proof (digits_bound m) as Hb. rewrite Hm in Hb.
    change (2 ^ (53 - 1)) with 4503599627370496 in Hb.
    assert (m = 4503599627370496%positive) as -> by lia. done.
Qed.

Lemma quotient_unit (n t : nat) :
  (n <= t)%nat -> (0 < t)%nat -> Z.of_nat t < 2 ^ 53 ->
  sf_unit (-110) (Prim2SF (float_of_int n / float_of_int t)).
Proof.
  intros Hnt Ht Hbound. rewrite FloatAxioms.div_spec.
  destruct (Z.of_nat t) as [|pt|pt] eqn:Et; [lia| |lia].
  destruct (float_of_int_exact t pt Et Hbound) as (mt & -> & Hdt & Hmt).
  pose proof (digits_pos pt). pose proof (digits_le_53 pt Hbound).
  destruct (Z.of_nat n) as [|pn|pn] eqn:En; [| |lia].
  - assert (n = 0%nat) as -> by lia. by left.
  - assert (Z.pos pn <= Z.pos pt) as Hle by lia.
    destruct (float_of_int_exact n pn En ltac:(lia))
      as (mn & -> & Hdn & Hmn).
    pose proof (digits_pos pn). pose proof (digits_mono pn pt Hle).
    apply SF64div_unit; [done|done|lia|lia| |lia].
    unfold canon_le.
    destruct (Z.eq_dec (digits pn) (digits pt)) as [E|]; [right|left; lia].
    split; [lia|]. rewrite Hmn, Hmt, E.
    apply Z.mul_le_mono_nonneg_r; [|done]. apply Z.pow_nonneg. lia.
Qed.

Lemma double_quotient_unit (matches length : nat) :
  (2 * matches <= length)%nat -> (0 < length)%nat ->
  Z.of_nat length < 2 ^ 53 ->
  sf_unit (-110)
    (Prim2SF (2 * float_of_int matches / float_of_int length)).
Proof.
  intros Hml Hl Hbound.
  rewrite FloatAxioms.div_spec, FloatAxioms.mul_spec.
  destruct (Z.of_nat length) as [|pl|pl] eqn:El; [lia| |lia].
  destruct (float_of_int_exact length pl El Hbound) as (ml & -> & Hdl & Hml').
  pose proof (digits_pos pl). pose proof (digits_le_53 pl Hbound).
  destruct (Z.of_nat matches) as [|pm|pm] eqn:Em; [| |lia].
  - assert (matches = 0%nat) as -> by lia. by left.
  - assert (Z.pos pm~0 <= Z.pos pl) as Hle by lia.
    destruct (float_of_int_exact matches pm Em ltac:(lia))
      as (mm & -> & Hdm & Hmm).
    pose proof (digits_pos pm). pose proof (digits_mono pm~0 pl Hle) as Hd.
    rewrite digits_xO in Hd.
    change (Prim2SF 2) with (S754_finite false 4503599627370496 (-51)).
    rewrite SF64mul_two by (done || lia).
    apply SF64div_unit; [done|done|lia|lia| |lia].
    unfold canon_le.
    destruct (Z.eq_dec (digits pm + 1) (digits pl)) as [E|]; [right|left; lia].
    split; [lia|]. rewrite Hmm, Hml'.
    replace (53 - digits pm) with (53 - digits pl + 1) by lia.
    rewrite Z.pow_add_r by lia.
    assert (0 <= 2 ^ (53 - digits pl)) by (apply Z.pow_nonneg; lia).
    nia.
Qed.
End UnitScores.

Lemma ratio_unit `{Countable A} (a b : list A) :
  (Z.of_nat (length a + length b) < 2 ^ 53)%Z ->
  sf_unit (-110) (Prim2SF (ratio a b)).
Proof.
  intros Hlen. unfold ratio, _calculate_ratio.
  case_decide; [|apply sf_unit_one].
  destruct (get_matching_blocks_sizes a b) as [Ha Hb].
  unfold block_sizes in *.
  apply double_quotient_unit; [lia|lia|done].
Qed.

Lemma word_level_unit (wo wd : list str) :
  (Z.of_nat (length wo + length wd) < 2 ^ 53)%Z ->
  sf_unit (-110) (Prim2SF (word_level wo wd)).
Proof.
  intros Hlen. unfold word_level.
  repeat case_decide; [apply sf_unit_one|apply sf_unit_zero|].
  by apply ratio_unit.
Qed.

Lemma token_set_level_unit (wo wd : list str) :
  (Z.of_nat (length wo + length wd) < 2 ^ 53)%Z ->
  sf_unit (-110) (Prim2SF (token_set_level wo wd)).
Proof.
  intros Hlen. pose proof (size_union_le_length wo wd) as Hsz.
  unfold token_set_level. repeat case_decide; try apply sf_unit_one.
  apply quotient_unit; [| |lia].
  - apply subseteq_size. intros w. rewrite elem_of_intersection, elem_of_union.
    tauto.
  - destruct (decide (size (list_to_set wo ∪ list_to_set wd : gset str) = 0))
      as [Hz%size_empty_inv|]; [|lia].
    exfalso. by apply leibniz_equiv in Hz.
Qed.

Section Sums.
Local Open Scope Z_scope.

Lemma pow2_split a b : 0 <= a <= b -> 2 ^ b = 2 ^ a * 2 ^ (b - a).
Proof. intros. rewrite <-Z.pow_add_r by lia. f_equal. lia. Qed.

Lemma pow2_ge_2 a : 1 <= a -> 2 <= 2 ^ a.
Proof.
  intros. change 2 with (2 ^ 1) at 1. apply Z.pow_le_mono_r; lia.
Qed.

Lemma digits_53_bounds m :
  digits m = 53 -> 4503599627370496 <= Z.pos m < 9007199254740992.
Proof. intros Hm. pose proof (digits_bound m) as Hb. by rewrite Hm in Hb. Qed.

Lemma scale_lt m B Y Z :
  4503599627370496 <= m -> B < 9007199254740992 -> 0 < Y -> 2 <= Z ->
  B * Y < m * (Y * Z).
Proof.
  intros Hm HB HY HZ.
  assert (2 * Y <= Y * Z) by nia.
  assert (m * (2 * Y) <= m * (Y * Z))
    by (apply Z.mul_le_mono_nonneg_l; lia).
  nia.
Qed.

(** The order of the mantissa-exponent pairs is the order of the values. *)
Lemma canon_lt_value lo m e B eB :
  digits m = 53 -> digits B = 53 -> lo <= e -> lo <= eB ->
  Z.pos m * 2 ^ (e - lo) < Z.pos B * 2 ^ (eB - lo) ->
  e < eB \/ (e = eB /\ Z.pos m < Z.pos B).
Proof.
  intros Hm HB He HeB Hlt.
  apply digits_53_bounds in Hm, HB.
  assert (0 < 2 ^ (eB - lo)) by (apply Z.pow_pos_nonneg; lia).
  destruct (Z.lt_trichotomy e eB) as [?|[->|Hgt]]; [by left|right|exfalso].
  - split; [done|]. nia.
  - rewrite (pow2_split (eB - lo) (e - lo)) in Hlt by lia.
    pose proof (pow2_ge_2 (e - lo - (eB - lo)) ltac:(lia)).
    pose proof (scale_lt (Z.pos m) (Z.pos B) (2 ^ (eB - lo))
                  (2 ^ (e - lo - (eB - lo)))). lia.
Qed.

Lemma canon_le_value lo m e B eB :
  digits m = 53 -> digits B = 53 -> lo <= e -> lo <= eB ->
  canon_le m e B eB <->
  Z.pos m * 2 ^ (e - lo) <= Z.pos B * 2 ^ (eB - lo).
Proof.
  intros Hm HB He HeB. unfold canon_le.
  pose proof (digits_53_bounds m Hm). pose proof (digits_53_bounds B HB).
  assert (0 < 2 ^ (eB - lo)) by (apply Z.pow_pos_nonneg; lia).
  assert (0 < 2 ^ (e - lo)) by (apply Z.pow_pos_nonneg; lia).
  split.
  - intros [Hlt|[-> Hle]]; [|nia].
    rewrite (pow2_split (e - lo) (eB - lo)) by lia.
    pose proof (pow2_ge_2 (eB - lo - (e - lo)) ltac:(lia)).
    pose proof (scale_lt (Z.pos B) (Z.pos m) (2 ^ (e - lo))
                  (2 ^ (eB - lo - (e - lo)))). lia.
  - intros Hle.
    destruct (Z.lt_trichotomy e eB) as [?|[->|Hgt]]; [by left|right|exfalso].
    + split; [done|]. nia.
    + rewrite (pow2_split (eB - lo) (e - lo)) in Hle by lia.
      pose proof (pow2_ge_2 (e - lo - (eB - lo)) ltac:(lia)).
      pose proof (scale_lt (Z.pos m) (Z.pos B) (2 ^ (eB - lo))
                    (2 ^ (e - lo - (eB - lo)))). lia.
Qed.

Lemma sf_below_weaken lo B1 e1 B2 e2 x :
  digits B1 = 53 -> digits B2 = 53 -> lo <= e1 -> lo <= e2 ->
  Z.pos B1 * 2 ^ (e1 - lo) <= Z.pos B2 * 2 ^ (e2 - lo) ->
  sf_below lo B1 e1 x -> sf_below lo B2 e2 x.
Proof.
  intros HB1 HB2 He1 He2 Hle [->|(m & e & -> & Hm & He & Hc)]; [by left|].
  right. exists m, e. split; [done|]. split; [done|]. split; [done|].
  apply (canon_le_value lo) in Hc; [|done..].
  apply (canon_le_value lo); [done..|]. lia.
Qed.

(** What [n] shifts to the right leave of a mantissa, and when nothing is
    lost. *)
Lemma shr_iter_value (n : nat) P :
  Z.of_nat n < digits P ->
  exists q r s rem,
    Nat.iter n shr_1 (rec (Z.pos P) false false) = rec (Z.pos q) r s /\
    digits q = digits P - Z.of_nat n /\
    Z.pos P = Z.pos q * 2 ^ Z.of_nat n + rem /\
    0 <= rem < 2 ^ Z.of_nat n /\
    (rem = 0 -> r = false /\ s = false).
Proof.
  induction n as [|n IH]; intros Hn; simpl Nat.iter.
  - exists P, false, false, 0. split; [done|]. split; [lia|].
    split; [lia|]. split; [by cbn|done].
  - destruct IH as (q & r & s & rem & -> & Hq & HP & Hrem & Hexact); [lia|].
    assert (0 < 2 ^ Z.of_nat n) by (apply Z.pow_pos_nonneg; lia).
    rewrite Nat2Z.inj_succ, Z.pow_succ_r by lia.
    destruct q as [p|p|]; cbn [shr_1].
    + exists p, true, (r || s)%bool, (2 ^ Z.of_nat n + rem).
      split; [done|]. rewrite digits_xI in Hq.
      split; [lia|]. split; [lia|]. split; [lia|]. lia.
    + exists p, false, (r || s)%bool, rem.
      split; [done|]. rewrite digits_xO in Hq.
      split; [lia|]. split; [lia|]. split; [lia|].
      intros Hz. destruct (Hexact Hz) as [-> ->]. done.
    + change (digits 1) with 1 in Hq. lia.
Qed.

Lemma shr_fexp_shift P e K :
  digits P = 53 + Z.pos K -> -1000 <= e ->
  shr_fexp prec emax (Z.pos P) e loc_Exact
  = (SpecFloat.iter_pos shr_1 K (rec (Z.pos P) false false), e + Z.pos K).
Proof.
  intros HP He. unfold shr_fexp, shr. cbn [Zdigits2]. fold (digits P).
  rewrite fexp_value, HP.
  replace (Z.max (53 + Z.pos K + e - 53) (-1074) - e) with (Z.pos K) by lia.
  done.
Qed.

(** Rounding to 53 bits does not lift a value above a float that it was
    not above. *)
Lemma binary_round_below lo P e0 B eB :
  53 <= digits P -> digits B = 53 ->
  lo <= e0 -> lo <= eB -> -500 <= e0 -> digits P + e0 <= 500 ->
  Z.pos P * 2 ^ (e0 - lo) <= Z.pos B * 2 ^ (eB - lo) ->
  sf_below lo B eB (binary_round prec emax false P e0).
Proof.
  intros HdP HB Hlo HloB He0 Hhi Hle.
  unfold binary_round. fold (digits P). rewrite fexp_value.
  replace (Z.max (digits P + e0 - 53) (-1074)) with (e0 + (digits P - 53))
    by lia.
  unfold shl_align.
  replace (e0 + (digits P - 53) - e0) with (digits P - 53) by lia.
  destruct (digits P - 53) as [|K|K] eqn:EK; [| |lia].
  - assert (digits P = 53) as HP by lia.
    rewrite binary_round_aux_canonical by (done || lia).
    right. exists P, e0. split; [done|]. split; [done|]. split; [done|].
    by apply (canon_le_value lo).
  - rewrite binary_round_aux_finish, (shr_fexp_shift P e0 K) by lia.
    rewrite iter_pos_nat.
    destruct (shr_iter_value (Pos.to_nat K) P)
      as (q & r & s & rem & -> & Hq & HP & Hrem & Hexact);
      [rewrite positive_nat_Z; lia|].
    rewrite positive_nat_Z in *. cbn [shr_m].
    assert (digits q = 53) as Hdq by lia.
    set (l := loc_of_shr_record (rec (Z.pos q) r s)).
    assert (round_nearest_even (Z.pos q) l = Z.pos q \/ 0 < rem) as Hround.
    { destruct r, s; try (right;
        destruct (Z.eq_dec rem 0) as [Hz|]; [by destruct (Hexact Hz)|lia]).
      by left. }
    pose proof (round_nearest_even_bounds (Z.pos q) l) as Hb.
    assert (0 < 2 ^ (e0 - lo)) by (apply Z.pow_pos_nonneg; lia).
    assert (2 ^ (e0 + Z.pos K - lo) = 2 ^ Z.pos K * 2 ^ (e0 - lo)) as Hpow.
    { rewrite <-Z.pow_add_r by lia. f_equal. lia. }
    assert (0 < rem ->
            e0 + Z.pos K < eB \/
            (e0 + Z.pos K = eB /\ Z.pos q < Z.pos B)) as Hstrict.
    { intros Hpos. apply (canon_lt_value lo); [done|done|lia|done|].
      rewrite Hpow. nia. }
    destruct (round_finish_53 q l (e0 + Z.pos K) Hdq)
      as (m & e2 & -> & Hm & He2); [lia|].
    right. exists m, e2. split; [done|]. split; [done|].
    destruct He2 as [[-> Hval]|(-> & -> & Hq53 & Hcarry)].
    + split; [lia|]. destruct Hround as [Hsame|Hpos].
      * apply (canon_le_value lo); [done|done|lia|done|].
        rewrite Hval, Hsame, Hpow. nia.
      * unfold canon_le. destruct (Hstrict Hpos) as [?|[? ?]]; [by left|].
        right. split; [done|]. lia.
    + split; [lia|]. destruct Hround as [Hsame|Hpos]; [lia|].
      pose proof (digits_53_bounds B HB).
      unfold canon_le. destruct (Hstrict Hpos) as [?|[? ?]]; [|lia].
      destruct (Z.eq_dec (e0 + Z.pos K + 1) eB) as [E|]; [right|left; lia].
      split; [done|]. lia.
Qed.

Lemma shl_align_value mx ex ez :
  ez <= ex -> Z.pos (fst (shl_align mx ex ez)) = Z.pos mx * 2 ^ (ex - ez).
Proof.
  intros Hle. unfold shl_align.
  destruct (ez - ex) as [|p|p] eqn:E; cbn [fst]; [|lia|].
  - replace (ex - ez) with 0 by lia. lia.
  - change (Pos.iter xO mx p) with (shift_pos p mx).
    rewrite shift_pos_correct, Z.pow_pos_fold.
    replace (ex - ez) with (Z.pos p) by lia. lia.
Qed.

(** The sum of two floats, each not above a float of its own, is not
    above a float that the two bounds do not exceed together. *)
Lemma SF64add_below lo B1 e1 B2 e2 B3 e3 x y :
  digits B1 = 53 -> digits B2 = 53 -> digits B3 = 53 ->
  -400 <= lo -> lo <= e1 -> lo <= e2 -> lo <= e3 -> e3 <= 400 ->
  Z.pos B1 * 2 ^ (e1 - lo) + Z.pos B2 * 2 ^ (e2 - lo)
    <= Z.pos B3 * 2 ^ (e3 - lo) ->
  sf_below lo B1 e1 x -> sf_below lo B2 e2 y ->
  sf_below lo B3 e3 (SF64add x y).
Proof.
  intros HB1 HB2 HB3 Hlo He1 He2 He3 Hhi Hsum Hx Hy.
  assert (0 < Z.pos B1 * 2 ^ (e1 - lo))
    by (apply Z.mul_pos_pos; [lia|apply Z.pow_pos_nonneg; lia]).
  assert (0 < Z.pos B2 * 2 ^ (e2 - lo))
    by (apply Z.mul_pos_pos; [lia|apply Z.pow_pos_nonneg; lia]).
  destruct Hx as [->|(mx & ex & -> & Hmx & Hex & Hcx)].
  { destruct Hy as [->|(my & ey & -> & Hmy & Hey & Hcy)]; [by left|].
    apply (sf_below_weaken lo B2 e2); [done..|lia|].
    right. by eexists _, _. }
  destruct Hy as [->|(my & ey & -> & Hmy & Hey & Hcy)].
  { apply (sf_below_weaken lo B1 e1); [done..|lia|].
    right. by eexists _, _. }
  apply (canon_le_value lo) in Hcx, Hcy; [|done..].
  unfold SF64add, SFadd. cbn [cond_Zopp].
  set (ez := Z.min ex ey).
  pose proof (shl_align_value mx ex ez ltac:(lia)) as Ha.
  pose proof (shl_align_value my ey ez ltac:(lia)) as Hb.
  destruct (shl_align mx ex ez) as [a ea].
  destruct (shl_align my ey ez) as [b eb]. cbn [fst] in *.
  change (Z.pos a + Z.pos b) with (Z.pos (a + b)).
  cbn [binary_normalize].
  assert (0 < 2 ^ (ex - ez)) by (apply Z.pow_pos_nonneg; lia).
  assert (0 < 2 ^ (ey - ez)) by (apply Z.pow_pos_nonneg; lia).
  assert (0 < 2 ^ (ez - lo)) by (apply Z.pow_pos_nonneg; lia).
  assert (Z.pos (a + b) * 2 ^ (ez - lo)
          = Z.pos mx * 2 ^ (ex - lo) + Z.pos my * 2 ^ (ey - lo)) as Hval.
  { rewrite Pos2Z.inj_add, Ha, Hb.
    rewrite (pow2_split (ez - lo) (ex - lo)) by lia.
    rewrite (pow2_split (ez - lo) (ey - lo)) by lia.
    replace (ex - lo - (ez - lo)) with (ex - ez) by lia.
    replace (ey - lo - (ez - lo)) with (ey - ez) by lia. ring. }
  assert (53 <= digits (a + b)) as Hd.
  { rewrite <-Hmx. apply digits_mono. nia. }
  assert (digits (a + b) + ez <= 54 + e3) as Hd'.
  { pose proof (digits_bound (a + b)) as [Hlow _].
    pose proof (digits_53_bounds B3 HB3) as [_ HB3'].
    destruct (Z_le_gt_dec (digits (a + b) + ez) (54 + e3)) as [|Hgt]; [done|].
    exfalso.
    assert (2 ^ (53 + (e3 - lo)) <= 2 ^ (digits (a + b) - 1 + (ez - lo)))
      as Hpow by (apply Z.pow_le_mono_r; lia).
    rewrite !Z.pow_add_r in Hpow by lia.
    change (2 ^ 53) with 9007199254740992 in Hpow.
    assert (0 < 2 ^ (e3 - lo)) by (apply Z.pow_pos_nonneg; lia).
    nia. }
  apply binary_round_below; [done|done|lia|done|lia|lia|].
  rewrite Hval. lia.
Qed.

(** A third of the sum of three floats that are not above [1.0] is not
    above [1.0]. *)
Lemma hybrid_unit (c w t : float) :
  sf_unit (-110) (Prim2SF c) -> sf_unit (-110) (Prim2SF w) ->
  sf_unit (-110) (Prim2SF t) ->
  sf_unit (-170) (Prim2SF ((c + w + t) / 3)).
Proof.
  intros Hc Hw Ht.
  rewrite FloatAxioms.div_spec, !FloatAxioms.add_spec.
  assert (sf_below (-110) 4503599627370496 (-51)
            (SF64add (Prim2SF c) (Prim2SF w))) as Hcw.
  { apply (SF64add_below (-110) 4503599627370496 (-52)
             4503599627370496 (-52)); try done; lia. }
  assert (sf_below (-110) 6755399441055744 (-51)
            (SF64add (SF64add (Prim2SF c) (Prim2SF w)) (Prim2SF t))) as Hcwt.
  { apply (SF64add_below (-110) 4503599627370496 (-51)
             4503599627370496 (-52)); try done; lia. }
  change (Prim2SF 3) with (S754_finite false 6755399441055744 (-51)).
  destruct Hcwt as [->|(m & e & -> & Hm & He & Hle)]; [by left|].
  apply SF64div_unit; try done; unfold canon_le in Hle; lia.
Qed.
End Sums.

Lemma sf_below_lower lo lo' B eB x :
  (lo' <= lo)%Z -> sf_below lo B eB x -> sf_below lo' B eB x.
Proof.
  intros Hlo [->|(m & e & -> & Hm & He & Hle)]; [by left|].
  right. exists m, e. split; [done|]. split; [done|]. split; [lia|done].
Qed.

Lemma leb_zero_below lo B eB (x : float) :
  sf_below lo B eB (Prim2SF x) -> (0 <=? x)%float = true.
Proof.
  intros Hx. rewrite FloatAxioms.leb_spec.
  change (Prim2SF 0) with (S754_zero false).
  by destruct Hx as [->|(m & e & -> & _)].
Qed.

Lemma final_by_unit (m : str) (c w t : float) :
  sf_unit (-110) (Prim2SF c) -> sf_unit (-110) (Prim2SF w) ->
  sf_unit (-110) (Prim2SF t) ->
  sf_unit (-170) (Prim2SF (final_by m c w t)).
Proof.
  intros Hc Hw Ht. unfold final_by.
  repeat case_decide;
    try (by eapply sf_below_lower; [|eassumption]).
  by apply hybrid_unit.
Qed.

Section UnitInterval.
Context `{StrBuiltins}.

(** X17: every score lies between [0.0] and [1.0]: the final score of each
    of the four methods and the three component scores are numbers (no
    NaN) with [0.0 <= score <= 1.0], for texts whose normalized lengths
    add up to less than [2^53] characters. *)
Theorem scores_in_unit_interval (original decoded : str)
    (ignore_case collapse_whitespace : bool) (m name label : str)
    (log_name : option str) (results_file : str) (fs : FileSystem) :
  let original_norm := normalize ignore_case collapse_whitespace original in
  let decoded_norm := normalize ignore_case collapse_whitespace decoded in
  (Z.of_nat (length original_norm + length decoded_norm) < 2 ^ 53)%Z ->
  str_lower m ∈ ScoringMethod ->
  exists r,
    compute_detailed_score original decoded ignore_case collapse_whitespace
      m name label = Ok r /\
    fst (score_decoded_text original decoded ignore_case collapse_whitespace
           m log_name label results_file fs) = Ok (score r) /\
    fst (WordSalat.score_decoded_text original decoded ignore_case
           collapse_whitespace m log_name label results_file fs)
      = Ok (score r) /\
    Forall (fun x => (0 <=? x)%float = true /\ (x <=? 1)%float = true)
      [score r; char_score r; word_score r; token_set_score r].
Proof.
  intros original_norm decoded_norm Hlen Hm.
  rewrite score_decoded_text_Ok, WordSalat_score_decoded_text_Ok by done.
  rewrite compute_detailed_score_Ok by done. cbn [fst].
  fold original_norm decoded_norm.
  pose proof (length_findall original_norm) as Hwo.
  pose proof (length_findall decoded_norm) as Hwd.
  pose proof (ratio_unit original_norm decoded_norm Hlen) as Hc.
  pose proof (word_level_unit (findall original_norm)
                (findall decoded_norm) ltac:(lia)) as Hw.
  pose proof (token_set_level_unit (findall original_norm)
                (findall decoded_norm) ltac:(lia)) as Ht.
  pose proof (final_by_unit (str_lower m) _ _ _ Hc Hw Ht) as Hf.
  eexists. split; [reflexivity|]. split; [done|]. split; [done|].
  cbn [score char_score word_score token_set_score].
  repeat (apply Forall_cons; split;
          [split; [by eapply leb_zero_below|by eapply leb_one_unit]|]).
  constructor.
Qed.
End UnitInterval.

(** ** The numbers of a logged row *)

Lemma short_numerals :
  forallb short_numeral (N.of_nat <$> seq 0 (100 * 100)) = true.
Proof. vm_compute. reflexivity. Qed.

Lemma decimal_small (n : N) :
  (n < 10000)%N ->
  1 ≤ length (decimal n) ≤ 4 /\ Forall is_digit (decimal n).
Proof.
  intros Hn. pose proof short_numerals as Hall.
  rewrite forallb_forall in Hall.
  specialize (Hall n). unfold short_numeral in Hall.
  rewrite !andb_true_iff, !Nat.leb_le, forallb_forall in Hall.
  destruct Hall as [[? ?] Hdigits].
  { apply list_elem_of_In, list_elem_of_fmap. exists (N.to_nat n).
    split; [lia|]. apply elem_of_seq. lia. }
  split; [lia|]. apply Forall_forall. intros c Hc%list_elem_of_In.
  specialize (Hdigits c Hc).
  rewrite andb_true_iff, !N.leb_le in Hdigits. done.
Qed.

Section Shape.
Local Open Scope Z_scope.

Lemma round_half_even_unit m e :
  digits m = 53 -> canon_le m e 4503599627370496 (-52) ->
  0 <= round_half_even (Z.pos m * 10000) e <= 10000.
Proof.
  intros Hm Hle. unfold canon_le in Hle.
  pose proof (digits_53_bounds m Hm) as Hb.
  unfold round_half_even.
  replace (0 <=? e) with false by (symmetry; apply Z.leb_gt; lia).
  set (d := 2 ^ (- e)).
  assert (9007199254740992 <= d \/
          (d = 4503599627370496 /\ Z.pos m = 4503599627370496)) as Hd.
  { destruct Hle as [Hlt|[-> Hmle]].
    - left. change 9007199254740992 with (2 ^ 53).
      apply Z.pow_le_mono_r; lia.
    - right. split; [done|lia]. }
  assert (0 < d) by lia.
  pose proof (Z.div_mod (Z.pos m * 10000) d ltac:(lia)) as Hdm.
  pose proof (Z.mod_pos_bound (Z.pos m * 10000) d ltac:(lia)) as Hr.
  set (q := Z.pos m * 10000 / d) in *.
  set (r := (Z.pos m * 10000) mod d) in *.
  assert (0 <= q) by (apply Z.div_pos; lia).
  assert (q <= 9999 \/ (q = 10000 /\ r = 0)) as Hq.
  { destruct Hd as [Hbig|[Hd Hm52]]; [left; nia|]. right. nia. }
  destruct Hq as [Hq|[-> ->]].
  - repeat destruct (_ <? _); try destruct (Z.even q); lia.
  - replace (2 * 0 <? d) with true by (symmetry; apply Z.ltb_lt; lia). lia.
Qed.
End Shape.

Lemma format_4f_unit lo (x : float) :
  sf_unit lo (Prim2SF x) -> fixed_4f (format_4f x).
Proof.
  intros Hx. unfold format_4f.
  destruct Hx as [->|(m & e & -> & Hm & He & Hle)].
  { exists 48%N, 48%N, 48%N, 48%N, 48%N. split; [done|]. split; [by left|].
    repeat constructor; unfold is_digit; lia. }
  destruct (round_half_even_unit m e Hm Hle) as [Hlo Hhi].
  set (scaled := Z.to_N (round_half_even (Z.pos m * 10000) e)).
  assert (Z.of_N scaled = round_half_even (Z.pos m * 10000) e) as Hsz
    by (unfold scaled; apply Z2N.id; lia).
  assert (scaled <= 10000)%N as Hs by lia.
  clearbody scaled. clear Hsz.
  assert ((scaled mod 10000 < 10000)%N) as Hfrac
    by (apply N.mod_upper_bound; lia).
  destruct (decimal_small (scaled mod 10000) Hfrac) as [Hlen Hdigits].
  set (frac := decimal (scaled mod 10000)) in *.
  set (padded := replicate (4 - length frac) 48%N ++ frac).
  assert (length padded = 4) as Hpl.
  { unfold padded. rewrite length_app, length_replicate.
    unfold char in *. lia. }
  assert (Forall is_digit padded) as Hpd.
  { unfold padded. apply Forall_app. split; [|done].
    apply Forall_replicate. unfold is_digit. lia. }
  assert (exists d0, decimal (scaled / 10000) = [d0] /\
                     (d0 = 48%N \/ d0 = 49%N)) as (d0 & -> & Hd0).
  { assert (scaled / 10000 = 0 \/ scaled / 10000 = 1)%N as [-> | ->].
    { assert (scaled / 10000 <= 1)%N as Hq
        by (apply N.Div0.div_le_upper_bound; lia).
      destruct (scaled / 10000)%N as [|[p|p|]]; [by left|lia|lia|by right]. }
    - exists 48%N. split; [done|by left].
    - exists 49%N. split; [done|by right]. }
  destruct padded as [|d1 [|d2 [|d3 [|d4 [|? ?]]]]] eqn:E; try done.
  exists d0, d1, d2, d3, d4. split; [|done].
  reflexivity.
Qed.

Section LoggedScores.
Context `{StrBuiltins}.

(** X18: the four numbers of a logged row have a fixed shape: each score of
    a result is written by [to_markdown_row] as [0] or [1], a point and
    four digits, never as [nan], [inf], a negative number or a longer
    numeral. *)
Theorem logged_scores_fixed_width (original decoded : str)
    (ignore_case collapse_whitespace : bool) (m name label : str) :
  let original_norm := normalize ignore_case collapse_whitespace original in
  let decoded_norm := normalize ignore_case collapse_whitespace decoded in
  (Z.of_nat (length original_norm + length decoded_norm) < 2 ^ 53)%Z ->
  str_lower m ∈ ScoringMethod ->
  exists r t1 t2 t3 t4,
    compute_detailed_score original decoded ignore_case collapse_whitespace
      m name label = Ok r /\
    to_markdown_row r
    = lit "| " ++ name ++ lit " | `" ++ label ++ lit "` | `" ++ str_lower m
        ++ lit "` | " ++ t1 ++ lit " | " ++ t2 ++ lit " | " ++ t3
        ++ lit " | " ++ t4 ++ lit " |" /\
    Forall fixed_4f [t1; t2; t3; t4].
Proof.
  intros original_norm decoded_norm Hlen Hm.
  rewrite compute_detailed_score_Ok by done.
  fold original_norm decoded_norm.
  pose proof (length_findall original_norm) as Hwo.
  pose proof (length_findall decoded_norm) as Hwd.
  pose proof (ratio_unit original_norm decoded_norm Hlen) as Hc.
  pose proof (word_level_unit (findall original_norm)
                (findall decoded_norm) ltac:(lia)) as Hw.
  pose proof (token_set_level_unit (findall original_norm)
                (findall decoded_norm) ltac:(lia)) as Ht.
  pose proof (final_by_unit (str_lower m) _ _ _ Hc Hw Ht) as Hf.
  eexists _, _, _, _, _. split; [reflexivity|].
  split; [reflexivity|].
  cbn [score char_score word_score token_set_score].
  repeat (apply Forall_cons; split; [by eapply format_4f_unit|]).
  constructor.
Qed.
End LoggedScores.

(** ** Perfect scores

    A quotient of two different floats of 53 bits is not [1.0]; the blocks
    that [get_matching_blocks] finds hold the same elements in both
    sequences, and cover both only when the sequences are equal. *)

Section StrictQuotients.
Local Open Scope Z_scope.

Lemma binary_round_aux_53_carry q e l :
  digits q = 53 -> -1000 <= e <= 900 ->
  exists m e2,
    binary_round_aux prec emax false (Z.pos q) e l = S754_finite false m e2 /\
    (e2 = e \/ (e2 = e + 1 /\ Z.pos q = 9007199254740991)).
Proof.
  intros Hq He. rewrite binary_round_aux_finish.
  unfold shr_fexp, shr. cbn [Zdigits2]. fold (digits q).
  rewrite fexp_value, Hq.
  replace (Z.max (53 + e - 53) (-1074) - e) with 0 by lia.
  assert (shr_m (shr_record_of_loc (Z.pos q) l) = Z.pos q) as ->
    by (by destruct l as [|[]]).
  destruct (round_finish_53 q
              (loc_of_shr_record (shr_record_of_loc (Z.pos q) l)) e Hq He)
    as (m & e2 & -> & Hm & He2).
  exists m, e2. split; [done|].
  destruct He2 as [[-> _]|(-> & _ & Hq53 & _)]; [by left|by right].
Qed.

Lemma binary_round_aux_54_carry q e l :
  digits q = 54 -> -1000 <= e <= 800 ->
  exists m e2,
    binary_round_aux prec emax false (Z.pos q) e l = S754_finite false m e2 /\
    (e2 = e + 1 \/
     (e2 = e + 2 /\
      exists r s,
        shr_1 (shr_record_of_loc (Z.pos q) l)
          = rec 9007199254740991 r s /\
        round_nearest_even 9007199254740991
          (loc_of_shr_record (rec 9007199254740991 r s))
          = 9007199254740992)).
Proof.
  intros Hq He. rewrite binary_round_aux_finish.
  unfold shr_fexp, shr. cbn [Zdigits2]. fold (digits q).
  rewrite fexp_value, Hq.
  replace (Z.max (54 + e - 53) (-1074) - e) with 1 by lia.
  cbn [SpecFloat.iter_pos].
  assert (exists r s, shr_record_of_loc (Z.pos q) l = rec (Z.pos q) r s)
    as (r & s & ->) by (destruct l as [|[]]; by eexists _, _).
  destruct (shr_1_digits q r s) as (q' & r' & s' & -> & Hq'); [lia|].
  cbn [shr_m].
  destruct (round_finish_53 q' (loc_of_shr_record (rec (Z.pos q') r' s'))
              (e + 1)) as (m & e2 & -> & Hm & He2); [lia|lia|].
  exists m, e2. split; [done|].
  destruct He2 as [[-> _]|(-> & _ & Hq53 & Hcarry)]; [by left|right].
  split; [lia|]. exists r', s'. rewrite Hq53 in *. done.
Qed.

(** The quotient of two floats of 53 bits, the first below the second, is
    not [1.0]. *)
Lemma SF64div_not_one mx ex my ey :
  digits mx = 53 -> digits my = 53 ->
  -400 <= ex <= 400 -> -400 <= ey <= 400 ->
  canon_lt mx ex my ey ->
  SF64div (S754_finite false mx ex) (S754_finite false my ey)
  <> S754_finite false 4503599627370496 (-52).
Proof.
  intros Hmx Hmy Hex Hey Hlt. unfold canon_lt in Hlt.
  pose proof (digits_53_bounds mx Hmx) as Hbx.
  pose proof (digits_53_bounds my Hmy) as Hby.
  unfold SF64div, SFdiv, SFdiv_core_binary. cbn [xorb Zdigits2].
  fold (digits mx). fold (digits my). rewrite Hmx, Hmy, fexp_value.
  replace (Z.min (Z.max (53 + ex - (53 + ey) - 53) (-1074)) (ex - ey))
    with (ex - ey - 53) by lia.
  replace (ex - ey - (ex - ey - 53)) with 53 by lia.
  rewrite Z.shiftl_mul_pow2 by lia.
  change (2 ^ 53) with 9007199254740992.
  destruct (Z.div_eucl (Z.pos mx * 9007199254740992) (Z.pos my))
    as [q r] eqn:E.
  pose proof (Z.div_eucl_eq (Z.pos mx * 9007199254740992) (Z.pos my)
                ltac:(lia)) as Heq.
  pose proof (Z.mod_pos_bound (Z.pos mx * 9007199254740992) (Z.pos my)
                ltac:(lia)) as Hb.
  unfold Z.modulo in Hb. rewrite E in Heq, Hb.
  assert (4503599627370496 <= q <= 18014398509481982) as Hq by nia.
  destruct q as [|q|q]; [lia| |lia].
  destruct (decide (Z.pos q < 9007199254740992)) as [Hsmall|Hbig].
  - assert (digits q = 53) as Hdq by (apply digits_unique; lia).
    destruct (binary_round_aux_53_carry q (ex - ey - 53)
                (new_location (Z.pos my) r) Hdq)
      as (m & e2 & -> & He2); [lia|].
    intros [= -> He2']. destruct He2 as [->|[-> Hq53]]; [lia|].
    assert (ex = ey) as -> by lia.
    destruct Hlt as [?|[_ Hlt]]; [lia|]. nia.
  - assert (digits q = 54) as Hdq.
    { apply digits_unique. change (2 ^ (54 - 1)) with 9007199254740992.
      change (2 ^ 54) with 18014398509481984. lia. }
    assert (ex < ey) as Hee.
    { destruct Hlt as [?|[-> Hlt]]; [done|]. exfalso. nia. }
    destruct (binary_round_aux_54_carry q (ex - ey - 53)
                (new_location (Z.pos my) r) Hdq)
      as (m & e2 & -> & He2); [lia|].
    intros [= -> He2'].
    destruct He2 as [->|[-> (r' & s' & Hshr & Hcarry)]]; [lia|].
    assert (Z.pos q = 18014398509481982) as Hq54.
    { destruct (shr_record_of_loc (Z.pos q) (new_location (Z.pos my) r))
        as [m0 r0 s0] eqn:Hrec.
      assert (m0 = Z.pos q) as -> by (by destruct (new_location _ _) as [|[]];
        cbn in Hrec; injection Hrec as <- _ _).
      destruct q as [q'|q'|]; cbn [shr_1] in Hshr;
        injection Hshr as Hq' _ _; lia. }
    assert (r = 0) by nia. subst r.
    assert (new_location (Z.pos my) 0 = loc_Exact) as Hloc.
    { unfold new_location, new_location_even, new_location_odd.
      by destruct (Z.even (Z.pos my)). }
    rewrite Hloc in Hshr.
    assert (q = 18014398509481982%positive) as -> by lia.
    cbn in Hshr. injection Hshr as <- <-. cbn in Hcarry. lia.
Qed.
End StrictQuotients.

Section StrictScores.
Local Open Scope Z_scope.

Lemma quotient_not_one (n t : nat) :
  (n < t)%nat -> Z.of_nat t < 2 ^ 53 ->
  (float_of_int n / float_of_int t)%float <> 1%float.
Proof.
  intros Hnt Hbound Heq. apply (f_equal Prim2SF) in Heq.
  rewrite FloatAxioms.div_spec in Heq.
  change (Prim2SF 1) with (S754_finite false 4503599627370496 (-52)) in Heq.
  destruct (Z.of_nat t) as [|pt|pt] eqn:Et; [lia| |lia].
  destruct (float_of_int_exact t pt Et Hbound) as (mt & Ht & Hdt & Hmt).
  rewrite Ht in Heq.
  pose proof (digits_pos pt). pose proof (digits_le_53 pt Hbound).
  destruct (Z.of_nat n) as [|pn|pn] eqn:En; [| |lia].
  - assert (n = 0%nat) as -> by lia. done.
  - assert (Z.pos pn < Z.pos pt) as Hlt by lia.
    destruct (float_of_int_exact n pn En ltac:(lia))
      as (mn & Hn & Hdn & Hmn).
    rewrite Hn in Heq.
    pose proof (digits_pos pn).
    pose proof (digits_mono pn pt ltac:(lia)).
    revert Heq. apply SF64div_not_one; [done|done|lia|lia|].
    unfold canon_lt.
    destruct (Z.eq_dec (digits pn) (digits pt)) as [E|]; [right|left; lia].
    split; [lia|]. rewrite Hmn, Hmt, E.
    apply Z.mul_lt_mono_pos_r; [|done]. apply Z.pow_pos_nonneg; lia.
Qed.

Lemma double_quotient_not_one (matches length : nat) :
  (2 * matches < length)%nat -> Z.of_nat length < 2 ^ 53 ->
  (2 * float_of_int matches / float_of_int length)%float <> 1%float.
Proof.
  intros Hml Hbound Heq. apply (f_equal Prim2SF) in Heq.
  rewrite FloatAxioms.div_spec, FloatAxioms.mul_spec in Heq.
  change (Prim2SF 1) with (S754_finite false 4503599627370496 (-52)) in Heq.
  destruct (Z.of_nat length) as [|pl|pl] eqn:El; [lia| |lia].
  destruct (float_of_int_exact length pl El Hbound) as (ml & Hl & Hdl & Hml').
  rewrite Hl in Heq.
  pose proof (digits_pos pl). pose proof (digits_le_53 pl Hbound).
  destruct (Z.of_nat matches) as [|pm|pm] eqn:Em; [| |lia].
  - assert (matches = 0%nat) as -> by lia. done.
  - assert (Z.pos pm~0 < Z.pos pl) as Hlt by lia.
    destruct (float_of_int_exact matches pm Em ltac:(lia))
      as (mm & Hm & Hdm & Hmm).
    rewrite Hm in Heq.
    pose proof (digits_pos pm).
    pose proof (digits_mono pm~0 pl ltac:(lia)) as Hd.
    rewrite digits_xO in Hd.
    change (Prim2SF 2) with (S754_finite false 4503599627370496 (-51)) in Heq.
    rewrite SF64mul_two in Heq by (done || lia).
    revert Heq. apply SF64div_not_one; [done|done|lia|lia|].
    unfold canon_lt.
    destruct (Z.eq_dec (digits pm + 1) (digits pl)) as [E|]; [right|left; lia].
    split; [lia|]. rewrite Hmm, Hml'.
    replace (53 - digits pm) with (53 - digits pl + 1) by lia.
    rewrite Z.pow_add_r by lia.
    assert (0 < 2 ^ (53 - digits pl)) by (apply Z.pow_pos_nonneg; lia).
    nia.
Qed.
End StrictScores.

Section BlockContents.
Context `{Countable A}.
Variables (a b : list A) (b2j : gmap A (list nat)).
Hypothesis b2j_indices : b2j_sound b b2j.

Lemma flm_row_matches (js : list nat) (i blo bhi : nat)
    (j2len newj2len : gmap nat nat) (best : nat * nat * nat) :
  (forall j, j ∈ js -> a !! i = b !! j) ->
  j2len_runs a b i j2len -> j2len_runs a b (S i) newj2len ->
  block_matches a b best.1.1 best.1.2 best.2 ->
  let '(new', best') := flm_row js i blo bhi j2len newj2len best in
  j2len_runs a b (S i) new' /\ block_matches a b best'.1.1 best'.1.2 best'.2.
Proof.
  intros Hjs Hprev. revert newj2len best Hjs.
  induction js as [|j js IH]; intros newj2len best Hjs Hnew Hbest;
    cbn [flm_row].
  - done.
  - assert (forall j', j' ∈ js -> a !! i = b !! j') as Hjs'
      by (intros j' Hj'; apply Hjs; by right).
    assert (a !! i = b !! j) as Hij by (apply Hjs; by left).
    case_decide; [by apply IH|]. case_decide; [done|].
    set (k := j2len_before j2len j + 1).
    assert (k ≤ S i /\ k ≤ j + 1 /\
            forall t, t < k -> a !! (S i - 1 - t) = b !! (j - t)) as Hk.
    { subst k. unfold j2len_before. destruct j as [|j0].
      - split; [lia|]. split; [lia|]. intros t Ht.
        replace t with 0 by lia. by replace (S i - 1 - 0) with i by lia.
      - destruct (j2len !! j0) as [v|] eqn:E; cbn [from_option id].
        + destruct (Hprev j0 v E) as (Hv1 & Hv2 & Hrun).
          split; [lia|]. split; [lia|]. intros [|t] Ht.
          * by replace (S i - 1 - 0) with i by lia.
          * replace (S i - 1 - S t) with (i - 1 - t) by lia.
            replace (S j0 - S t) with (j0 - t) by lia. apply Hrun. lia.
        + split; [lia|]. split; [lia|]. intros t Ht.
          replace t with 0 by lia. by replace (S i - 1 - 0) with i by lia. }
    destruct Hk as (Hk1 & Hk2 & Hrun).
    destruct best as [[besti bestj] bestsize].
    apply IH; [done| |].
    + intros j' v. destruct (decide (j = j')) as [<-|].
      * rewrite lookup_insert_eq. by intros [= <-].
      * rewrite lookup_insert_ne by done. apply Hnew.
    + case_decide; [|done]. cbn. intros t Ht.
      replace (i + 1 - k + t) with (S i - 1 - (k - 1 - t)) by lia.
      replace (j + 1 - k + t) with (j - (k - 1 - t)) by lia.
      apply Hrun. lia.
Qed.

Lemma flm_scan_matches (alo ahi blo bhi : nat) :
  let '(besti, bestj, bestsize) := flm_scan a b2j alo ahi blo bhi in
  block_matches a b besti bestj bestsize.
Proof.
  unfold flm_scan.
  set (step := fun '(j2len, best) i =>
                 let js := default [] (a !! i ≫= fun x => b2j !! x) in
                 flm_row js i blo bhi j2len ∅ best).
  assert (forall n i (state : gmap nat nat * (nat * nat * nat)),
            j2len_runs a b i state.1 ->
            block_matches a b state.2.1.1 state.2.1.2 state.2.2 ->
            let best := (foldl step state (seq i n)).2 in
            block_matches a b best.1.1 best.1.2 best.2) as Hrows.
  { induction n as [|n IH]; intros i [j2len best] Hj Hb; [done|].
    cbn [seq foldl].
    change (step (j2len, best) i)
      with (flm_row (default [] (a !! i ≫= fun x => b2j !! x))
              i blo bhi j2len ∅ best).
    pose proof (flm_row_matches (default [] (a !! i ≫= fun x => b2j !! x))
                  i blo bhi j2len ∅ best) as Hrow.
    destruct (flm_row _ i blo bhi j2len ∅ best) as [new' best'].
    destruct Hrow as [Hj' Hb']; [| | |done|by apply IH].
    - intros j. destruct (a !! i) as [x|] eqn:Ex; cbn;
        [|by intros ?%elem_of_nil].
      destruct (b2j !! x) as [js|] eqn:Ejs; cbn;
        [|by intros ?%elem_of_nil].
      intros Hj0. symmetry. by apply (b2j_indices x js).
    - done.
    - intros j v. by rewrite lookup_empty. }
  specialize (Hrows (ahi - alo) alo (∅, (alo, blo, 0))).
  cbn zeta in Hrows.
  destruct (foldl step (∅, (alo, blo, 0)) (seq alo (ahi - alo))).2
    as [[besti bestj] bestsize].
  apply Hrows.
  - intros j v. cbn. by rewrite lookup_empty.
  - intros t Ht. cbn in Ht. lia.
Qed.

Lemma extend_down_matches (alo blo besti bestj bestsize : nat) :
  block_matches a b besti bestj bestsize ->
  let '(besti', bestj', bestsize') :=
    extend_down a b alo blo besti bestj bestsize in
  block_matches a b besti' bestj' bestsize'.
Proof.
  revert bestj bestsize.
  induction besti as [|besti IH]; intros bestj bestsize Hm; cbn.
  - by destruct bestj.
  - destruct bestj as [|bestj]; [done|]. case_decide as Hc; [|done].
    apply IH. intros [|t] Ht.
    + rewrite !Nat.add_0_r. apply Hc.
    + replace (besti + S t) with (S besti + t) by lia.
      replace (bestj + S t) with (S bestj + t) by lia. apply Hm. lia.
Qed.

Lemma extend_up_matches (room ahi bhi besti bestj bestsize : nat) :
  block_matches a b besti bestj bestsize ->
  let '(besti', bestj', bestsize') :=
    extend_up room a b ahi bhi besti bestj bestsize in
  block_matches a b besti' bestj' bestsize'.
Proof.
  revert bestsize. induction room as [|room IH]; intros bestsize Hm; cbn.
  - done.
  - case_decide as Hc; [|done]. apply IH. intros t Ht.
    destruct (decide (t = bestsize)) as [->|]; [apply Hc|]. apply Hm. lia.
Qed.

(** The block found holds the same elements in [a] and in [b]. *)
Lemma find_longest_match_matches (alo ahi blo bhi : nat) :
  let '(i, j, k) := find_longest_match a b b2j alo ahi blo bhi in
  block_matches a b i j k.
Proof.
  unfold find_longest_match.
  pose proof (flm_scan_matches alo ahi blo bhi) as Hscan.
  destruct (flm_scan a b2j alo ahi blo bhi) as [[besti bestj] bestsize].
  pose proof (extend_down_matches alo blo besti bestj bestsize Hscan) as Hdown.
  destruct (extend_down a b alo blo besti bestj bestsize)
    as [[besti1 bestj1] bestsize1].
  apply (extend_up_matches _ ahi bhi besti1 bestj1 bestsize1 Hdown).
Qed.

Lemma queue_room_diagonal queue :
  queue_diagonal queue -> queue_room queue = queue_span_a queue.
Proof.
  unfold queue_room, queue_span_a.
  induction 1 as [|[[[alo ahi] blo] bhi] queue (-> & -> & _) _ IH]; [done|].
  cbn. rewrite IH. unfold id. lia.
Qed.

Lemma queue_diagonal_ok queue :
  queue_diagonal queue -> queue_ok queue /\ queue_ok_b queue.
Proof.
  unfold queue_ok, queue_ok_b.
  induction 1 as [|[[[alo ahi] blo] bhi] queue (-> & -> & ?) _ [IH1 IH2]].
  - by split.
  - split; by constructor.
Qed.

(** The blocks found never add up to more than fits the windows searched. *)
Lemma blocks_loop_room (rounds : nat)
    (queue : list (nat * nat * nat * nat))
    (matching_blocks : list (nat * nat * nat)) :
  queue_ok queue -> queue_ok_b queue ->
  block_sizes (blocks_loop rounds a b b2j queue matching_blocks)
    ≤ queue_room queue + block_sizes matching_blocks.
Proof.
  revert queue matching_blocks.
  induction rounds as [|rounds IH]; intros queue matching_blocks Hok Hokb.
  - cbn [blocks_loop]. lia.
  - destruct queue as [|[[[alo ahi] blo] bhi] queue]; [cbn [blocks_loop]; lia|].
    apply Forall_cons in Hok as [Hle Hok].
    apply Forall_cons in Hokb as [Hleb Hokb].
    cbn [blocks_loop].
    pose proof (find_longest_match_within a b b2j alo ahi blo bhi Hle) as Hin.
    pose proof (find_longest_match_within_b a b b2j alo ahi blo bhi Hleb)
      as Hinb.
    destruct (find_longest_match a b b2j alo ahi blo bhi) as [[i j] k].
    destruct Hin as [Hi Hk]. destruct Hinb as [Hj Hkb].
    unfold queue_room in *. cbn [fmap list_fmap sum_list_with].
    case_decide as Hk0.
    + match goal with
      | |- context [blocks_loop rounds a b b2j ?q ?m] =>
          pose proof (IH q m) as IHq
      end.
      rewrite block_sizes_snoc in IHq.
      etrans; [apply IHq|].
      * repeat case_decide; repeat (apply Forall_cons; split); try done; lia.
      * repeat case_decide; repeat (apply Forall_cons; split); try done; lia.
      * repeat case_decide; cbn [fmap list_fmap sum_list_with] in *;
          unfold id in *; lia.
    + pose proof (IH queue matching_blocks Hok Hokb) as IHq.
      unfold id in *. lia.
Qed.

(** When the blocks found fill the windows searched, the windows hold the
    same elements in [a] and in [b]. *)
Lemma blocks_loop_full (rounds : nat)
    (queue : list (nat * nat * nat * nat))
    (matching_blocks : list (nat * nat * nat)) :
  queue_diagonal queue ->
  block_sizes (blocks_loop rounds a b b2j queue matching_blocks)
    = queue_span_a queue + block_sizes matching_blocks ->
  queue_agrees a b queue.
Proof.
  revert queue matching_blocks.
  induction rounds as [|rounds IH]; intros queue matching_blocks Hdiag Hfull.
  - cbn [blocks_loop] in Hfull.
    assert (queue_span_a queue = 0) as Hzero by lia. clear Hfull.
    unfold queue_agrees, queue_span_a, sum_list in *.
    induction Hdiag as [|[[[alo ahi] blo] bhi] queue _ _ IHq];
      [constructor|].
    cbn [fmap list_fmap sum_list_with] in Hzero. unfold id in *.
    constructor; [intros p; lia|].
    apply IHq. lia.
  - destruct queue as [|[[[alo ahi] blo] bhi] queue]; [constructor|].
    apply Forall_cons in Hdiag as [(<- & <- & Hle) Hdiag].
    pose proof (queue_diagonal_ok queue Hdiag) as [Hok Hokb].
    cbn [blocks_loop] in Hfull.
    pose proof (find_longest_match_within a b b2j alo ahi alo ahi Hle) as Hin.
    pose proof (find_longest_match_within_b a b b2j alo ahi alo ahi Hle)
      as Hinb.
    pose proof (find_longest_match_matches alo ahi alo ahi) as Hmatch.
    destruct (find_longest_match a b b2j alo ahi alo ahi) as [[i j] k].
    destruct Hin as [Hi Hk]. destruct Hinb as [Hj Hkb].
    unfold queue_span_a in Hfull. cbn [fmap list_fmap sum_list_with] in Hfull.
    fold (queue_span_a queue) in Hfull.
    case_decide as Hk0.
    + match type of Hfull with
      | context [blocks_loop rounds a b b2j ?q ?m] =>
          set (queue' := q) in *; set (blocks' := m) in *
      end.
      assert (queue_ok queue' /\ queue_ok_b queue') as [Hok' Hokb'].
      { subst queue'. split;
          repeat case_decide; repeat (apply Forall_cons; split); try done;
          lia. }
      pose proof (blocks_loop_room rounds queue' blocks' Hok' Hokb') as Hroom.
      assert (block_sizes blocks' = block_sizes matching_blocks + k) as Hb'
        by apply block_sizes_snoc.
      rewrite <-(queue_room_diagonal queue Hdiag) in Hfull.
      assert (i = j) as <-.
      { subst queue'. unfold queue_room in *.
        repeat case_decide; cbn [fmap list_fmap sum_list_with] in *;
          unfold id in *; lia. }
      assert (queue_diagonal queue' /\
              queue_room queue' = ahi - alo - k + queue_room queue /\
              (alo < i -> (alo, i, alo, i) ∈ queue') /\
              (i + k < ahi -> (i + k, ahi, i + k, ahi) ∈ queue'))
        as (Hdiag' & Hroom' & Hleft & Hright).
      { subst queue'. unfold queue_room in *.
        repeat case_decide; cbn [fmap list_fmap sum_list_with] in *;
          unfold id in *;
          (split; [repeat (apply Forall_cons; split); try done; lia|]);
          (split; [lia|]);
          split; intros ?; try lia; rewrite ?elem_of_cons; auto. }
      assert (queue_agrees a b queue') as Hagree.
      { apply (IH queue' blocks' Hdiag').
        rewrite <-(queue_room_diagonal queue' Hdiag'). unfold id in *. lia. }
      unfold queue_agrees in *. rewrite Forall_forall in Hagree.
      apply Forall_cons. split.
      * intros p Hp1 Hp2.
        destruct (decide (p < i)) as [Hlt|Hge].
        { apply (Hagree (alo, i, alo, i)); [apply Hleft; lia|lia|done]. }
        destruct (decide (p < i + k)) as [Hin|Hout].
        { replace p with (i + (p - i)) by lia. apply Hmatch. lia. }
        apply (Hagree (i + k, ahi, i + k, ahi)); [apply Hright; lia|lia|done].
      * apply Forall_forall. intros w Hw. apply Hagree.
        subst queue'. repeat case_decide; rewrite ?elem_of_cons; auto.
    + pose proof (blocks_loop_room rounds queue matching_blocks Hok Hokb)
        as Hroom.
      rewrite (queue_room_diagonal queue Hdiag) in Hroom. unfold id in *.
      apply Forall_cons. split; [intros p; lia|].
      apply (IH queue matching_blocks Hdiag). lia.
Qed.
End BlockContents.

Lemma chain_b_sound `{Countable A} (b : list A) : b2j_sound b (chain_b b).
Proof.
  intros x js j Hx Hj. apply chain_b_raw in Hx.
  destruct (raw_b2j_spec b) as [Hspec _].
  destruct (Hspec x js Hx) as [_ Hjs]. by apply Hjs.
Qed.

(** Two sequences whose matching blocks cover both of them are the same
    sequence. *)
Lemma get_matching_blocks_full `{Countable A} (a b : list A) :
  2 * block_sizes (get_matching_blocks a b) = length a + length b -> a = b.
Proof.
  intros Hfull.
  destruct (get_matching_blocks_sizes a b) as [Ha Hb].
  assert (length a = length b) as Hlen by lia.
  revert Hfull Ha Hb. unfold get_matching_blocks.
  set (blocks := blocks_loop _ a b (chain_b b) _ []).
  assert (block_sizes (collapse 0 0 0 (merge_sort triple_le blocks)
                         ++ [(length a, length b, 0)])
          = block_sizes blocks) as ->.
  { rewrite block_sizes_snoc, collapse_sizes. unfold block_sizes.
    rewrite merge_sort_Permutation. lia. }
  intros Hfull _ _. subst blocks.
  pose proof (blocks_loop_full a b (chain_b b) (chain_b_sound b)
                (2 * length a + 1) [(0, length a, 0, length b)] []) as Hagree.
  apply Forall_cons in Hagree as [Hagree _].
  - apply list_eq. intros p. destruct (decide (p < length a)) as [Hp|Hp].
    + apply Hagree; [lia|done].
    + rewrite !lookup_ge_None_2; [done|lia|lia].
  - apply Forall_cons. split; [lia|constructor].
  - unfold queue_span_a, block_sizes in *. cbn in *. lia.
Qed.

(** A ratio of [1.0] is reached by equal sequences only. *)
Lemma ratio_one `{Countable A} (a b : list A) :
  (Z.of_nat (length a + length b) < 2 ^ 53)%Z ->
  ratio a b = 1%float -> a = b.
Proof.
  intros Hlen. unfold ratio, _calculate_ratio.
  fold (block_sizes (get_matching_blocks a b)).
  destruct (get_matching_blocks_sizes a b) as [Ha Hb].
  case_decide as Hpos.
  - intros Hone. apply get_matching_blocks_full.
    destruct (decide (2 * block_sizes (get_matching_blocks a b)
                      < length a + length b)) as [Hlt|]; [|lia].
    by destruct (double_quotient_not_one _ _ Hlt Hlen).
  - intros _. destruct a, b; cbn in Hpos; (done || lia).
Qed.

Lemma float_zero_not_one : 0%float <> 1%float.
Proof. intros Heq. by apply (f_equal Prim2SF) in Heq. Qed.

Lemma word_level_one (wo wd : list str) :
  (Z.of_nat (length wo + length wd) < 2 ^ 53)%Z ->
  word_level wo wd = 1%float -> wo = wd.
Proof.
  intros Hlen. unfold word_level.
  case_decide as Hboth; [by destruct Hboth as [-> ->]|].
  case_decide; [by intros ?%float_zero_not_one|].
  by apply ratio_one.
Qed.

Lemma token_set_level_one (wo wd : list str) :
  (Z.of_nat (length wo + length wd) < 2 ^ 53)%Z ->
  token_set_level wo wd = 1%float -> forall w, w ∈ wo <-> w ∈ wd.
Proof.
  intros Hlen. rewrite token_set_level_sets. cbn zeta.
  pose proof (size_union_le_length wo wd) as Hsz.
  set (so := list_to_set wo : gset str) in *.
  set (sd := list_to_set wd : gset str) in *.
  assert (so = sd -> forall w, w ∈ wo <-> w ∈ wd) as Hsets.
  { intros Heq w. subst so sd.
    by rewrite <-(elem_of_list_to_set (C:=gset str) w wo), Heq,
      elem_of_list_to_set. }
  assert (so ∩ sd ⊆ so ∪ sd) as Hsub.
  { intros w. rewrite elem_of_intersection, elem_of_union. tauto. }
  case_decide as Hunion.
  - unfold int_truediv. intros Hone. apply Hsets.
    destruct (decide (size (so ∩ sd) < size (so ∪ sd))) as [Hlt|Hge].
    { by destruct (quotient_not_one _ _ Hlt ltac:(lia)). }
    pose proof (subseteq_size _ _ Hsub).
    pose proof (set_subseteq_size_eq _ _ Hsub ltac:(lia)) as Heq.
    apply set_eq. intros w.
    assert (w ∈ so ∩ sd <-> w ∈ so ∪ sd) as Hw by (by rewrite Heq).
    rewrite elem_of_intersection, elem_of_union in Hw. tauto.
  - intros _. apply Hsets.
    assert (so ∪ sd = ∅) as Hempty.
    { destruct (decide (so ∪ sd = ∅)) as [|Hne]; [done|]. by destruct Hunion. }
    apply set_eq. intros w.
    assert (w ∉ so ∪ sd) as Hw by (rewrite Hempty; apply not_elem_of_empty).
    rewrite elem_of_union in Hw. tauto.
Qed.

Section PerfectScores.
Context `{StrBuiltins}.

(** X19: a perfect score is reached by the same text only.  For texts whose
    normalized lengths add up to less than [2^53] characters, the character
    score is [1.0] exactly when the two normalized texts are equal, the word
    score exactly when they hold the same words in the same order, and the
    token-set score exactly when every word of one occurs in the other.
    With the method [char] the score returned is [1.0] only for equal
    normalized texts. *)
Theorem perfect_score_same_text (original decoded : str)
    (ignore_case collapse_whitespace : bool) (m name label : str)
    (log_name : option str) (results_file : str) (fs : FileSystem) :
  let original_norm := normalize ignore_case collapse_whitespace original in
  let decoded_norm := normalize ignore_case collapse_whitespace decoded in
  (Z.of_nat (length original_norm + length decoded_norm) < 2 ^ 53)%Z ->
  str_lower m ∈ ScoringMethod ->
  exists r,
    compute_detailed_score original decoded ignore_case collapse_whitespace
      m name label = Ok r /\
    (char_score r = 1%float <-> original_norm = decoded_norm) /\
    (word_score r = 1%float <-> findall original_norm = findall decoded_norm) /\
    (token_set_score r = 1%float <->
       forall w, w ∈ findall original_norm <-> w ∈ findall decoded_norm) /\
    (str_lower m = lit "char" ->
       (fst (score_decoded_text original decoded ignore_case
               collapse_whitespace m log_name label results_file fs)
          = Ok 1%float <-> original_norm = decoded_norm)).
Proof.
  intros original_norm decoded_norm Hlen Hm.
  rewrite score_decoded_text_Ok by done.
  rewrite compute_detailed_score_Ok by done.
  fold original_norm decoded_norm.
  pose proof (length_findall original_norm) as Hwo.
  pose proof (length_findall decoded_norm) as Hwd.
  eexists. split; [reflexivity|].
  cbn [char_score word_score token_set_score].
  assert (ratio original_norm decoded_norm = 1%float
          <-> original_norm = decoded_norm) as Hchar.
  { split; [by apply ratio_one|]. intros <-. apply ratio_same. lia. }
  split; [done|]. split; [|split].
  - split; [apply word_level_one; lia|]. intros <-.
    apply word_level_same. lia.
  - split; [apply token_set_level_one; lia|]. intros Hsame.
    rewrite (token_set_level_proper _ (findall decoded_norm) _
               (findall decoded_norm) Hsame) by done.
    apply token_set_level_same. lia.
  - intros ->. unfold final_by. rewrite decide_True by done.
    rewrite <-Hchar. split; [by intros [= ->]|by intros ->].
Qed.
End PerfectScores.

(** ** The theorems at concrete inputs *)

(** The two vectors of [tests/test_core.py] and [tests/test_word_salat.py],
    on the generator of CPython. *)
Example scramble_text_seed_123 (entropy : MersenneTwister.state) :
  scramble_text (lit "The quick brown fox jumps over the lazy dog.")
    (Some 123%Z) entropy
  = Ok (lit "The qciuk bworn fox jpmus oevr the lzay dog.").
Proof. vm_compute. reflexivity. Qed.

Example scramble_text_seed_2025 (entropy : MersenneTwister.state) :
  scramble_text
    (lit "Obwohl verschlungene Worte verbl" ++ [252%N]
       ++ lit "ffen, bleibt der Sinn f" ++ [252%N]
       ++ lit "r Menschen erstaunlich klar.")
    (Some 2025%Z) entropy
  = Ok (lit "Ohwobl vnugrhlcneese Wtroe vb" ++ [252%N]
          ++ lit "fflreen, bebilt der Snin f" ++ [252%N]
          ++ lit "r Mhcseenn esailurntch kalr.").
Proof. vm_compute. reflexivity. Qed.

(** Without a seed the text depends on what the operating system supplies. *)
Example scramble_text_unseeded :
  scramble_text (lit "scramble") None (MersenneTwister.seed 1)
  ≠ scramble_text (lit "scramble") None (MersenneTwister.seed 2).
Proof. vm_compute. discriminate. Qed.

(** An index out of range is an [IndexError], as it is in Python. *)
Example _attempt_shuffle_out_of_range :
  _attempt_shuffle (lit "abc") [1; 7] (MersenneTwister.seed 42)
    MAX_SHUFFLE_ATTEMPTS
  = Raise IndexError.
Proof. vm_compute. reflexivity. Qed.

Lemma scramble_word_long_witness :
  3 < length (lit "scramble") /\
  exists w' rng',
    scramble_word (lit "scramble") (MersenneTwister.seed 7) = Ok (w', rng') /\
    length w' = length (lit "scramble") /\
    w' !! 0 = lit "scramble" !! 0 /\
    last w' = last (lit "scramble") /\
    (length (lit "scramble") mod 2 = 1 ->
       w' !! (length (lit "scramble") / 2)
       = lit "scramble" !! (length (lit "scramble") / 2)) /\
    interior w' ≡ₚ interior (lit "scramble").
Proof.
  split; [vm_compute; lia|].
  apply (scramble_word_long (lit "scramble") (MersenneTwister.seed 7)
           MersenneTwister_in_range).
  vm_compute; lia.
Defined.

Lemma scramble_word_short_witness :
  length (lit "the") ≤ 3 /\
  scramble_word (lit "the") (MersenneTwister.seed 12)
  = Ok (lit "the", MersenneTwister.seed 12).
Proof.
  split; [vm_compute; lia|].
  apply (scramble_word_short (lit "the") (MersenneTwister.seed 12)).
  vm_compute; lia.
Defined.

Lemma scramble_text_preserves_witness :
  exists out,
    scramble_text (lit "Hello, world! 42") (Some 7%Z) (MersenneTwister.seed 0)
      = Ok out /\
    length out = length (lit "Hello, world! 42") /\
    (forall i c, is_word_char c = false ->
       out !! i = Some c <-> lit "Hello, world! 42" !! i = Some c) /\
    filter (fun c => is_word_char c = false) out
      = filter (fun c => is_word_char c = false) (lit "Hello, world! 42").
Proof.
  apply (scramble_text_preserves (lit "Hello, world! 42") (Some 7%Z)
           (MersenneTwister.seed 0) MersenneTwister_in_range).
Defined.

Lemma scramble_text_deterministic_witness :
  exists out,
    scramble_text (lit "Hello, world! 42") (Some 7%Z) (MersenneTwister.seed 1)
      = Ok out /\
    scramble_text (lit "Hello, world! 42") (Some 7%Z) (MersenneTwister.seed 2)
      = Ok out.
Proof.
  apply (scramble_text_deterministic (lit "Hello, world! 42") 7%Z
           (MersenneTwister.seed 1) (MersenneTwister.seed 2)
           MersenneTwister_in_range).
Defined.

Lemma _attempt_shuffle_bounded_witness :
  Forall (fun i => i < length (lit "abcdef")) [1; 2; 3; 4] /\
  exists subset, getitems (lit "abcdef") [1; 2; 3; 4] = Ok subset /\
    (length [1; 2; 3; 4] ≤ 1 ->
       _attempt_shuffle (lit "abcdef") [1; 2; 3; 4] (MersenneTwister.seed 42)
         MAX_SHUFFLE_ATTEMPTS
       = Ok (lit "abcdef", MersenneTwister.seed 42)) /\
    ((forall c c', c ∈ subset -> c' ∈ subset -> c = c') ->
       _attempt_shuffle (lit "abcdef") [1; 2; 3; 4] (MersenneTwister.seed 42)
         MAX_SHUFFLE_ATTEMPTS
       = Ok (lit "abcdef", MersenneTwister.seed 42)) /\
    (exists out rng' k,
       _attempt_shuffle (lit "abcdef") [1; 2; 3; 4] (MersenneTwister.seed 42)
         MAX_SHUFFLE_ATTEMPTS
       = Ok (out, rng') /\
       k ≤ 8 /\ rng' = rng_after k subset (MersenneTwister.seed 42)) /\
    ((forall m, m < 8 ->
        candidate_at (lit "abcdef") [1; 2; 3; 4] subset
          (MersenneTwister.seed 42) m
        = Ok (lit "abcdef")) ->
       exists rng',
         _attempt_shuffle (lit "abcdef") [1; 2; 3; 4]
           (MersenneTwister.seed 42) MAX_SHUFFLE_ATTEMPTS
         = Ok (lit "abcdef", rng')).
Proof.
  assert (Forall (fun i => i < length (lit "abcdef")) [1; 2; 3; 4]) as Hin.
  { repeat constructor; vm_compute; lia. }
  split; [exact Hin|].
  exact (_attempt_shuffle_bounded (lit "abcdef") [1; 2; 3; 4]
           (MersenneTwister.seed 42) MersenneTwister_in_range Hin).
Defined.

Example score_hello_earth :
  compute_detailed_score (lit "Hello World") (lit "Hello Earth") true true
    (lit "hybrid") (lit "unnamed") (lit "custom")
  = Ok {| model_name := lit "unnamed"; source_label := lit "custom";
          method := lit "hybrid";
          score := 0x1.f5a814afd6a04p-2%float;
          char_score := 0x1.45d1745d1745dp-1%float;
          word_score := 0.5%float;
          token_set_score := 0x1.5555555555555p-2%float |}.
Proof. vm_compute. reflexivity. Qed.

Lemma final_score_by_method_witness :
  lit "hybrid" ∈ ScoringMethod /\
  exists r,
    compute_detailed_score (lit "Hello World") (lit "Hello Earth") true true
      (lit "hybrid") (lit "unnamed") (lit "custom") = Ok r /\
    char_score r
      = Difflib.ratio (normalize true true (lit "Hello World"))
          (normalize true true (lit "Hello Earth")) /\
    word_score r
      = word_level (findall (normalize true true (lit "Hello World")))
          (findall (normalize true true (lit "Hello Earth"))) /\
    token_set_score r
      = token_set_level (findall (normalize true true (lit "Hello World")))
          (findall (normalize true true (lit "Hello Earth"))) /\
    (lit "hybrid" = lit "char" -> score r = char_score r) /\
    (lit "hybrid" = lit "word" -> score r = word_score r) /\
    (lit "hybrid" = lit "token_set" -> score r = token_set_score r) /\
    (lit "hybrid" = lit "hybrid" ->
       score r
       = ((char_score r + word_score r + token_set_score r) / 3)%float) /\
    fst (score_decoded_text (lit "Hello World") (lit "Hello Earth") true true
           (lit "hybrid") None (lit "custom") (lit "scores.md") ∅)
      = Ok (score r) /\
    fst (WordSalat.score_decoded_text (lit "Hello World") (lit "Hello Earth")
           true true (lit "hybrid") None (lit "custom") (lit "scores.md") ∅)
      = Ok (score r).
Proof.
  assert (lit "hybrid" ∈ ScoringMethod) as Hm.
  { unfold ScoringMethod. rewrite !elem_of_cons. tauto. }
  split; [exact Hm|].
  exact (final_score_by_method (lit "Hello World") (lit "Hello Earth") true
           true (lit "hybrid") (lit "unnamed") (lit "custom") None
           (lit "scores.md") ∅ AsciiText_lower_on_ascii Hm).
Defined.

(** C7 as it is written fails: [HYBRID] is none of the four strings, and
    the scorer returns a score for it. *)
Lemma unknown_method_counterexample :
  (lit "HYBRID" ∉ ScoringMethod) /\
  score_decoded_text (lit "a") (lit "a") true true (lit "HYBRID") None
    (lit "custom") (lit "results/decoded_scores.md") ∅
  = (Ok 1%float, ∅).
Proof.
  split; [|vm_compute; reflexivity].
  intros [E|[E|[E|E]]]%ScoringMethod_cases; vm_compute in E; discriminate E.
Qed.

Lemma unknown_method_raises_witness :
  (str_lower (lit "unknown") ∉ ScoringMethod) /\
  let error :=
    ValueError (lit "Unsupported scoring method: " ++ lit "unknown") in
  compute_detailed_score (lit "a") (lit "a") true true (lit "unknown")
    (lit "unnamed") (lit "custom") = Raise error /\
  score_decoded_text (lit "a") (lit "a") true true (lit "unknown")
    (Some (lit "model")) (lit "custom") (lit "scores.md") ∅
    = (Raise error, ∅) /\
  WordSalat.score_decoded_text (lit "a") (lit "a") true true (lit "unknown")
    (Some (lit "model")) (lit "custom") (lit "scores.md") ∅
    = (Raise error, ∅).
Proof.
  assert (str_lower (lit "unknown") ∉ ScoringMethod) as Hm.
  { intros [E|[E|[E|E]]]%ScoringMethod_cases; vm_compute in E; discriminate E. }
  split; [exact Hm|].
  exact (unknown_method_raises (lit "a") (lit "a") true true (lit "unknown")
           (lit "unnamed") (lit "custom") (Some (lit "model"))
           (lit "scores.md") ∅ Hm).
Defined.

Lemma word_score_edge_cases_witness :
  str_lower (lit "WORD") ∈ ScoringMethod /\
  exists r,
    compute_detailed_score (lit "42") (lit "Hello") true true (lit "WORD")
      (lit "unnamed") (lit "custom") = Ok r /\
    (findall (normalize true true (lit "42")) = [] /\
     findall (normalize true true (lit "Hello")) = [] ->
       word_score r = 1%float) /\
    ((findall (normalize true true (lit "42")) = [] /\
      findall (normalize true true (lit "Hello")) ≠ []) \/
     (findall (normalize true true (lit "42")) ≠ [] /\
      findall (normalize true true (lit "Hello")) = []) ->
       word_score r = 0%float) /\
    (findall (normalize true true (lit "42")) ≠ [] /\
     findall (normalize true true (lit "Hello")) ≠ [] ->
       word_score r
       = Difflib.ratio (findall (normalize true true (lit "42")))
           (findall (normalize true true (lit "Hello")))) /\
    (str_lower (lit "WORD") = lit "word" ->
       fst (score_decoded_text (lit "42") (lit "Hello") true true (lit "WORD")
              None (lit "custom") (lit "scores.md") ∅)
         = Ok (word_score r) /\
       fst (WordSalat.score_decoded_text (lit "42") (lit "Hello") true true
              (lit "WORD") None (lit "custom") (lit "scores.md") ∅)
         = Ok (word_score r)).
Proof.
  assert (str_lower (lit "WORD") ∈ ScoringMethod) as Hm.
  { change (str_lower (lit "WORD")) with (lit "word").
    unfold ScoringMethod. rewrite !elem_of_cons. tauto. }
  split; [exact Hm|].
  exact (word_score_edge_cases (lit "42") (lit "Hello") true true (lit "WORD")
           (lit "unnamed") (lit "custom") None (lit "scores.md") ∅ Hm).
Defined.

Lemma method_case_insensitive_witness :
  lit "hybrid" ∈ ScoringMethod /\ casing_of (lit "HyBRID") (lit "hybrid") /\
  exists r,
    compute_detailed_score (lit "Hello World") (lit "Hello Earth") true true
      (lit "HyBRID") (lit "unnamed") (lit "custom") = Ok r /\
    compute_detailed_score (lit "Hello World") (lit "Hello Earth") true true
      (lit "hybrid") (lit "unnamed") (lit "custom") = Ok r /\
    method r = lit "hybrid" /\
    score_decoded_text (lit "Hello World") (lit "Hello Earth") true true
      (lit "HyBRID") (Some (lit "model")) (lit "custom") (lit "scores.md") ∅
    = score_decoded_text (lit "Hello World") (lit "Hello Earth") true true
        (lit "hybrid") (Some (lit "model")) (lit "custom") (lit "scores.md") ∅
    /\
    WordSalat.score_decoded_text (lit "Hello World") (lit "Hello Earth") true
      true (lit "HyBRID") (Some (lit "model")) (lit "custom")
      (lit "scores.md") ∅
    = WordSalat.score_decoded_text (lit "Hello World") (lit "Hello Earth")
        true true (lit "hybrid") (Some (lit "model")) (lit "custom")
        (lit "scores.md") ∅.
Proof.
  assert (lit "hybrid" ∈ ScoringMethod) as Hm.
  { unfold ScoringMethod. rewrite !elem_of_cons. tauto. }
  assert (casing_of (lit "HyBRID") (lit "hybrid")) as Hc.
  { unfold casing_of. vm_compute lit.
    repeat (constructor;
            [(left; reflexivity) || (right; split; [lia | reflexivity])|]).
    constructor. }
  split; [exact Hm|]. split; [exact Hc|].
  exact (method_case_insensitive (lit "Hello World") (lit "Hello Earth") true
           true (lit "HyBRID") (lit "hybrid") (lit "unnamed") (lit "custom")
           (Some (lit "model")) (lit "scores.md") ∅
           AsciiText_lower_on_ascii Hm Hc).
Defined.

Lemma score_identical_witness :
  lit "hybrid" ∈ ScoringMethod /\
  (Z.of_nat (length (normalize true true (lit "  ")))  < 2 ^ 62)%Z /\
  fst (score_decoded_text (lit "  ") (lit "  ") true true (lit "hybrid") None
         (lit "custom") (lit "scores.md") ∅) = Ok 1%float /\
  fst (WordSalat.score_decoded_text (lit "  ") (lit "  ") true true
         (lit "hybrid") None (lit "custom") (lit "scores.md") ∅)
    = Ok 1%float /\
  exists r,
    compute_detailed_score (lit "  ") (lit "  ") true true (lit "hybrid")
      (lit "unnamed") (lit "custom") = Ok r /\
    score r = 1%float /\ char_score r = 1%float /\
    word_score r = 1%float /\ token_set_score r = 1%float.
Proof.
  assert (lit "hybrid" ∈ ScoringMethod) as Hm.
  { unfold ScoringMethod. rewrite !elem_of_cons. tauto. }
  assert (Z.of_nat (length (normalize true true (lit "  "))) < 2 ^ 62)%Z
    as Hlen by (vm_compute; reflexivity).
  split; [exact Hm|]. split; [exact Hlen|].
  exact (score_identical (lit "  ") true true (lit "hybrid") (lit "unnamed")
           (lit "custom") None (lit "scores.md") ∅
           AsciiText_lower_on_ascii Hm Hlen).
Defined.

(** The further properties at concrete inputs *)

Lemma scramble_text_permutation_witness :
  exists out,
    scramble_text (lit "Hello, world! 42") (Some 7%Z) (MersenneTwister.seed 0)
      = Ok out /\
    out ≡ₚ lit "Hello, world! 42".
Proof.
  apply (scramble_text_permutation (lit "Hello, world! 42") (Some 7%Z)
           (MersenneTwister.seed 0) MersenneTwister_in_range).
Defined.

Lemma scramble_text_words_witness :
  exists out,
    scramble_text (lit "Hello, world! 42") (Some 7%Z) (MersenneTwister.seed 0)
      = Ok out /\
    forall start end_, (start, end_) ∈ finditer (lit "Hello, world! 42") ->
      slice out start end_ ≡ₚ slice (lit "Hello, world! 42") start end_ /\
      out !! start = lit "Hello, world! 42" !! start /\
      out !! (end_ - 1) = lit "Hello, world! 42" !! (end_ - 1) /\
      ((end_ - start) mod 2 = 1 ->
         out !! (start + (end_ - start) / 2)
         = lit "Hello, world! 42" !! (start + (end_ - start) / 2)).
Proof.
  apply (scramble_text_words (lit "Hello, world! 42") (Some 7%Z)
           (MersenneTwister.seed 0) MersenneTwister_in_range).
Defined.

Lemma scramble_text_word_boundaries_witness :
  exists out,
    scramble_text (lit "Hello, world! 42") None (MersenneTwister.seed 5)
      = Ok out /\
    finditer out = finditer (lit "Hello, world! 42").
Proof.
  apply (scramble_text_word_boundaries (lit "Hello, world! 42") None
           (MersenneTwister.seed 5) MersenneTwister_in_range).
Defined.


Lemma scramble_text_twice_witness :
  exists once twice,
    scramble_text (lit "Hello, world! 42") (Some 1%Z) (MersenneTwister.seed 0)
      = Ok once /\
    scramble_text once (Some 2%Z) (MersenneTwister.seed 0) = Ok twice /\
    twice ≡ₚ lit "Hello, world! 42" /\
    finditer twice = finditer (lit "Hello, world! 42") /\
    forall start end_, (start, end_) ∈ finditer (lit "Hello, world! 42") ->
      slice twice start end_ ≡ₚ slice (lit "Hello, world! 42") start end_ /\
      twice !! start = lit "Hello, world! 42" !! start /\
      twice !! (end_ - 1) = lit "Hello, world! 42" !! (end_ - 1) /\
      ((end_ - start) mod 2 = 1 ->
         twice !! (start + (end_ - start) / 2)
         = lit "Hello, world! 42" !! (start + (end_ - start) / 2)).
Proof.
  apply (scramble_text_twice (lit "Hello, world! 42") (Some 1%Z) (Some 2%Z)
           (MersenneTwister.seed 0) (MersenneTwister.seed 0)
           MersenneTwister_in_range).
Defined.

Lemma _attempt_shuffle_in_place_witness :
  NoDup [1; 2; 3; 4] /\
  Forall (fun i => i < length (lit "abcdef")) [1; 2; 3; 4] /\
  exists out rng',
    _attempt_shuffle (lit "abcdef") [1; 2; 3; 4] (MersenneTwister.seed 42) 8
      = Ok (out, rng') /\
    length out = length (lit "abcdef") /\
    out ≡ₚ lit "abcdef" /\
    forall j, j ∉ [1; 2; 3; 4] -> out !! j = lit "abcdef" !! j.
Proof.
  assert (NoDup [1; 2; 3; 4]) as Hnd
    by (apply (bool_decide_unpack _); vm_compute; exact I).
  assert (Forall (fun i => i < length (lit "abcdef")) [1; 2; 3; 4]) as Hin
    by (repeat constructor; cbn; lia).
  split; [exact Hnd|]. split; [exact Hin|].
  exact (_attempt_shuffle_in_place (lit "abcdef") [1; 2; 3; 4]
           (MersenneTwister.seed 42) 8 MersenneTwister_in_range Hnd Hin).
Defined.


Lemma token_set_level_by_sets_witness :
  token_set_level [lit "big"; lit "cat"] [lit "cat"]
    = token_set_level [lit "cat"; lit "big"; lit "cat"] [lit "cat"; lit "cat"]
  /\
  token_set_level [lit "big"; lit "cat"] [lit "cat"]
    = token_set_level [lit "cat"] [lit "big"; lit "cat"].
Proof.
  apply (token_set_level_by_sets [lit "big"; lit "cat"]
           [lit "cat"; lit "big"; lit "cat"] [lit "cat"]
           [lit "cat"; lit "cat"]).
  - intros w. rewrite !elem_of_cons. tauto.
  - intros w. rewrite !elem_of_cons. tauto.
Defined.

Lemma token_set_level_extremes_witness :
  ((forall w, w ∈ [lit "big"; lit "cat"] <-> w ∈ [lit "dog"]) ->
     token_set_level [lit "big"; lit "cat"] [lit "dog"] = 1%float) /\
  ((forall w, w ∈ [lit "big"; lit "cat"] -> w ∉ [lit "dog"]) ->
     [lit "big"; lit "cat"] ≠ [] \/ [lit "dog"] ≠ [] ->
     token_set_level [lit "big"; lit "cat"] [lit "dog"] = 0%float).
Proof.
  apply (token_set_level_extremes [lit "big"; lit "cat"] [lit "dog"]).
  vm_compute. reflexivity.
Defined.

Lemma score_equal_normal_forms_witness :
  fst (score_decoded_text (lit "Hello World") (lit "hello   world") true true
         (lit "hybrid") None (lit "custom") (lit "scores.md") ∅)
    = Ok 1%float /\
  fst (WordSalat.score_decoded_text (lit "Hello World") (lit "hello   world")
         true true (lit "hybrid") None (lit "custom") (lit "scores.md") ∅)
    = Ok 1%float /\
  exists r,
    compute_detailed_score (lit "Hello World") (lit "hello   world") true
      true (lit "hybrid") (lit "unnamed") (lit "custom") = Ok r /\
    score r = 1%float /\ char_score r = 1%float /\
    word_score r = 1%float /\ token_set_score r = 1%float.
Proof.
  apply (score_equal_normal_forms (lit "Hello World") (lit "hello   world")
           true true (lit "hybrid") (lit "unnamed") (lit "custom") None
           (lit "scores.md") ∅).
  - vm_compute. reflexivity.
  - vm_compute. reflexivity.
  - change (str_lower (lit "hybrid")) with (lit "hybrid").
    unfold ScoringMethod. rewrite !elem_of_cons. tauto.
Defined.

Lemma collapse_whitespace_round_trip_witness :
  Forall is_field (str_split (lit " a  b ")) /\
  str_split (str_join (lit " ") (str_split (lit " a  b ")))
    = str_split (lit " a  b ") /\
  normalize false true (normalize false true (lit " a  b "))
    = normalize false true (lit " a  b ").
Proof.
  apply (collapse_whitespace_round_trip (lit " a  b ")). reflexivity.
Defined.

Lemma score_empty_side_witness :
  fst (score_decoded_text (lit "Hello World") (lit "  ") true true
         (lit "hybrid") None (lit "custom") (lit "scores.md") ∅)
    = Ok 0%float /\
  fst (WordSalat.score_decoded_text (lit "Hello World") (lit "  ") true true
         (lit "hybrid") None (lit "custom") (lit "scores.md") ∅)
    = Ok 0%float /\
  exists r,
    compute_detailed_score (lit "Hello World") (lit "  ") true true
      (lit "hybrid") (lit "unnamed") (lit "custom") = Ok r /\
    score r = 0%float /\ char_score r = 0%float /\
    word_score r = 0%float /\ token_set_score r = 0%float.
Proof.
  apply (score_empty_side (lit "Hello World") (lit "  ") true true
           (lit "hybrid") (lit "unnamed") (lit "custom") None
           (lit "scores.md") ∅).
  - right. split; [vm_compute; reflexivity|]. vm_compute. discriminate.
  - vm_compute. reflexivity.
  - change (str_lower (lit "hybrid")) with (lit "hybrid").
    unfold ScoringMethod. rewrite !elem_of_cons. tauto.
Defined.

Lemma scores_in_unit_interval_witness :
  exists r,
    compute_detailed_score (lit "Hello World") (lit "Hello Earth") true true
      (lit "hybrid") (lit "unnamed") (lit "custom") = Ok r /\
    fst (score_decoded_text (lit "Hello World") (lit "Hello Earth") true true
           (lit "hybrid") None (lit "custom") (lit "scores.md") ∅)
      = Ok (score r) /\
    fst (WordSalat.score_decoded_text (lit "Hello World") (lit "Hello Earth")
           true true (lit "hybrid") None (lit "custom") (lit "scores.md") ∅)
      = Ok (score r) /\
    Forall (fun x => (0 <=? x)%float = true /\ (x <=? 1)%float = true)
      [score r; char_score r; word_score r; token_set_score r].
Proof.
  apply (scores_in_unit_interval (lit "Hello World") (lit "Hello Earth") true
           true (lit "hybrid") (lit "unnamed") (lit "custom") None
           (lit "scores.md") ∅).
  - vm_compute. reflexivity.
  - change (str_lower (lit "hybrid")) with (lit "hybrid").
    unfold ScoringMethod. rewrite !elem_of_cons. tauto.
Defined.

Lemma logged_scores_fixed_width_witness :
  exists r t1 t2 t3 t4,
    compute_detailed_score (lit "Hello World") (lit "Hello Earth") true true
      (lit "hybrid") (lit "unnamed") (lit "custom") = Ok r /\
    to_markdown_row r
    = lit "| " ++ lit "unnamed" ++ lit " | `" ++ lit "custom" ++ lit "` | `"
        ++ str_lower (lit "hybrid") ++ lit "` | " ++ t1 ++ lit " | " ++ t2
        ++ lit " | " ++ t3 ++ lit " | " ++ t4 ++ lit " |" /\
    Forall fixed_4f [t1; t2; t3; t4].
Proof.
  apply (logged_scores_fixed_width (lit "Hello World") (lit "Hello Earth")
           true true (lit "hybrid") (lit "unnamed") (lit "custom")).
  - vm_compute. reflexivity.
  - change (str_lower (lit "hybrid")) with (lit "hybrid").
    unfold ScoringMethod. rewrite !elem_of_cons. tauto.
Defined.

Lemma perfect_score_same_text_witness :
  exists r,
    compute_detailed_score (lit "Hello World") (lit "Hello Earth") true true
      (lit "char") (lit "unnamed") (lit "custom") = Ok r /\
    (char_score r = 1%float <->
       normalize true true (lit "Hello World")
       = normalize true true (lit "Hello Earth")) /\
    (word_score r = 1%float <->
       findall (normalize true true (lit "Hello World"))
       = findall (normalize true true (lit "Hello Earth"))) /\
    (token_set_score r = 1%float <->
       forall w, w ∈ findall (normalize true true (lit "Hello World"))
                 <-> w ∈ findall (normalize true true (lit "Hello Earth"))) /\
    (str_lower (lit "char") = lit "char" ->
       (fst (score_decoded_text (lit "Hello World") (lit "Hello Earth") true
               true (lit "char") None (lit "custom") (lit "scores.md") ∅)
          = Ok 1%float <->
        normalize true true (lit "Hello World")
        = normalize true true (lit "Hello Earth"))).
Proof.
  apply (perfect_score_same_text (lit "Hello World") (lit "Hello Earth") true
           true (lit "char") (lit "unnamed") (lit "custom") None
           (lit "scores.md") ∅).
  - vm_compute. reflexivity.
  - change (str_lower (lit "char")) with (lit "char").
    unfold ScoringMethod. rewrite !elem_of_cons. tauto.
Defined.
